(** * surf-cli: the network-capture store and the workflow executor

    A shallow embedding of two modules of surf-cli:

    - the network storage module ([storeBody], [readBody], [appendEntry],
      [appendEntrySync], [matchesUrlPattern], [matchesFilters],
      [readEntriesSync], [getEntrySync], [getOriginsSync], [getStatsSync],
      [cleanup], [clear], [maybeAutoCleanup]);
    - the executor of [surf do] workflows ([shouldAutoWait],
      [getAutoWaitCommand], [resolveVar], [substituteVars],
      [extractStepOutput], [executeSingleStep], [executeStep],
      [executeDoSteps], and the handler of the bytes of the socket in
      [sendDoRequest]).

    JavaScript numbers that hold counts, sizes and millisecond timestamps are
    integers far below 2^53 and are written in [Z]; the one place where the
    store computes with fractions (the running size estimate of [cleanup]) is
    written with binary64 floats.  Strings are byte strings; what the store
    and the executor get from the JavaScript runtime ([crypto], [URL],
    [RegExp], [JSON]) is taken as a parameter of the development.  The
    calls of [appendEntrySync] on the lock file throw as [fs] does, and
    the variables of a workflow inherit from [Object.prototype] as an
    object literal does. *)

From Stdlib Require Import ZArith Floats Uint63 Lia Ascii String.
From Stdlib Require Import Strings.Byte.
From stdpp Require Import gmap strings list pretty sorting.

Set Warnings "-register-all".

(** ** JavaScript string operations used by both modules *)

Module Js.

(** [s.startsWith(p)] *)
Definition startsWith (s p : string) : bool := String.prefix p s.

(** [s.endsWith(p)] *)
Definition endsWith (s p : string) : bool :=
  String.prefix (String.rev p) (String.rev s).

(** [s.includes(p)] *)
Fixpoint includes (s p : string) : bool :=
  String.prefix p s ||
  match s with
  | EmptyString => false
  | String _ rest => includes rest p
  end.

(** [s.split(sep)[0]] for a one-character separator: the part of [s] before
    the first occurrence of [sep], all of [s] when there is none. *)
Fixpoint before_first (sep : ascii) (s : string) : string :=
  match s with
  | EmptyString => EmptyString
  | String c rest =>
      if Ascii.eqb c sep then EmptyString else String c (before_first sep rest)
  end.

Definition map_chars (f : ascii → ascii) : string → string :=
  fix go s :=
    match s with
    | EmptyString => EmptyString
    | String c rest => String (f c) (go rest)
    end.

Definition is_upper (c : ascii) : bool :=
  let n := nat_of_ascii c in (65 <=? n)%nat && (n <=? 90)%nat.
Definition is_lower (c : ascii) : bool :=
  let n := nat_of_ascii c in (97 <=? n)%nat && (n <=? 122)%nat.
Definition is_digit (c : ascii) : bool :=
  let n := nat_of_ascii c in (48 <=? n)%nat && (n <=? 57)%nat.

Definition upper_char (c : ascii) : ascii :=
  if is_lower c then ascii_of_nat (nat_of_ascii c - 32) else c.
Definition lower_char (c : ascii) : ascii :=
  if is_upper c then ascii_of_nat (nat_of_ascii c + 32) else c.

(** [s.toUpperCase()] and [s.toLowerCase()] on the ASCII letters; the other
    bytes are left as they are. *)
Definition toUpperCase : string → string := map_chars upper_char.
Definition toLowerCase : string → string := map_chars lower_char.

(** [s.slice(1, -1)] *)
Definition slice_1_m1 (s : string) : string :=
  String.substring 1 (String.length s - 2) s.

(** [String(n)] for an integer [n]. *)
Definition String_of_Z (n : Z) : string := pretty n.

(** A string is truthy when it is not empty; a missing property is
    [undefined], which is falsy. *)
Definition truthy_str (o : option string) : bool :=
  match o with
  | Some s => negb (String.eqb s "")
  | None => false
  end.

(** The white space [parseInt] skips (the ASCII part of it). *)
Definition is_space (c : ascii) : bool :=
  let n := nat_of_ascii c in
  (n =? 32)%nat || ((9 <=? n)%nat && (n <=? 13)%nat).

Fixpoint skip_spaces (s : string) : string :=
  match s with
  | String c rest => if is_space c then skip_spaces rest else s
  | EmptyString => EmptyString
  end.

Definition digit_value (c : ascii) : Z := Z.of_nat (nat_of_ascii c - 48).

(** The decimal digits at the head of [s], read after [acc]; [None] when
    [s] does not start with a digit and nothing has been read yet. *)
Fixpoint read_digits (s : string) (acc : option Z) : option Z :=
  match s with
  | String c rest =>
      if is_digit c
      then read_digits rest (Some (10 * default 0%Z acc + digit_value c)%Z)
      else acc
  | EmptyString => acc
  end.

(** [parseInt(s, 10)]; [None] is [NaN]. *)
Definition parseInt (s : string) : option Z :=
  match skip_spaces s with
  | String "-" rest => Z.opp <$> read_digits rest None
  | String "+" rest => read_digits rest None
  | t => read_digits t None
  end.

(** [arr.slice(-n)] for [n > 0]: the last [n] elements, all of them when
    there are fewer. *)
Definition slice_last {A} (n : Z) (l : list A) : list A :=
  drop (length l - Z.to_nat n) l.

(** The names of the properties that every object inherits from
    [Object.prototype]: [obj[name]] is not [undefined] for them, and
    [obj["__proto__"] = v] sets the prototype and no property. *)
Definition Object_prototype_names : list string :=
  ["constructor"; "hasOwnProperty"; "isPrototypeOf"; "propertyIsEnumerable";
   "toLocaleString"; "toString"; "valueOf"; "__proto__"; "__defineGetter__";
   "__defineSetter__"; "__lookupGetter__"; "__lookupSetter__"].

End Js.

(** ** JavaScript numbers *)

Module Double.
Local Open Scope Z_scope.

(** A non-negative integer below 2^53 as a double: the conversion is
    exact. *)
Definition of_Z (n : Z) : float := PrimFloat.of_uint63 (Uint63.of_Z n).

Lemma digits2_pos_size (p : positive) : digits2_pos p = Pos.size p.
Proof. induction p; cbn; congruence. Qed.

Lemma digits2_pos_iter (p k : positive) :
  digits2_pos (Pos.iter xO p k) = (digits2_pos p + k)%positive.
Proof.
  induction k as [|k IH] using Pos.peano_ind.
  - cbn. lia.
  - rewrite Pos.iter_succ. cbn. rewrite IH. lia.
Qed.

Lemma iter_xO_le (a b k : positive) :
  (a <= b)%positive → (Pos.iter xO a k <= Pos.iter xO b k)%positive.
Proof.
  intros Hab. induction k as [|k IH] using Pos.peano_ind.
  - cbn. lia.
  - rewrite !Pos.iter_succ. lia.
Qed.

Lemma iter_xO_lt (a b k : positive) :
  (a < b)%positive → (Pos.iter xO a k < Pos.iter xO b k)%positive.
Proof.
  intros Hab. induction k as [|k IH] using Pos.peano_ind.
  - cbn. lia.
  - rewrite !Pos.iter_succ. lia.
Qed.

Lemma digits2_pos_le (a b : positive) :
  (a <= b)%positive → (digits2_pos a <= digits2_pos b)%positive.
Proof.
  intros Hab. rewrite !digits2_pos_size.
  destruct (Pos.leb_spec (Pos.size a) (Pos.size b)) as [|Hlt]; [done|].
  exfalso.
  pose proof (Pos.size_gt b) as Hb. pose proof (Pos.size_le a) as Ha.
  apply Pos2Z.pos_lt_pos in Hb. apply Pos2Z.pos_le_pos in Ha.
  rewrite Pos2Z.inj_pow in Hb, Ha.
  assert (2 ^ Z.succ (Z.pos (Pos.size b)) <= 2 ^ Z.pos (Pos.size a)) as Hpow.
  { apply Z.pow_le_mono_r; lia. }
  rewrite Z.pow_succ_r in Hpow by lia. lia.
Qed.

Lemma digits2_pos_bound (p : positive) :
  Z.pos p < 2 ^ 53 → Z.pos (digits2_pos p) <= 53.
Proof.
  intros Hp. rewrite digits2_pos_size.
  destruct (Z.le_gt_cases (Z.pos (Pos.size p)) 53) as [|Hgt]; [done|].
  exfalso. pose proof (Pos.size_le p) as Hle.
  apply Pos2Z.pos_le_pos in Hle. rewrite Pos2Z.inj_pow in Hle.
  assert (2 ^ 54 <= 2 ^ Z.pos (Pos.size p)) as Hpow.
  { apply Z.pow_le_mono_r; lia. }
  change (2 ^ 53) with 9007199254740992 in Hp.
  change (2 ^ 54) with 18014398509481984 in Hpow. lia.
Qed.

(** The mantissa of an integer below 2^53, shifted to 53 bits. *)
Definition mantissa (p : positive) : positive :=
  match (Z.pos (digits2_pos p) - 53)%Z with
  | Z.neg k => Pos.iter xO p k
  | _ => p
  end.

(** A mantissa of 53 bits is not rounded. *)
Lemma binary_round_aux_exact (m : positive) (e : Z) :
  Z.pos (digits2_pos m) = 53 → -1074 <= e <= 971 →
  binary_round_aux prec emax false (Z.pos m) e loc_Exact
  = S754_finite false m e.
Proof.
  intros Hm He.
  assert (Hshift : fexp prec emax (Zdigits2 (Z.pos m) + e) - e = 0).
  { unfold fexp, SpecFloat.emin. cbn [Zdigits2]. rewrite Hm.
    change prec with 53. change emax with 1024. lia. }
  unfold binary_round_aux, shr_fexp. rewrite Hshift.
  cbn [shr shr_record_of_loc loc_of_shr_record shr_m round_nearest_even].
  rewrite Hshift.
  cbn [shr shr_record_of_loc loc_of_shr_record shr_m round_nearest_even].
  change (emax - prec) with 971.
  destruct (Z.leb_spec e 971); [reflexivity|lia].
Qed.

Lemma normalize_pos (p : positive) :
  Z.pos p < 2 ^ 53 →
  binary_normalize prec emax (Z.pos p) 0 false
  = S754_finite false (mantissa p) (Z.pos (digits2_pos p) - 53).
Proof.
  intros Hp. pose proof (digits2_pos_bound p Hp) as Hd.
  unfold binary_normalize, binary_round, shl_align, mantissa.
  assert (Hexp : fexp prec emax (Z.pos (digits2_pos p) + 0)
                 = Z.pos (digits2_pos p) - 53).
  { unfold fexp, SpecFloat.emin. change prec with 53.
    change emax with 1024. lia. }
  rewrite Hexp, Z.sub_0_r.
  destruct (Z.pos (digits2_pos p) - 53) as [|k|k] eqn:Hk; [|lia|].
  - apply binary_round_aux_exact; lia.
  - apply binary_round_aux_exact; [|lia].
    rewrite digits2_pos_iter. lia.
Qed.

Lemma Prim2SF_of_Z (n : Z) :
  0 <= n < 2 ^ 53 →
  Prim2SF (of_Z n) = binary_normalize prec emax n 0 false.
Proof.
  intros Hn. unfold of_Z. rewrite of_uint63_spec, Uint63.of_Z_spec.
  rewrite Z.mod_small; [reflexivity|].
  split; [lia|]. eapply Z.lt_trans; [apply Hn|]. reflexivity.
Qed.

Lemma ltb_of_Z_false (a b : Z) :
  0 <= a <= b → b < 2 ^ 53 → PrimFloat.ltb (of_Z b) (of_Z a) = false.
Proof.
  intros Hab Hb. rewrite FloatAxioms.ltb_spec, !Prim2SF_of_Z by lia.
  destruct a as [|a|a]; [|  |lia]; destruct b as [|b|b]; try lia.
  - reflexivity.
  - rewrite normalize_pos by lia. reflexivity.
  - rewrite !normalize_pos by lia.
    unfold SFltb, SFcompare.
    assert (digits2_pos a <= digits2_pos b)%positive as Hd
      by (apply digits2_pos_le; lia).
    destruct (Z.compare_spec (Z.pos (digits2_pos b) - 53)
                (Z.pos (digits2_pos a) - 53)) as [Heq|Hlt|Hgt];
      [|lia|reflexivity].
    assert (digits2_pos a = digits2_pos b) as Hsame by lia.
    unfold mantissa. rewrite Hsame.
    destruct (Z.pos (digits2_pos b) - 53) as [|k|k].
    + change (Pos.compare_cont Eq b a) with (b ?= a)%positive.
      destruct (Pos.compare_spec b a); try reflexivity. lia.
    + change (Pos.compare_cont Eq b a) with (b ?= a)%positive.
      destruct (Pos.compare_spec b a); try reflexivity. lia.
    + change (Pos.compare_cont Eq (Pos.iter xO b k) (Pos.iter xO a k))
        with (Pos.iter xO b k ?= Pos.iter xO a k)%positive.
      pose proof (iter_xO_le a b k ltac:(lia)) as Hle.
      destruct (Pos.compare_spec (Pos.iter xO b k) (Pos.iter xO a k));
        try reflexivity. lia.
Qed.

Lemma ltb_of_Z_true (a b : Z) :
  0 <= a < b → b < 2 ^ 53 → PrimFloat.ltb (of_Z a) (of_Z b) = true.
Proof.
  intros Hab Hb. rewrite FloatAxioms.ltb_spec, !Prim2SF_of_Z by lia.
  destruct a as [|a|a]; [| |lia]; destruct b as [|b|b]; try lia.
  - rewrite normalize_pos by lia. reflexivity.
  - rewrite !normalize_pos by lia.
    unfold SFltb, SFcompare.
    assert (digits2_pos a <= digits2_pos b)%positive as Hd
      by (apply digits2_pos_le; lia).
    destruct (Z.compare_spec (Z.pos (digits2_pos a) - 53)
                (Z.pos (digits2_pos b) - 53)) as [Heq|Hlt|Hgt];
      [|reflexivity|lia].
    assert (digits2_pos a = digits2_pos b) as Hsame by lia.
    unfold mantissa. rewrite Hsame.
    destruct (Z.pos (digits2_pos b) - 53) as [|k|k].
    + change (Pos.compare_cont Eq a b) with (a ?= b)%positive.
      destruct (Pos.compare_spec a b); try reflexivity; lia.
    + change (Pos.compare_cont Eq a b) with (a ?= b)%positive.
      destruct (Pos.compare_spec a b); try reflexivity; lia.
    + change (Pos.compare_cont Eq (Pos.iter xO a k) (Pos.iter xO b k))
        with (Pos.iter xO a k ?= Pos.iter xO b k)%positive.
      pose proof (iter_xO_lt a b k ltac:(lia)) as Hlt.
      destruct (Pos.compare_spec (Pos.iter xO a k) (Pos.iter xO b k));
        try reflexivity; lia.
Qed.

(** Doubles of integers below 2^53 compare as the integers do. *)
Lemma ltb_of_Z (a b : Z) :
  0 <= a < 2 ^ 53 → 0 <= b < 2 ^ 53 →
  PrimFloat.ltb (of_Z a) (of_Z b) = (a <? b).
Proof.
  intros Ha Hb. destruct (Z.ltb_spec a b).
  - apply ltb_of_Z_true; lia.
  - apply ltb_of_Z_false; lia.
Qed.

End Double.

(** ** Decimal renderings *)

(** [String(n)] and [parseInt(s, 10)] on the integers: the rendering of an
    integer is made of decimal digits after an optional minus sign, and
    [parseInt] reads it back. *)
Module Decimal.
Local Open Scope Z_scope.

(** Every character of the string passes the test. *)
Fixpoint all_chars (p : ascii → bool) (s : string) : bool :=
  match s with
  | EmptyString => true
  | String c rest => p c && all_chars p rest
  end.

Lemma pretty_N_char_digit (d : N) :
  (d < 10)%N →
  Js.is_digit (pretty_N_char d) = true
  ∧ Js.digit_value (pretty_N_char d) = Z.of_N d.
Proof.
  intros Hd.
  destruct d as [|[[[[]|[]|]|[[]|[]|]|]|[[[]|[]|]|[[]|[]|]|]|]]; try done; lia.
Qed.

(** The digits that [pretty] puts before a string are read back as the
    number they render. *)
Lemma read_digits_pretty_N_go (x : N) (s : string) :
  (0 < x)%N →
  Js.read_digits (pretty_N_go x s) None
  = Js.read_digits s (Some (Z.of_N x)).
Proof.
  revert s. induction (N.lt_wf_0 x) as [x _ IH]. intros s Hx.
  rewrite pretty_N_go_step by done.
  assert (Hmod : (x `mod` 10 < 10)%N) by by apply N.mod_lt.
  destruct (pretty_N_char_digit _ Hmod) as [Hdigit Hvalue].
  destruct (decide (x `div` 10 = 0)%N) as [Hzero|Hpos].
  - rewrite Hzero, pretty_N_go_0. cbn [Js.read_digits].
    rewrite Hdigit, Hvalue. cbn [default]. do 2 f_equal.
    pose proof (N.div_mod' x 10). lia.
  - rewrite IH; [|apply N.div_lt; lia|by apply N.neq_0_lt_0].
    cbn [Js.read_digits].
    rewrite Hdigit, Hvalue. cbn [default]. unfold id. do 2 f_equal.
    pose proof (N.div_mod' x 10). lia.
Qed.

Lemma all_chars_pretty_N_go (x : N) (s : string) :
  all_chars Js.is_digit s = true →
  all_chars Js.is_digit (pretty_N_go x s) = true.
Proof.
  revert s. induction (N.lt_wf_0 x) as [x _ IH]. intros s Hs.
  destruct (decide (x = 0)%N) as [->|Hx]; [by rewrite pretty_N_go_0|].
  rewrite pretty_N_go_step by lia. apply IH; [apply N.div_lt; lia|].
  cbn [all_chars]. rewrite Hs, andb_true_r.
  apply pretty_N_char_digit. by apply N.mod_lt.
Qed.

Lemma pretty_N_digits (x : N) :
  all_chars Js.is_digit (pretty x) = true
  ∧ Js.read_digits (pretty x) None = Some (Z.of_N x)
  ∧ pretty x ≠ "".
Proof.
  unfold pretty, pretty_N. destruct (decide (x = 0)%N) as [->|Hx]; [done|].
  split; [by apply all_chars_pretty_N_go|].
  split; [by rewrite read_digits_pretty_N_go by lia|].
  intros Hnil.
  pose proof (read_digits_pretty_N_go x "" ltac:(lia)) as Hread.
  by rewrite Hnil in Hread.
Qed.

(** [parseInt] reads a string of digits as [read_digits] does. *)
Lemma parseInt_digits (s : string) :
  all_chars Js.is_digit s = true →
  Js.parseInt s = Js.read_digits s None.
Proof.
  destruct s as [|c s]; [done|]. cbn [all_chars].
  intros [Hc _]%andb_prop. unfold Js.parseInt.
  destruct c as [[] [] [] [] [] [] [] []]; done.
Qed.

(** [parseInt(String(n), 10)] is [n]. *)
Lemma parseInt_String_of_Z (n : Z) :
  Js.parseInt (Js.String_of_Z n) = Some n.
Proof.
  unfold Js.String_of_Z, pretty, pretty_Z. destruct n as [|p|p].
  - done.
  - destruct (pretty_N_digits (N.pos p)) as (Hall & Hread & _).
    unfold pretty at 1, pretty_positive.
    by rewrite parseInt_digits, Hread.
  - destruct (pretty_N_digits (N.pos p)) as (Hall & Hread & Hne).
    unfold pretty at 1, pretty_positive.
    change ("-" +:+ pretty (N.pos p)) with (String "-" (pretty (N.pos p))).
    unfold Js.parseInt. cbn [Js.skip_spaces Js.is_space].
    change (Js.is_space "-") with false. cbn iota. by rewrite Hread.
Qed.

(** The rendering of an integer holds digits and the minus sign only. *)
Lemma String_of_Z_chars (n : Z) :
  all_chars (λ c, Js.is_digit c || Ascii.eqb c "-") (Js.String_of_Z n) = true.
Proof.
  assert (Hweaken : ∀ s, all_chars Js.is_digit s = true →
            all_chars (λ c, Js.is_digit c || Ascii.eqb c "-") s = true).
  { induction s as [|c s IH]; [done|]. cbn.
    intros [-> Hs]%andb_prop. by rewrite IH. }
  unfold Js.String_of_Z, pretty, pretty_Z. destruct n as [|p|p].
  - done.
  - apply Hweaken, pretty_N_digits.
  - change ("-" +:+ pretty p) with (String "-" (pretty p)).
    cbn [all_chars]. apply Hweaken, pretty_N_digits.
Qed.

Lemma all_chars_rev_app (p : ascii → bool) (s t : string) :
  all_chars p (String.rev_app s t) = all_chars p s && all_chars p t.
Proof.
  revert t. induction s as [|c s IH]; intros t; [done|].
  cbn. rewrite IH. cbn. by destruct (p c), (all_chars p s).
Qed.

(** A string does not end with a suffix that holds a character the string
    does not hold. *)
Lemma endsWith_other_char (p : ascii → bool) (s suffix : string) :
  all_chars p s = true → all_chars p suffix = false →
  Js.endsWith s suffix = false.
Proof.
  intros Hs Hsuffix. unfold Js.endsWith.
  assert (Hprefix : ∀ a b, String.prefix a b = true →
                           all_chars p b = true → all_chars p a = true).
  { induction a as [|c a IH]; intros [|d b]; cbn; try done.
    destruct (ascii_dec c d) as [->|]; [|done].
    intros Hab [Hd Hb]%andb_prop. rewrite Hd. by apply (IH b). }
  destruct (String.prefix (String.rev suffix) (String.rev s)) eqn:Hpre; [|done].
  apply Hprefix in Hpre.
  - unfold String.rev in Hpre. rewrite all_chars_rev_app, Hsuffix in Hpre.
    done.
  - unfold String.rev. by rewrite all_chars_rev_app, Hs.
Qed.

End Decimal.

Example parseInt_404 : Js.parseInt "404" = Some 404%Z.
Proof. reflexivity. Qed.
Example parseInt_junk : Js.parseInt "2xy" = Some 2%Z ∧ Js.parseInt "abc" = None.
Proof. split; reflexivity. Qed.
Example endsWith_xx : Js.endsWith "2xx" "xx" = true ∧ Js.endsWith "x" "xx" = false.
Proof. split; reflexivity. Qed.
Example slice_one_slash : Js.slice_1_m1 "/" = "" ∧ Js.slice_1_m1 "/a.c/" = "a.c".
Proof. split; reflexivity. Qed.
Example slice_last_2 : Js.slice_last 2 [1; 2; 3] = [2; 3] ∧ Js.slice_last 5 [1; 2; 3] = [1; 2; 3].
Proof. split; reflexivity. Qed.

(** ** The network storage module *)

Module NetworkStore.

Local Open Scope Z_scope.

(** *** Configuration *)

Definition DEFAULT_TTL : Z := 24 * 60 * 60 * 1000.
Definition DEFAULT_MAX_SIZE : Z := 200 * 1024 * 1024.
Definition AUTO_CLEANUP_INTERVAL : Z := 60 * 60 * 1000.

(** *** Data model *)

(** The properties of a network entry that the module reads, besides [id]
    and [timestamp].  A property that may be missing is an [option]. *)
Record request_info := mkInfo {
  url : string;
  method : string;
  status : Z;
  contentType : option string;
  responseHeaders : gmap string string;
  requestBodyHash : option string;
  responseBodyHash : option string
}.

(** An entry as it stands on a line of [requests.jsonl]. *)
Record entry := mkEntry {
  id : string;
  timestamp : Z;
  info : request_info
}.

Coercion info : entry >-> request_info.

(** The argument of [appendEntry] and [appendEntrySync]: [id] and
    [timestamp] may be missing. *)
Record entry_arg := mkArg {
  arg_id : option string;
  arg_timestamp : option Z;
  arg_info : request_info
}.

(** [requests.jsonl] is kept as the list of its lines.  A line is known by
    its length in bytes (the line feed included) and by what the reader
    makes of it: skipped because [line.trim()] is empty, skipped because
    [JSON.parse] throws, or parsed into an entry. *)
Inductive line :=
| Blank (bytes : Z)
| Malformed (bytes : Z)
| Parsed (e : entry) (bytes : Z).

Definition line_bytes (l : line) : Z :=
  match l with
  | Blank n | Malformed n | Parsed _ n => n
  end.

(** The [status] filter is a number or a string. *)
Inductive status_filter :=
| StatusNumber (n : Z)
| StatusString (s : string).

(** The filter object of [readEntries] and [readEntriesSync]; [None] is a
    property that is [undefined]. *)
Module Filters.
Record t := mk {
  origin : option string;
  method : option string;
  status : option status_filter;
  type : option string;
  since : option Z;
  hasBody : option bool;
  excludeStatic : bool;
  urlPattern : option string;
  last : option Z
}.
(** [{}] *)
Definition empty : t := mk None None None None None None false None None.
End Filters.

(** The options of [cleanup]. *)
Record cleanup_options := mkOptions {
  ttl : option Z;
  maxSize : option Z
}.

(** What [cleanup] returns; [remainingEntries] is missing from the early
    return. *)
Record cleanup_result := mkResult {
  deletedEntries : Z;
  deletedBodies : Z;
  freedBytes : Z;
  remainingEntries : option Z
}.

(** The options of [clear] and what it returns. *)
Module Clear.
Record options := mkOptions {
  before : option Z;
  origin : option string
}.
Record result := mkResult {
  deletedEntries : Z;
  deletedBodies : Z
}.
End Clear.

(** What [getStats] and [getStatsSync] return; [None] is [null]. *)
Record stats := mkStats {
  totalRequests : Z;
  totalBodySize : Z;
  oldestEntry : option Z;
  newestEntry : option Z;
  lastCleanup : option Z;
  origins : gmap string Z
}.

(** What [fs.statSync(f).size] is for the content of a file. *)
Class ByteSize (C : Type) := byte_size : C → Z.

Definition Buffer := list byte.

#[export] Instance Buffer_size : ByteSize Buffer := λ b, Z.of_nat (length b).

(** A body file of which only the size is known: [cleanup] stats and
    unlinks body files and never reads them. *)
#[export] Instance stat_size : ByteSize Z := λ n, n.

(** The base directory: [requests.jsonl], the [bodies] directory (file name
    to content), [.meta] (its [lastCleanup]) and [.lock] (its [mtimeMs]).
    [None] is a file or directory that does not exist. *)
Record store (C : Type) := mkStore {
  requests : option (list line);
  bodies : option (gmap string C);
  meta : option Z;
  lock : option Z
}.
Arguments mkStore {C}.
Arguments requests {C}.
Arguments bodies {C}.
Arguments meta {C}.
Arguments lock {C}.

Section FileSystem.
Context {C : Type}.

Definition set_requests (r : option (list line)) (st : store C) : store C :=
  mkStore r (bodies st) (meta st) (lock st).
Definition set_bodies (b : option (gmap string C)) (st : store C) : store C :=
  mkStore (requests st) b (meta st) (lock st).
Definition set_meta (m : option Z) (st : store C) : store C :=
  mkStore (requests st) (bodies st) m (lock st).
Definition set_lock (l : option Z) (st : store C) : store C :=
  mkStore (requests st) (bodies st) (meta st) l.

(** The files of the [bodies] directory, none when it does not exist. *)
Definition body_files (st : store C) : gmap string C := default ∅ (bodies st).

(** [ensureDirectories]: the base directory holds only what the record
    holds, so creating it shows in [bodies] alone. *)
Definition ensureDirectories (st : store C) : store C :=
  match bodies st with
  | Some _ => st
  | None => set_bodies (Some ∅) st
  end.

(** [writeMeta({ lastCleanup })] *)
Definition writeMeta (lastCleanup : Z) (st : store C) : store C :=
  set_meta (Some lastCleanup) (ensureDirectories st).

(** [fs.appendFileSync(getRequestsPath(), line, { flag: "a" })] *)
Definition appendFileSync (l : line) (st : store C) : store C :=
  set_requests (Some (default [] (requests st) ++ [l])) st.

Inductive fs_error := EEXIST | ENOENT.

(** A sequence of calls on the files: it returns a result or throws, and in
    both cases the files are as the calls made so far have left them. *)
Definition io (A : Type) : Type := store C → (fs_error + A) * store C.

Definition ret {A} (a : A) : io A := λ st, (inr a, st).
Definition bind {A B} (f : A → io B) (m : io A) : io B :=
  λ st, match m st with
        | (inr a, st) => f a st
        | (inl e, st) => (inl e, st)
        end.

(** A call that does not throw on these files: a directory can always be
    made and the log can always be appended to. *)
Definition files (f : store C → store C) : io unit := λ st, (inr tt, f st).

(** [try { m } catch (e) { handler }] *)
Definition try_catch {A} (m handler : io A) : io A :=
  λ st, match m st with
        | (inl _, st) => handler st
        | (inr a, st) => (inr a, st)
        end.

(** [try { m } finally { final }]: [final] runs whether [m] returns or
    throws, and what [final] throws takes the place of the outcome of [m]. *)
Definition try_finally {A} (m : io A) (final : io unit) : io A :=
  λ st, let '(outcome, st) := m st in
        match final st with
        | (inr _, st) => (outcome, st)
        | (inl e, st) => (inl e, st)
        end.

(** [fs.openSync(lockPath, "wx")]: throws when the file exists.  The
    descriptor is [tt]. *)
Definition openSync_wx (now : Z) : io unit :=
  λ st, match lock st with
        | Some _ => (inl EEXIST, st)
        | None => (inr tt, set_lock (Some now) st)
        end.

(** [fs.statSync(lockPath).mtimeMs] *)
Definition statSync_mtimeMs : io Z :=
  λ st, match lock st with
        | Some mtime => (inr mtime, st)
        | None => (inl ENOENT, st)
        end.

(** [fs.unlinkSync(lockPath)] *)
Definition unlinkSync_lock : io unit :=
  λ st, match lock st with
        | Some _ => (inr tt, set_lock None st)
        | None => (inl ENOENT, st)
        end.

(** [fs.closeSync(lockFd)] *)
Definition closeSync (lockFd : unit) : io unit := ret tt.

End FileSystem.

#[local] Instance io_ret {C} : MRet (io (C := C)) := @ret C.
#[local] Instance io_bind {C} : MBind (io (C := C)) := @bind C.

(** *** storeBody *)

Inductive body_content :=
| BufferContent (b : Buffer)
| StringContent (s : string).

(** [Buffer.isBuffer(content) ? content : Buffer.from(content)] *)
Definition to_buffer (content : body_content) : Buffer :=
  match content with
  | BufferContent b => b
  | StringContent s => list_byte_of_string s
  end.

Section Runtime.

(** The content of body files, known at least by its size. *)
Context {C : Type} `{ByteSize C}.

(** [crypto.createHash("sha256").update(buffer).digest("hex")] *)
Variable sha256_hex : Buffer → string.

(** The length in bytes of [JSON.stringify(e)]. *)
Variable JSON_length : entry → Z.

(** [new URL(url).origin]; [None] when the constructor throws. *)
Variable URL_origin : string → option string.

(** [new RegExp(source).test(s)]; [None] when the constructor throws. *)
Variable RegExp_test : string → string → option bool.

Definition body_name (hash : string) (isRequest : bool) : string :=
  hash +:+ "." +:+ (if isRequest then "req" else "res").

Definition storeBody (content : body_content) (isRequest : bool)
    (st : store Buffer) : string * store Buffer :=
  let st := ensureDirectories st in
  let buffer := to_buffer content in
  let hash := String.substring 0 16 (sha256_hex buffer) in
  let bodyPath := body_name hash isRequest in
  (* Only write if doesn't exist (dedup) *)
  let st :=
    match body_files st !! bodyPath with
    | None => set_bodies (Some (<[bodyPath := buffer]> (body_files st))) st
    | Some _ => st
    end in
  (hash, st).

(** [readBody] *)
Definition readBody (hash : string) (isRequest : bool) (st : store Buffer)
    : option Buffer :=
  body_files st !! body_name hash isRequest.

(** *** appendEntrySync *)

(** [generateId]: the clock reading and the hex of four random bytes. *)
Definition generateId (now : Z) (random_hex : string) : string :=
  Js.String_of_Z now +:+ "-" +:+ random_hex.

(** [{ id, timestamp, ...entry }]: [id] and [timestamp] are computed with
    [||] first, then the spread writes the properties [entry] has over them. *)
Definition fullEntry (now : Z) (random_hex : string) (e : entry_arg) : entry :=
  let id0 :=
    if Js.truthy_str (arg_id e) then default "" (arg_id e)
    else generateId now random_hex in
  let timestamp0 :=
    match arg_timestamp e with
    | Some t => if t =? 0 then now else t
    | None => now
    end in
  mkEntry (default id0 (arg_id e)) (default timestamp0 (arg_timestamp e))
    (arg_info e).

(** [JSON.stringify(fullEntry) + "\n"] *)
Definition entry_line (e : entry) : line := Parsed e (JSON_length e + 1).

(** What the other processes that share the base directory do to [.lock]
    before the [k]-th call on it that follows the first [openSync]: they
    may create it, touch it or remove it. *)
Definition meanwhile (others : nat → option Z → option Z) (k : nat)
    : io (C := C) unit :=
  λ st, (inr tt, set_lock (others k (lock st)) st).


(** The first [try] of [appendEntrySync]: [lockFd] afterwards, [None] when
    it is still [undefined].  The clock readings of one call are taken as
    the one instant [now]. *)
Definition acquire_lock (others : nat → option Z → option Z) (now : Z)
    : io (C := C) (option unit) :=
  try_catch
    ((* Try to acquire lock *)
     lockFd ← openSync_wx now; mret (Some lockFd))
    ((* Lock exists - check if stale and remove, otherwise proceed without
        lock *)
     try_catch
       (meanwhile others 1;;
        mtimeMs ← statSync_mtimeMs;
        if 5000 <? now - mtimeMs then
          meanwhile others 2;;
          unlinkSync_lock;;
          meanwhile others 3;;
          try_catch
            (lockFd ← openSync_wx now; mret (Some lockFd))
            ((* Still can't get lock, proceed without it *)
             mret None)
        else mret None)
       ((* Lock file gone or inaccessible, proceed without lock *)
        mret None)).

Definition appendEntrySync (others : nat → option Z → option Z) (now : Z)
    (random_hex : string) (e : entry_arg) : io (C := C) entry :=
  files ensureDirectories;;
  let full := fullEntry now random_hex e in
  let l := entry_line full in
  lockFd ← acquire_lock others now;
  match lockFd with
  | None =>
      (* Proceed without lock as fallback *)
      files (appendFileSync l);;
      mret full
  | Some lockFd =>
      try_finally
        (files (appendFileSync l))
        (meanwhile others 4;;
         closeSync lockFd;;
         try_catch unlinkSync_lock (mret tt));;
      mret full
  end.

(** *** Queries *)

Definition regex_specials : list ascii :=
  ["."; "+"; "^"; "$"; "{"; "}"; "("; ")"; "|"; "["; "]"; "\"]%char.

(** [pattern.replace(/[.+^${}()|[\]\\]/g, "\\$&")] *)
Fixpoint escape_specials (s : string) : string :=
  match s with
  | EmptyString => EmptyString
  | String c rest =>
      if bool_decide (c ∈ regex_specials)
      then String "\" (String c (escape_specials rest))
      else String c (escape_specials rest)
  end.

(** [.replace(/\*/g, ".*")] *)
Fixpoint replace_stars (s : string) : string :=
  match s with
  | EmptyString => EmptyString
  | String c rest =>
      if Ascii.eqb c "*" then String "." (String "*" (replace_stars rest))
      else String c (replace_stars rest)
  end.

(** [None] is a [SyntaxError] thrown by [new RegExp] in the glob branch;
    the regex branch catches it and returns [false]. *)
Definition matchesUrlPattern (url : string) (pattern : option string)
    : option bool :=
  if negb (Js.truthy_str pattern) then Some true
  else
    let pattern := default "" pattern in
    (* Support regex patterns *)
    if Js.startsWith pattern "/" && Js.endsWith pattern "/" then
      Some (default false (RegExp_test (Js.slice_1_m1 pattern) url))
    (* Simple glob-like matching *)
    else if Js.includes pattern "*" then
      RegExp_test (replace_stars (escape_specials pattern)) url
    (* Simple substring match *)
    else Some (Js.includes url pattern).

Definition staticExts : list string :=
  [".css"; ".js"; ".png"; ".jpg"; ".jpeg"; ".gif"; ".svg"; ".woff";
   ".woff2"; ".ttf"; ".ico"].

(** The [status] filter lets an entry through. *)
Definition status_passes (entry_status : Z) (status : option status_filter)
    : bool :=
  match status with
  | None => true
  | Some (StatusNumber n) => entry_status =? n
  | Some (StatusString s) =>
      let statusStr := Js.String_of_Z entry_status in
      if Js.endsWith s "xx" then
        (* Range like "2xx", "4xx" *)
        Js.startsWith statusStr (String.substring 0 1 s)
      else
        match Js.parseInt s with
        | Some n => entry_status =? n
        | None => false
        end
  end.

(** [entry.contentType || entry.responseHeaders?.["content-type"] || ""] *)
Definition entry_contentType (e : request_info) : string :=
  if Js.truthy_str (contentType e) then default "" (contentType e)
  else if Js.truthy_str (responseHeaders e !! "content-type")
  then default "" (responseHeaders e !! "content-type")
  else "".

(** [!!entry.responseBodyHash] *)
Definition hasResponseBody (e : request_info) : bool :=
  Js.truthy_str (responseBodyHash e).

(** [entry.url.split("?")[0].toLowerCase()] ends with a static extension. *)
Definition is_static (e : request_info) : bool :=
  let urlPath := Js.toLowerCase (Js.before_first "?" (url e)) in
  existsb (λ ext, Js.endsWith urlPath ext) staticExts.

(** [None] is an exception thrown out of [matchesFilters] (by the glob
    branch of [matchesUrlPattern]). *)
Definition matchesFilters (e : entry) (filters : option Filters.t)
    : option bool :=
  match filters with
  | None => Some true
  | Some f =>
      (* Filter by origin *)
      if Js.truthy_str (Filters.origin f)
         && negb (bool_decide (URL_origin (url e) = Filters.origin f))
      then Some false
      (* Filter by method *)
      else if Js.truthy_str (Filters.method f)
         && negb (String.eqb (method e)
                    (Js.toUpperCase (default "" (Filters.method f))))
      then Some false
      (* Filter by status *)
      else if negb (status_passes (status e) (Filters.status f))
      then Some false
      (* Filter by content type *)
      else if Js.truthy_str (Filters.type f)
         && negb (Js.includes (entry_contentType e)
                    (default "" (Filters.type f)))
      then Some false
      (* Filter by timestamp *)
      else if match Filters.since f with
              | Some since => negb (since =? 0) && (timestamp e <? since)
              | None => false
              end
      then Some false
      (* Filter by body presence *)
      else if match Filters.hasBody f with
              | Some hasBody => negb (Bool.eqb hasBody (hasResponseBody e))
              | None => false
              end
      then Some false
      (* Exclude static assets *)
      else if Filters.excludeStatic f && is_static e
      then Some false
      (* URL pattern matching *)
      else if Js.truthy_str (Filters.urlPattern f) then
        matchesUrlPattern (url e) (Filters.urlPattern f)
      else Some true
  end.

Arguments matchesUrlPattern : simpl never.
Arguments matchesFilters : simpl never.

(** The lines the reader keeps: a blank line is skipped, a line on which
    [JSON.parse] or [matchesFilters] throws is skipped, and so is a line
    whose entry the filters reject. *)
Definition read_line (filters : Filters.t) (l : line) : option entry :=
  match l with
  | Blank _ | Malformed _ => None
  | Parsed e _ =>
      match matchesFilters e (Some filters) with
      | Some true => Some e
      | _ => None
      end
  end.

Definition readEntriesSync (filters : Filters.t) (st : store C)
    : list entry :=
  match requests st with
  | None => []
  | Some lines =>
      let entries := omap (read_line filters) lines in
      match Filters.last filters with
      | Some last =>
          if (negb (last =? 0)) && (0 <? last)
          then Js.slice_last last entries
          else entries
      | None => entries
      end
  end.

(** *** Cleanup *)

(** [entries.sort((a, b) => a.timestamp - b.timestamp)]: the sort of the
    runtime is stable, so it is the stable insertion sort. *)
Fixpoint insert_by_timestamp (e : entry) (l : list entry) : list entry :=
  match l with
  | [] => [e]
  | x :: rest =>
      if timestamp e <=? timestamp x then e :: l
      else x :: insert_by_timestamp e rest
  end.

Definition sort_by_timestamp (l : list entry) : list entry :=
  foldr insert_by_timestamp [] l.

(** The loop that removes the oldest entries:
    [while (entries.length > 0 && totalSize > maxSize)
       { entries.shift();
         totalSize = totalSize * (entries.length / (entries.length + 1)); }]
    It returns the entries left and the last value of [totalSize]. *)
Fixpoint evict (maxSize : float) (entries : list entry) (totalSize : float)
    : list entry * float :=
  match entries with
  | [] => ([], totalSize)
  | _ :: rest =>
      if PrimFloat.ltb maxSize totalSize then
        let n := Z.of_nat (length rest) in
        evict maxSize rest
          (PrimFloat.mul totalSize
             (PrimFloat.div (Double.of_Z n) (Double.of_Z (n + 1))))
      else (entries, totalSize)
  end.

(** The names of the body files an entry refers to. *)
Definition entry_refs (e : entry) : list string :=
  (if Js.truthy_str (requestBodyHash e)
   then [default "" (requestBodyHash e) +:+ ".req"] else [])
  ++ (if Js.truthy_str (responseBodyHash e)
      then [default "" (responseBodyHash e) +:+ ".res"] else []).

Definition referencedHashes (entries : list entry) : gset string :=
  list_to_set (entries ≫= entry_refs).

(** The size of [requests.jsonl] and the sum of the sizes of the body
    files. *)
Definition requests_size (st : store C) : Z :=
  foldr (λ l acc, line_bytes l + acc) 0 (default [] (requests st)).

Definition files_size (files : gmap string C) : Z :=
  map_fold (λ _ c acc, byte_size c + acc) 0 files.

Definition disk_size (st : store C) : Z :=
  requests_size st + files_size (body_files st).

(** The entries [cleanup] keeps and the last value of its [totalSize], for
    a log that exists. *)
Definition cleanup_keep (ttl maxSize now : Z) (st : store C)
    : list entry * float :=
  let cutoffTime := now - ttl in
  let entries := readEntriesSync Filters.empty st in
  (* 1. Delete entries older than TTL *)
  let entries := base.filter (λ e, cutoffTime ≤ timestamp e) entries in
  (* 2. If still over maxSize, calculate total size and remove oldest *)
  let totalSize := Double.of_Z (disk_size st) in
  if PrimFloat.ltb (Double.of_Z maxSize) totalSize
     && negb (bool_decide (entries = []))
  then evict (Double.of_Z maxSize) (sort_by_timestamp entries) totalSize
  else (entries, totalSize).

Definition cleanup (options : cleanup_options) (now : Z) (st : store C)
    : cleanup_result * store C :=
  let ttl := default DEFAULT_TTL (ttl options) in
  let maxSize := default DEFAULT_MAX_SIZE (maxSize options) in
  match requests st with
  | None => (mkResult 0 0 0 None, writeMeta now st)
  | Some _ =>
      let originalCount := length (readEntriesSync Filters.empty st) in
      let entries := fst (cleanup_keep ttl maxSize now st) in
      (* 3. Collect referenced body hashes *)
      let referenced := referencedHashes entries in
      (* 4. Delete orphaned body files *)
      let orphans := base.filter (λ f, f.1 ∉ referenced) (body_files st) in
      let st1 :=
        match bodies st with
        | Some files =>
            set_bodies (Some (base.filter (λ f, f.1 ∈ referenced) files)) st
        | None => st
        end in
      (* 5. Rewrite entries file with remaining entries *)
      let deleted := Z.of_nat originalCount - Z.of_nat (length entries) in
      let st2 :=
        if (0 <? deleted) || bool_decide (entries = [])
        then set_requests (Some (entry_line <$> entries)) st1
        else st1 in
      (* 6. Update meta *)
      (mkResult deleted (Z.of_nat (size orphans)) (files_size orphans)
         (Some (Z.of_nat (length entries))),
       writeMeta now st2)
  end.

(** *** Meta, single entries and aggregations *)

(** [readMeta().lastCleanup]: [.meta] is written by [writeMeta] alone; a
    file that is missing or does not parse reads as [{ lastCleanup: 0 }]. *)
Definition readMeta (st : store C) : Z := default 0 (meta st).

(** [appendEntry]: the promise chain [writeLock] makes the appends of one
    process run one after the other, which is what passing the store
    does; no lock file is taken. *)
Definition appendEntry (now : Z) (random_hex : string) (e : entry_arg)
    (st : store C) : entry * store C :=
  let st := ensureDirectories st in
  let full := fullEntry now random_hex e in
  (full, appendFileSync (entry_line full) st).

Definition getOriginFromUrl (url : string) : option string := URL_origin url.

(** [entries.find(e => e.id === id) || null] *)
Definition getEntrySync (id : string) (st : store C) : option entry :=
  List.find (λ e, String.eqb (NetworkStore.id e) id)
    (readEntriesSync Filters.empty st).

(** [if (origin) { origins[origin] = (origins[origin] || 0) + 1; }]; no
    origin is the name of a property of [Object.prototype]. *)
Definition count_origin (origins : gmap string Z) (e : entry)
    : gmap string Z :=
  let origin := getOriginFromUrl (url e) in
  if Js.truthy_str origin then
    <[default "" origin := default 0 (origins !! default "" origin) + 1]>
      origins
  else origins.

Definition getOriginsSync (st : store C) : gmap string Z :=
  foldl count_origin ∅ (readEntriesSync Filters.empty st).

(** One turn of the loop of [getStatsSync]; the [oldestEntry] of the loop
    starts at [Infinity], which is [None]. *)
Definition stats_step (acc : gmap string Z * option Z * Z) (e : entry)
    : gmap string Z * option Z * Z :=
  let '(origins, oldestEntry, newestEntry) := acc in
  (count_origin origins e,
   match oldestEntry with
   | Some oldest =>
       if timestamp e <? oldest then Some (timestamp e) else oldestEntry
   | None => Some (timestamp e)
   end,
   if newestEntry <? timestamp e then timestamp e else newestEntry).

Definition getStatsSync (st : store C) : stats :=
  let entries := readEntriesSync Filters.empty st in
  let meta := readMeta st in
  let '(origins, oldestEntry, newestEntry) :=
    foldl stats_step (∅, None, 0) entries in
  (* Calculate body size *)
  let totalBodySize := files_size (body_files st) in
  mkStats (Z.of_nat (length entries)) totalBodySize oldestEntry
    (if newestEntry =? 0 then None else Some newestEntry)
    (if meta =? 0 then None else Some meta)
    origins.

(** *** Clear *)

(** The callback of [entries.filter] in [clear]: keep if doesn't match
    clear criteria. *)
Definition clear_keeps (options : Clear.options) (e : entry) : bool :=
  if match Clear.before options with
     | Some before => negb (before =? 0) && (before <=? timestamp e)
     | None => false
     end
  then true
  else if Js.truthy_str (Clear.origin options)
          && negb (bool_decide
                     (getOriginFromUrl (url e) = Clear.origin options))
  then true
  else false.

Definition clear (options : Clear.options) (st : store C)
    : Clear.result * store C :=
  let before_given :=
    match Clear.before options with
    | Some before => negb (before =? 0)
    | None => false
    end in
  if negb before_given && negb (Js.truthy_str (Clear.origin options)) then
    (* If no options, clear everything *)
    let deletedEntries :=
      match requests st with
      | Some _ => Z.of_nat (length (readEntriesSync Filters.empty st))
      | None => 0
      end in
    let deletedBodies := Z.of_nat (size (body_files st)) in
    (Clear.mkResult deletedEntries deletedBodies,
     mkStore None ((λ _, ∅) <$> bodies st) (meta st) (lock st))
  else
    (* Selective clear *)
    match requests st with
    | None => (Clear.mkResult 0 0, st)
    | Some _ =>
        let entries := readEntriesSync Filters.empty st in
        let originalCount := length entries in
        let remaining :=
          base.filter (λ e, clear_keeps options e = true) entries in
        let deletedEntries :=
          Z.of_nat originalCount - Z.of_nat (length remaining) in
        (* Collect hashes to keep *)
        let keepHashes := referencedHashes remaining in
        (* Delete orphaned bodies *)
        let orphans := base.filter (λ f, f.1 ∉ keepHashes) (body_files st) in
        let st1 :=
          match bodies st with
          | Some files =>
              set_bodies (Some (base.filter (λ f, f.1 ∈ keepHashes) files)) st
          | None => st
          end in
        (* Rewrite entries file *)
        let st2 :=
          if 0 <? deletedEntries
          then set_requests (Some (entry_line <$> remaining)) st1
          else st1 in
        (Clear.mkResult deletedEntries (Z.of_nat (size orphans)), st2)
    end.

(** *** Automatic cleanup *)

(** [maybeAutoCleanup]: [now] is the clock when the check is made; the
    clean-up is run by [setImmediate], when the clock reads [later]. *)
Definition maybeAutoCleanup (now later : Z) (st : store C) : store C :=
  if AUTO_CLEANUP_INTERVAL <? now - readMeta st
  then (cleanup (mkOptions None None) later st).2
  else st.

(** *** The filters as a specification *)

(** The entries of the parsed lines of the log, in the order of the file. *)
Definition parsed_entries (st : store C) : list entry :=
  omap (λ l, match l with Parsed e _ => Some e | _ => None end)
    (default [] (requests st)).

(** The URL matches the pattern: a regular expression when the pattern is
    wrapped in slashes, a glob when it contains [*], a substring otherwise. *)
Definition url_matches (url pattern : string) : Prop :=
  if Js.startsWith pattern "/" && Js.endsWith pattern "/" then
    RegExp_test (Js.slice_1_m1 pattern) url = Some true
  else if Js.includes pattern "*" then
    RegExp_test (replace_stars (escape_specials pattern)) url = Some true
  else Js.includes url pattern = true.

(** An entry satisfies every filter given.  A string filter, [since] and
    [excludeStatic] are given when they are truthy, [status] and [hasBody]
    when they are not [undefined].  The reading of the [status] filter and
    of a static URL are left open here. *)
Definition satisfies (status_ok : Z → status_filter → Prop)
    (static_url : string → Prop) (e : entry) (f : Filters.t) : Prop :=
  (∀ origin, Filters.origin f = Some origin → origin ≠ "" →
     URL_origin (url e) = Some origin)
  ∧ (∀ m, Filters.method f = Some m → m ≠ "" →
       method e = Js.toUpperCase m)
  ∧ (∀ s, Filters.status f = Some s → status_ok (status e) s)
  ∧ (∀ t, Filters.type f = Some t → t ≠ "" →
       Js.includes (entry_contentType e) t = true)
  ∧ (∀ since, Filters.since f = Some since → since ≠ 0 →
       since ≤ timestamp e)
  ∧ (∀ b, Filters.hasBody f = Some b → hasResponseBody e = b)
  ∧ (Filters.excludeStatic f = true → ¬ static_url (url e))
  ∧ (∀ p, Filters.urlPattern f = Some p → p ≠ "" → url_matches (url e) p).

(** The two readings of the specification's words: the status is the exact
    integer or falls in the class [Nxx] of a digit [N], and the URL ends in
    a static asset extension. *)
Definition status_in_class (entry_status : Z) (s : status_filter) : Prop :=
  match s with
  | StatusNumber n => entry_status = n
  | StatusString str =>
      if Js.endsWith str "xx" then
        ∃ d, str = String d "xx" ∧ Js.is_digit d = true
             ∧ 100 * Js.digit_value d ≤ entry_status
               < 100 * Js.digit_value d + 100
      else Js.parseInt str = Some entry_status
  end.

Definition ends_in_static_ext (url : string) : Prop :=
  ∃ ext, ext ∈ staticExts ∧ Js.endsWith url ext = true.

Definition satisfies_as_specified : entry → Filters.t → Prop :=
  satisfies status_in_class ends_in_static_ext.

(** The two readings of the code: the decimal rendering of the status
    starts with the first character of a filter that ends in [xx], and the
    URL cut at its first [?] and lower-cased ends in a static asset
    extension. *)
Definition status_starts_with (entry_status : Z) (s : status_filter) : Prop :=
  match s with
  | StatusNumber n => entry_status = n
  | StatusString str =>
      if Js.endsWith str "xx" then
        Js.startsWith (Js.String_of_Z entry_status) (String.substring 0 1 str)
        = true
      else Js.parseInt str = Some entry_status
  end.

Definition path_ends_in_static_ext (url : string) : Prop :=
  ∃ ext, ext ∈ staticExts
         ∧ Js.endsWith (Js.toLowerCase (Js.before_first "?" url)) ext = true.

Definition satisfies_filters : entry → Filters.t → Prop :=
  satisfies status_starts_with path_ends_in_static_ext.

(** The filters without the tail count, and the tail count alone. *)
Definition without_last (f : Filters.t) : Filters.t :=
  Filters.mk (Filters.origin f) (Filters.method f) (Filters.status f)
    (Filters.type f) (Filters.since f) (Filters.hasBody f)
    (Filters.excludeStatic f) (Filters.urlPattern f) None.

Definition tail_count {A} (last : option Z) (l : list A) : list A :=
  match last with
  | Some n => if 0 <? n then Js.slice_last n l else l
  | None => l
  end.

(** [totalSize > maxSize] as [cleanup] evaluates it before it removes
    anything. *)
Definition over_cap (maxSize : Z) (st : store C) : bool :=
  PrimFloat.ltb (Double.of_Z maxSize) (Double.of_Z (disk_size st)).

(** The file [name] of the [bodies] directory is the one a hash of [e]
    refers to. *)
Definition refers_to (e : entry) (name : string) : Prop :=
  (∃ h, requestBodyHash e = Some h ∧ h ≠ "" ∧ name = h +:+ ".req")
  ∨ (∃ h, responseBodyHash e = Some h ∧ h ≠ "" ∧ name = h +:+ ".res").

(** *** Properties of the body store *)

Lemma body_files_ensure {D} (st : store D) :
  body_files (ensureDirectories st) = body_files st.
Proof. by destruct st as [r [b|] m l]. Qed.


Lemma bodies_ensure {D} (st : store D) :
  bodies (ensureDirectories st) = Some (body_files st).
Proof. by destruct st as [r [b|] m l]. Qed.

Lemma lock_ensure {D} (st : store D) : lock (ensureDirectories st) = lock st.
Proof. by destruct st as [r [b|] m l]. Qed.

Lemma requests_ensure {D} (st : store D) :
  requests (ensureDirectories st) = requests st.
Proof. by destruct st as [r [b|] m l]. Qed.

Lemma meta_ensure {D} (st : store D) : meta (ensureDirectories st) = meta st.
Proof. by destruct st as [r [b|] m l]. Qed.


(** What [storeBody] leaves in the [bodies] directory. *)
Lemma storeBody_files content isRequest (st : store Buffer) :
  let name := body_name (storeBody content isRequest st).1 isRequest in
  body_files (storeBody content isRequest st).2
  = match body_files st !! name with
    | Some _ => body_files st
    | None => <[name := to_buffer content]> (body_files st)
    end.
Proof.
  cbv zeta. unfold storeBody. cbn [fst snd].
  rewrite body_files_ensure.
  destruct (body_files st !! _); [apply body_files_ensure|done].
Qed.



(** *** Properties of the queries *)

Lemma truthy_str_true (o : option string) :
  Js.truthy_str o = true ↔ ∃ s, o = Some s ∧ s ≠ "".
Proof.
  destruct o as [s|]; cbn.
  - rewrite negb_true_iff. destruct (String.eqb_spec s ""); split.
    + done.
    + intros (s' & [= <-] & Hne). done.
    + intros _. by exists s.
    + done.
  - split; [done|]. by intros (s & ? & _).
Qed.

Lemma truthy_str_false (o : option string) :
  Js.truthy_str o = false ↔ ∀ s, o = Some s → s = "".
Proof.
  destruct o as [s|]; cbn.
  - rewrite negb_false_iff. destruct (String.eqb_spec s ""); split; try done.
    + by intros _ s' [= <-].
    + intros Hs. by destruct n; apply Hs.
  - split; done.
Qed.

Lemma matchesUrlPattern_spec (u p : string) :
  p ≠ "" → matchesUrlPattern u (Some p) = Some true ↔ url_matches u p.
Proof.
  intros Hp. unfold matchesUrlPattern, url_matches.
  assert (Js.truthy_str (Some p) = true) as ->.
  { apply truthy_str_true. by exists p. }
  cbv zeta. change (default "" (Some p)) with p. cbn [negb].
  destruct (Js.startsWith p "/" && Js.endsWith p "/").
  - destruct (RegExp_test _ u) as [[]|]; cbn; split; congruence.
  - destruct (Js.includes p "*"); [done|]. split; congruence.
Qed.

Lemma is_static_spec (e : request_info) :
  is_static e = true ↔ path_ends_in_static_ext (url e).
Proof.
  unfold is_static, path_ends_in_static_ext. rewrite existsb_exists.
  split; intros (ext & Hin & Hext); exists ext; split; try done;
    by apply list_elem_of_In.
Qed.

Lemma status_passes_spec (n : Z) (s : status_filter) :
  status_passes n (Some s) = true ↔ status_starts_with n s.
Proof.
  destruct s as [m|str]; cbn.
  - apply Z.eqb_eq.
  - destruct (Js.endsWith str "xx"); [done|].
    destruct (Js.parseInt str) as [m|]; [|split; done].
    rewrite Z.eqb_eq. split; congruence.
Qed.

(** The guards of [matchesFilters], one per filter. *)
Lemma origin_guard_spec (e : entry) (origin : option string) :
  Js.truthy_str origin && negb (bool_decide (URL_origin (url e) = origin))
  = false
  ↔ ∀ o, origin = Some o → o ≠ "" → URL_origin (url e) = Some o.
Proof.
  destruct (Js.truthy_str origin) eqn:Ho; cbn [andb].
  - apply truthy_str_true in Ho as (o & -> & Ho).
    rewrite negb_false_iff, bool_decide_eq_true.
    split; [by intros ? o' [= <-]|]. intros Hc. by apply Hc.
  - split; [|done]. intros _ o -> Hne.
    rewrite truthy_str_false in Ho. destruct Hne. by apply Ho.
Qed.

Lemma method_guard_spec (e : entry) (meth : option string) :
  Js.truthy_str meth
  && negb (String.eqb (method e) (Js.toUpperCase (default "" meth))) = false
  ↔ ∀ m, meth = Some m → m ≠ "" → method e = Js.toUpperCase m.
Proof.
  destruct (Js.truthy_str meth) eqn:Hm; cbn [andb].
  - apply truthy_str_true in Hm as (m & -> & Hm).
    rewrite negb_false_iff, String.eqb_eq. cbn [default].
    split; [by intros ? m' [= <-]|]. intros Hc. by apply Hc.
  - split; [|done]. intros _ m -> Hne.
    rewrite truthy_str_false in Hm. destruct Hne. by apply Hm.
Qed.

Lemma status_guard_spec (e : entry) (stat : option status_filter) :
  negb (status_passes (status e) stat) = false
  ↔ ∀ s, stat = Some s → status_starts_with (status e) s.
Proof.
  rewrite negb_false_iff. destruct stat as [s|].
  - rewrite status_passes_spec. split; [by intros ? s' [= <-]|].
    intros Hc. by apply Hc.
  - split; done.
Qed.

Lemma type_guard_spec (e : entry) (type : option string) :
  Js.truthy_str type
  && negb (Js.includes (entry_contentType e) (default "" type)) = false
  ↔ ∀ t, type = Some t → t ≠ "" → Js.includes (entry_contentType e) t = true.
Proof.
  destruct (Js.truthy_str type) eqn:Ht; cbn [andb].
  - apply truthy_str_true in Ht as (t & -> & Ht).
    rewrite negb_false_iff. cbn [default].
    split; [by intros ? t' [= <-]|]. intros Hc. by apply Hc.
  - split; [|done]. intros _ t -> Hne.
    rewrite truthy_str_false in Ht. destruct Hne. by apply Ht.
Qed.

Lemma since_guard_spec (e : entry) (since : option Z) :
  match since with
  | Some since => negb (since =? 0) && (timestamp e <? since)
  | None => false
  end = false
  ↔ ∀ s, since = Some s → s ≠ 0 → s ≤ timestamp e.
Proof.
  destruct since as [s|]; [|split; done].
  destruct (Z.eqb_spec s 0) as [Hs0|Hs0]; cbn [negb andb].
  - split; [|done]. by intros _ s' [= <-].
  - rewrite Z.ltb_ge. split; [by intros ? s' [= <-]|].
    intros Hc. by apply Hc.
Qed.

Lemma body_guard_spec (e : entry) (hasBody : option bool) :
  match hasBody with
  | Some hasBody => negb (Bool.eqb hasBody (hasResponseBody e))
  | None => false
  end = false
  ↔ ∀ b, hasBody = Some b → hasResponseBody e = b.
Proof.
  destruct hasBody as [b|]; [|split; done].
  rewrite negb_false_iff, Bool.eqb_true_iff.
  split; [by intros <- b' [= <-]|]. intros Hc. symmetry. by apply Hc.
Qed.

Lemma static_guard_spec (e : entry) (excludeStatic : bool) :
  excludeStatic && is_static e = false
  ↔ (excludeStatic = true → ¬ path_ends_in_static_ext (url e)).
Proof.
  rewrite <- is_static_spec. destruct excludeStatic, (is_static e); naive_solver.
Qed.

Lemma pattern_guard_spec (e : entry) (pat : option string) :
  (if Js.truthy_str pat then matchesUrlPattern (url e) pat else Some true)
  = Some true
  ↔ ∀ p, pat = Some p → p ≠ "" → url_matches (url e) p.
Proof.
  destruct (Js.truthy_str pat) eqn:Hp.
  - apply truthy_str_true in Hp as (p & -> & Hp).
    rewrite (matchesUrlPattern_spec _ _ Hp).
    split; [by intros ? p' [= <-]|]. intros Hc. by apply Hc.
  - split; [|done]. intros _ p -> Hne.
    rewrite truthy_str_false in Hp. destruct Hne. by apply Hp.
Qed.

(** An early return of [false] at a guard, or the rest. *)
Lemma guard_true_iff (g : bool) (rest : option bool) :
  (if g then Some false else rest) = Some true ↔ g = false ∧ rest = Some true.
Proof. destruct g; intuition congruence. Qed.

(** [matchesFilters] lets through the entries that satisfy every filter
    given, in the reading of the code. *)
Lemma matchesFilters_spec (e : entry) (f : Filters.t) :
  matchesFilters e (Some f) = Some true ↔ satisfies_filters e f.
Proof.
  unfold matchesFilters, satisfies_filters, satisfies.
  rewrite !guard_true_iff.
  rewrite origin_guard_spec, method_guard_spec, status_guard_spec,
    type_guard_spec, since_guard_spec, body_guard_spec, static_guard_spec,
    pattern_guard_spec.
  done.
Qed.

(** With no filter every entry is let through. *)
Lemma matchesFilters_empty (e : entry) :
  matchesFilters e (Some Filters.empty) = Some true.
Proof.
  reflexivity.
Qed.

Lemma readEntriesSync_empty (st : store C) :
  readEntriesSync Filters.empty st = parsed_entries st.
Proof.
  unfold readEntriesSync, parsed_entries.
  destruct (requests st) as [lines|]; [|done].
  cbn [Filters.last Filters.empty default].
  induction lines as [|[n|n|e n] lines IH]; cbn;
    by rewrite ?matchesFilters_empty, ?IH.
Qed.

Lemma read_line_without_last (f : Filters.t) (l : line) :
  read_line (without_last f) l = read_line f l.
Proof. by destruct f. Qed.

Lemma elem_of_read_line (f : Filters.t) (lines : list line) (e : entry) :
  e ∈ omap (read_line f) lines
  ↔ e ∈ omap (λ l, match l with Parsed e _ => Some e | _ => None end) lines
    ∧ matchesFilters e (Some f) = Some true.
Proof.
  rewrite !list_elem_of_omap. split.
  - intros ([n|n|e' n] & Hin & Hl); unfold read_line in Hl; try done.
    destruct (matchesFilters e' (Some f)) as [[]|] eqn:Hm; try done.
    injection Hl as ->. split; [|done]. by exists (Parsed e n).
  - intros [([n|n|e' n] & Hin & Hl) Hm]; try done. injection Hl as ->.
    exists (Parsed e n). split; [done|]. unfold read_line. by rewrite Hm.
Qed.

(** C3 (as amended). An entry is returned by the query without a tail count
    exactly when it stands on a parsed line of the log and satisfies every
    filter given, the filters read as the code reads them: the origin
    equals exactly, the method equals the filter upper-cased, the status
    equals the integer or its decimal rendering starts with the first
    character of a filter ending in [xx], the content type contains the
    substring, the timestamp is at least the minimum, the presence of a
    response body matches, the URL cut at its first [?] and lower-cased
    does not end in a static asset extension, and the URL matches the
    pattern (regular expression, glob or substring).  The entries come in
    the order of the log, and the tail count, when positive, takes the last
    [N] of them after all other filters. *)
Theorem readEntriesSync_filters (f : Filters.t) (st : store C) :
  (∀ e, e ∈ readEntriesSync (without_last f) st
        ↔ e ∈ parsed_entries st ∧ satisfies_filters e f)
  ∧ readEntriesSync (without_last f) st `sublist_of` parsed_entries st
  ∧ readEntriesSync f st
    = tail_count (Filters.last f) (readEntriesSync (without_last f) st).
Proof.
  unfold readEntriesSync, parsed_entries.
  destruct (requests st) as [lines|]; cbn [default].
  - assert (Hlines : omap (read_line (without_last f)) lines
                     = omap (read_line f) lines).
    { apply list_omap_ext, Forall2_same_length_lookup_2; [done|].
      intros i x y Hx Hy. simplify_eq. apply read_line_without_last. }
    replace (Filters.last (without_last f)) with (@None Z) by by destruct f.
    rewrite Hlines. split; [|split].
    + intros e. by rewrite elem_of_read_line, matchesFilters_spec.
    + clear Hlines. induction lines as [|[n|n|e n] lines IH]; cbn; try done.
      destruct (matchesFilters e (Some f)) as [[]|]; cbn.
      * by apply sublist_skip.
      * by apply sublist_cons.
      * by apply sublist_cons.
    + unfold tail_count. destruct (Filters.last f) as [n|]; [|done].
      destruct (Z.eqb_spec n 0) as [->|Hn]; cbn [negb andb]; [done|].
      done.
  - replace (Filters.last (without_last f)) with (@None Z) by by destruct f.
    split; [|split]; [|done|].
    + intros e. split; [by intros ?%elem_of_nil|by intros [?%elem_of_nil _]].
    + unfold tail_count. by destruct (Filters.last f) as [n|]; [destruct (0 <? n)|].
Qed.

(** *** Properties of the cleanup *)

(** The size check compares the bytes on disk with the cap. *)
Lemma over_cap_spec (maxSize : Z) (st : store C) :
  0 ≤ maxSize < 2 ^ 53 → 0 ≤ disk_size st < 2 ^ 53 →
  over_cap maxSize st = (maxSize <? disk_size st).
Proof. intros Hmax Hsize. by apply Double.ltb_of_Z. Qed.

Lemma within_cap (maxSize : Z) (st : store C) :
  0 ≤ disk_size st ≤ maxSize → maxSize < 2 ^ 53 →
  over_cap maxSize st = false.
Proof.
  intros Hsize Hmax. rewrite over_cap_spec by lia. apply Z.ltb_ge. lia.
Qed.

Lemma hash_ref_spec (hash : option string) (ext name : string) :
  name ∈ (if Js.truthy_str hash then [default "" hash +:+ ext] else [])
  ↔ ∃ h, hash = Some h ∧ h ≠ "" ∧ name = h +:+ ext.
Proof.
  destruct (Js.truthy_str hash) eqn:Hh.
  - apply truthy_str_true in Hh as (h & -> & Hh). cbn [default].
    rewrite list_elem_of_singleton. split.
    + intros ->. by exists h.
    + by intros (h' & [= <-] & _ & ->).
  - rewrite truthy_str_false in Hh. rewrite elem_of_nil. split; [done|].
    intros (h & Hsome & Hne & _). by apply Hne, Hh.
Qed.

Lemma entry_refs_spec (e : entry) (name : string) :
  name ∈ entry_refs e ↔ refers_to e name.
Proof.
  unfold entry_refs, refers_to.
  by rewrite elem_of_app, !hash_ref_spec.
Qed.

Lemma elem_of_referencedHashes (entries : list entry) (name : string) :
  name ∈ referencedHashes entries ↔ ∃ e, e ∈ entries ∧ refers_to e name.
Proof.
  unfold referencedHashes. rewrite elem_of_list_to_set, list_elem_of_bind.
  split; intros (e & H1 & H2); exists e.
  - by rewrite <- entry_refs_spec.
  - by rewrite entry_refs_spec.
Qed.

Lemma insert_by_timestamp_perm (e : entry) (l : list entry) :
  insert_by_timestamp e l ≡ₚ e :: l.
Proof.
  induction l as [|x l IH]; cbn; [done|].
  destruct (timestamp e <=? timestamp x); [done|].
  by rewrite IH, Permutation_swap.
Qed.

Lemma sort_by_timestamp_perm (l : list entry) : sort_by_timestamp l ≡ₚ l.
Proof.
  induction l as [|x l IH]; cbn; [done|].
  by rewrite insert_by_timestamp_perm, IH.
Qed.

Lemma sort_by_timestamp_length (l : list entry) :
  length (sort_by_timestamp l) = length l.
Proof. apply Permutation_length, sort_by_timestamp_perm. Qed.

(** The loop removes entries from the front only. *)
Lemma evict_suffix (maxSize : float) (entries : list entry) (total : float) :
  (evict maxSize entries total).1 `suffix_of` entries.
Proof.
  revert total. induction entries as [|e rest IH]; intros total; cbn; [done|].
  destruct (PrimFloat.ltb maxSize total); [|done].
  by apply suffix_cons_r.
Qed.

(** The loop stops with no entry left or with its estimate within the cap. *)
Lemma evict_exit (maxSize : float) (entries : list entry) (total : float) :
  (evict maxSize entries total).1 = []
  ∨ PrimFloat.ltb maxSize (evict maxSize entries total).2 = false.
Proof.
  revert total. induction entries as [|e rest IH]; intros total; cbn.
  - by left.
  - destruct (PrimFloat.ltb maxSize total) eqn:Hlt; [apply IH|by right].
Qed.

(** A loop that is entered removes an entry. *)
Lemma evict_shrinks (maxSize : float) (entries : list entry) (total : float) :
  entries ≠ [] → PrimFloat.ltb maxSize total = true →
  (length (evict maxSize entries total).1 < length entries)%nat.
Proof.
  destruct entries as [|e rest]; [done|]. intros _ Hlt. cbn. rewrite Hlt.
  apply Nat.lt_succ_r, suffix_length, evict_suffix.
Qed.

Lemma filter_length_id {A} (P : A → Prop) `{!∀ x, Decision (P x)}
    (l : list A) :
  (length l ≤ length (base.filter P l))%nat → base.filter P l = l.
Proof.
  induction l as [|x l IH]; [done|]. rewrite filter_cons.
  destruct (decide (P x)); cbn; intros Hlen.
  - f_equal. apply IH. lia.
  - pose proof (length_filter P l). lia.
Qed.

Section Keep.
Variables (ttl maxSize now : Z) (st : store C).

Let keep := (cleanup_keep ttl maxSize now st).1.
Let young := base.filter (λ e, now - ttl ≤ timestamp e) (parsed_entries st).

(** Without eviction the entries kept are the ones the TTL keeps. *)
Lemma cleanup_keep_within_cap :
  over_cap maxSize st = false → keep = young.
Proof.
  unfold keep, young, cleanup_keep, over_cap. intros ->.
  by rewrite readEntriesSync_empty.
Qed.

(** The entries kept are among the ones the TTL keeps. *)
Lemma cleanup_keep_young (e : entry) : e ∈ keep → e ∈ young.
Proof.
  unfold keep, young, cleanup_keep. rewrite readEntriesSync_empty.
  destruct (_ && _); cbn [fst]; [|done].
  intros He. eapply elem_of_suffix in He; [|apply evict_suffix].
  by rewrite sort_by_timestamp_perm in He.
Qed.

Lemma cleanup_keep_length :
  (length keep ≤ length (parsed_entries st))%nat.
Proof.
  unfold keep, cleanup_keep. rewrite readEntriesSync_empty.
  etrans; [|apply (length_filter (λ e, now - ttl ≤ timestamp e))].
  destruct (_ && _); cbn [fst]; [|done].
  etrans; [apply suffix_length, evict_suffix|].
  by rewrite sort_by_timestamp_length.
Qed.

(** When no entry is removed, the entries kept are the entries of the log,
    in the order of the log. *)
Lemma cleanup_keep_all :
  (length (parsed_entries st) ≤ length keep)%nat → keep = parsed_entries st.
Proof.
  unfold keep, cleanup_keep. rewrite readEntriesSync_empty.
  set (entries := base.filter _ (parsed_entries st)).
  pose proof (length_filter (λ e, now - ttl ≤ timestamp e)
                (parsed_entries st)) as Hfilter.
  fold entries in Hfilter.
  destruct (PrimFloat.ltb _ _) eqn:Hlt; cbn [andb fst].
  - destruct (bool_decide_reflect (entries = [])) as [Hnil|Hne];
      cbn [negb fst].
    + intros Hlen. apply filter_length_id. by fold entries.
    + intros Hlen. exfalso.
      pose proof (evict_shrinks (Double.of_Z maxSize)
                    (sort_by_timestamp entries)
                    (Double.of_Z (disk_size st))) as Hshrink.
      rewrite sort_by_timestamp_length in Hshrink.
      assert (sort_by_timestamp entries ≠ []) as Hsort.
      { intros Hs. apply Hne, length_zero_iff_nil.
        by rewrite <- sort_by_timestamp_length, Hs. }
      specialize (Hshrink Hsort Hlt). lia.
  - intros Hlen. apply filter_length_id. by fold entries.
Qed.

(** The estimate [cleanup] ends with is within the cap, or no entry is
    kept. *)
Lemma cleanup_keep_exit :
  keep = []
  ∨ PrimFloat.ltb (Double.of_Z maxSize) (cleanup_keep ttl maxSize now st).2
    = false.
Proof.
  unfold keep, cleanup_keep.
  destruct (PrimFloat.ltb _ (Double.of_Z (disk_size st))) eqn:Hlt; cbn [andb].
  - destruct (bool_decide_reflect
                (base.filter (λ e, now - ttl ≤ timestamp e)
                   (readEntriesSync Filters.empty st) = [])) as [Hnil|Hne];
      cbn [negb fst snd]; [by left|apply evict_exit].
  - by right.
Qed.

End Keep.

Lemma parsed_entry_lines (entries : list entry) :
  omap (λ l, match l with Parsed e _ => Some e | _ => None end)
    (entry_line <$> entries) = entries.
Proof. induction entries as [|e l IH]; cbn; by rewrite ?IH. Qed.

Lemma length_filter_split {A} (P : A → Prop) `{!∀ x, Decision (P x)}
    (l : list A) :
  (length (base.filter P l) + length (base.filter (λ x, ¬ P x) l)
   = length l)%nat.
Proof.
  induction l as [|x l IH]; [done|]. rewrite !filter_cons.
  destruct (decide (P x)), (decide (¬ P x)); cbn; try done; lia.
Qed.

Section Run.
Variables (options : cleanup_options) (now : Z) (st : store C).

Let ttl_ms := default DEFAULT_TTL (ttl options).
Let cap := default DEFAULT_MAX_SIZE (maxSize options).
Let keep := (cleanup_keep ttl_ms cap now st).1.
Let run := cleanup options now st.

(** Without a log [cleanup] writes [.meta] and does nothing else. *)
Lemma cleanup_no_log :
  requests st = None → run = (mkResult 0 0 0 None, writeMeta now st).
Proof. unfold run, cleanup. by intros ->. Qed.

Lemma cleanup_meta : meta run.2 = Some now.
Proof.
  unfold run, cleanup. destruct (requests st); cbn [snd]; done.
Qed.

Lemma cleanup_lock : lock run.2 = lock st.
Proof.
  unfold run, cleanup.
  destruct (requests st); cbn [snd]; unfold writeMeta; cbn;
    rewrite lock_ensure; [|done].
  destruct (_ || _); cbn; by destruct (bodies st).
Qed.

(** The body files left are the ones an entry kept refers to. *)
Lemma cleanup_bodies :
  requests st ≠ None →
  bodies run.2
  = Some (base.filter (λ f, f.1 ∈ referencedHashes keep) (body_files st)).
Proof.
  unfold run, cleanup. destruct (requests st) as [lines|]; [intros _|done].
  cbn [snd]. fold ttl_ms cap keep. unfold writeMeta. cbn [bodies set_meta].
  rewrite bodies_ensure. f_equal.
  unfold body_files.
  destruct (bodies st) as [files|] eqn:Hfiles; destruct (_ || _); cbn;
    rewrite ?Hfiles; cbn; try done; by rewrite map_filter_empty.
Qed.

(** The log left holds the entries kept, and is empty when none is. *)
Lemma cleanup_requests :
  requests st ≠ None →
  parsed_entries run.2 = keep ∧ (keep = [] → requests run.2 = Some []).
Proof.
  unfold run, cleanup. destruct (requests st) as [lines|] eqn:Hlog;
    [intros _|done].
  cbn [snd]. fold ttl_ms cap keep. unfold parsed_entries, writeMeta.
  cbn [requests set_meta]. rewrite requests_ensure.
  destruct (bool_decide_reflect (keep = [])) as [Hnil|Hne].
  - rewrite orb_true_r. cbn. rewrite Hnil. by destruct (bodies st).
  - rewrite orb_false_r. split; [|done].
    destruct (Z.ltb_spec 0 (Z.of_nat (length (readEntriesSync Filters.empty st))
                            - Z.of_nat (length keep))) as [Hlt|Hge].
    + cbn. rewrite parsed_entry_lines. by destruct (bodies st).
    + assert (keep = parsed_entries st) as ->.
      { apply cleanup_keep_all. rewrite readEntriesSync_empty in Hge.
        fold keep. lia. }
      unfold parsed_entries. by destruct (bodies st).
Qed.

(** The log is not written when no entry is removed and one is kept. *)
Lemma cleanup_requests_untouched :
  keep ≠ [] → (length (parsed_entries st) ≤ length keep)%nat →
  requests run.2 = requests st.
Proof.
  intros Hne Hlen. unfold run, cleanup.
  destruct (requests st) as [lines|] eqn:Hlog.
  - cbn [snd]. fold ttl_ms cap keep. unfold writeMeta.
    cbn [requests set_meta]. rewrite requests_ensure.
    rewrite bool_decide_eq_false_2, orb_false_r by done.
    rewrite readEntriesSync_empty.
    destruct (Z.ltb_spec 0 (Z.of_nat (length (parsed_entries st))
                            - Z.of_nat (length keep))) as [Hlt|Hge]; [lia|].
    by destruct (bodies st).
  - cbn. by rewrite requests_ensure.
Qed.

Lemma cleanup_survivors :
  requests st ≠ None → readEntriesSync Filters.empty run.2 = keep.
Proof. intros Hlog. rewrite readEntriesSync_empty. by apply cleanup_requests. Qed.

Lemma cleanup_deletedEntries :
  requests st ≠ None →
  deletedEntries run.1
  = Z.of_nat (length (parsed_entries st)) - Z.of_nat (length keep).
Proof.
  unfold run, cleanup. destruct (requests st) as [lines|]; [intros _|done].
  cbn. by rewrite readEntriesSync_empty.
Qed.

Lemma cleanup_orphans :
  requests st ≠ None →
  deletedBodies run.1
  = Z.of_nat (size (base.filter (λ f, f.1 ∉ referencedHashes keep)
                      (body_files st)))
  ∧ freedBytes run.1
    = files_size (base.filter (λ f, f.1 ∉ referencedHashes keep)
                    (body_files st)).
Proof.
  unfold run, cleanup. by destruct (requests st) as [lines|]; [intros _|].
Qed.

End Run.

(** C1 (as amended). For every store in which [requests.jsonl] exists,
    after [cleanup] every file of the [bodies] directory is the one a
    [requestBodyHash] or [responseBodyHash] of an entry left in
    [requests.jsonl] refers to; and the size estimate [cleanup] ends with
    (the bytes on disk before the run, scaled by [k/(k+1)] at each entry
    removed) is at most the size cap, or no entry is left. *)
Theorem cleanup_no_orphan_bodies (options : cleanup_options) (now : Z)
    (st : store C) :
  requests st ≠ None →
  let st' := (cleanup options now st).2 in
  let cap := default DEFAULT_MAX_SIZE (maxSize options) in
  let estimate :=
    (cleanup_keep (default DEFAULT_TTL (ttl options)) cap now st).2 in
  (∀ name, is_Some (body_files st' !! name) →
     ∃ e, e ∈ readEntriesSync Filters.empty st' ∧ refers_to e name)
  ∧ (PrimFloat.ltb (Double.of_Z cap) estimate = false
     ∨ readEntriesSync Filters.empty st' = []).
Proof.
  intros Hlog st' cap estimate. unfold st'.
  rewrite cleanup_survivors by done. split.
  - intros name [c Hc]. unfold body_files in Hc.
    rewrite cleanup_bodies in Hc by done. cbn [default] in Hc.
    apply map_lookup_filter_Some in Hc as [_ Href]. cbn in Href.
    by apply elem_of_referencedHashes.
  - destruct (cleanup_keep_exit (default DEFAULT_TTL (ttl options)) cap now st);
      [by right|by left].
Qed.

(** C4. With the default TTL of 24 hours and the total size on disk not
    over the cap, [cleanup] leaves in [requests.jsonl] the entries whose timestamp
    is at least [now - 24h], in their order, and removes the others:
    exactly the entries older than that; every body file an entry left
    refers to is as it was; and [lastCleanup] in [.meta] is [now]. *)
Theorem cleanup_default_ttl (now : Z) (st : store C) :
  0 ≤ disk_size st ≤ DEFAULT_MAX_SIZE →
  let r := cleanup (mkOptions None None) now st in
  let before := readEntriesSync Filters.empty st in
  let after := readEntriesSync Filters.empty r.2 in
  after = base.filter (λ e, now - DEFAULT_TTL ≤ timestamp e) before
  ∧ deletedEntries r.1
    = Z.of_nat (length (base.filter (λ e, ¬ now - DEFAULT_TTL ≤ timestamp e)
                          before))
  ∧ (∀ e name, e ∈ after → refers_to e name →
       body_files r.2 !! name = body_files st !! name)
  ∧ meta r.2 = Some now.
Proof.
  intros Hsize. cbv zeta.
  assert (Hcap : over_cap DEFAULT_MAX_SIZE st = false).
  { apply within_cap; [done|reflexivity]. }
  destruct (requests st) as [lines|] eqn:Hlog.
  - assert (requests st ≠ None) as Hsome by by rewrite Hlog.
    rewrite cleanup_survivors, cleanup_deletedEntries by done.
    cbn [default ttl maxSize]. rewrite cleanup_keep_within_cap by done.
    rewrite readEntriesSync_empty. repeat split.
    + rewrite <- (length_filter_split (λ e, now - DEFAULT_TTL ≤ timestamp e)
                   (parsed_entries st)). lia.
    + intros e name He Href. unfold body_files at 1.
      rewrite cleanup_bodies by done. cbn [default ttl maxSize].
      rewrite cleanup_keep_within_cap by done.
      destruct (body_files st !! name) as [c|] eqn:Hc.
      * apply map_lookup_filter_Some. split; [done|]. cbn.
        apply elem_of_referencedHashes. by exists e.
      * apply map_lookup_filter_None. by left.
    + apply cleanup_meta.
  - rewrite cleanup_no_log by done. cbn [fst snd deletedEntries].
    unfold readEntriesSync, writeMeta. cbn [requests set_meta].
    rewrite requests_ensure, Hlog. repeat split; try done.
    intros e name _ _. unfold body_files at 1. cbn [bodies set_meta].
    by rewrite bodies_ensure.
Qed.

(** C2 (as amended). When [cleanup] runs twice with no append in between,
    no entry the first run left has aged past the TTL at the second run,
    and the bytes on disk after the first run are not over the cap (a cap
    below 2^53), the second run
    deletes no entry and no body file and leaves [requests.jsonl] and the
    [bodies] directory as they were. *)
Theorem cleanup_twice (options : cleanup_options) (now1 now2 : Z)
    (st : store C) :
  let r1 := cleanup options now1 st in
  let r2 := cleanup options now2 r1.2 in
  (∀ e, e ∈ readEntriesSync Filters.empty r1.2 →
     now2 - default DEFAULT_TTL (ttl options) ≤ timestamp e) →
  0 ≤ disk_size r1.2 ≤ default DEFAULT_MAX_SIZE (maxSize options) →
  default DEFAULT_MAX_SIZE (maxSize options) < 2 ^ 53 →
  deletedEntries r2.1 = 0 ∧ deletedBodies r2.1 = 0 ∧ freedBytes r2.1 = 0
  ∧ requests r2.2 = requests r1.2 ∧ bodies r2.2 = bodies r1.2.
Proof.
  intros r1 r2 Hyoung Hsize Hmax. unfold r2.
  assert (Hcap : over_cap (default DEFAULT_MAX_SIZE (maxSize options)) r1.2
                 = false) by by apply within_cap.
  clear Hsize Hmax. set (st1 := r1.2) in *.
  destruct (requests st) as [lines|] eqn:Hlog.
  - assert (requests st ≠ None) as Hsome by by rewrite Hlog.
    destruct (cleanup_requests options now1 st Hsome) as [Hparsed Hnil].
    pose proof (cleanup_bodies options now1 st Hsome) as Hbodies.
    fold r1 st1 in Hparsed, Hnil, Hbodies.
    set (keep1 := (cleanup_keep (default DEFAULT_TTL (ttl options))
                     (default DEFAULT_MAX_SIZE (maxSize options)) now1 st).1)
      in *.
    assert (requests st1 ≠ None) as Hsome1.
    { intros Hnone. unfold parsed_entries in Hparsed.
      rewrite Hnone in Hparsed. cbn in Hparsed.
      specialize (Hnil (eq_sym Hparsed)). congruence. }
    set (keep2 := (cleanup_keep (default DEFAULT_TTL (ttl options))
                     (default DEFAULT_MAX_SIZE (maxSize options)) now2 st1).1).
    assert (keep2 = keep1) as Hkeep.
    { unfold keep2. rewrite cleanup_keep_within_cap by done.
      rewrite Hparsed. apply filter_length_id.
      rewrite readEntriesSync_empty, Hparsed in Hyoung.
      clear -Hyoung. induction keep1 as [|e l IH]; [done|].
      rewrite filter_cons, decide_True by (apply Hyoung; left).
      cbn. apply le_n_S, IH. intros e' He'. apply Hyoung. by right. }
    assert (Hrefs : ∀ name c, body_files st1 !! name = Some c →
                      name ∈ referencedHashes keep1).
    { intros name c. unfold body_files. rewrite Hbodies. cbn [default].
      by intros [_ ?]%map_lookup_filter_Some. }
    assert (Horphans : base.filter (λ f : string * C,
                         f.1 ∉ referencedHashes keep2) (body_files st1) = ∅).
    { apply map_empty_filter. intros name c Hc. cbn. rewrite Hkeep.
      intros Hnot. apply Hnot. by eapply Hrefs. }
    rewrite cleanup_deletedEntries by done.
    destruct (cleanup_orphans options now2 st1 Hsome1) as [-> ->].
    fold keep2. rewrite Horphans, Hkeep, Hparsed.
    rewrite map_size_empty. unfold files_size at 1. rewrite map_fold_empty.
    repeat split; try done; try lia.
    + destruct (cleanup_requests options now2 st1 Hsome1) as [Hp2 Hn2].
      fold keep2 in Hp2, Hn2. rewrite Hkeep in Hn2.
      destruct (decide (keep1 = [])) as [Hk|Hk].
      { by rewrite Hn2, Hnil. }
      apply cleanup_requests_untouched; fold keep2; rewrite Hkeep, ?Hparsed;
        done.
    + rewrite cleanup_bodies by done. fold keep2. rewrite Hkeep, Hbodies.
      f_equal. unfold body_files at 1. rewrite Hbodies. cbn [default].
      apply map_filter_id. intros name c Hc. cbn.
      eapply Hrefs. unfold body_files. rewrite Hbodies. exact Hc.
  - pose proof (cleanup_no_log options now1 st Hlog) as Hrun.
    fold r1 in Hrun. unfold st1 in *. rewrite Hrun in *. cbn [snd] in *.
    assert (requests (writeMeta now1 st) = None) as Hlog1.
    { unfold writeMeta. cbn. by rewrite requests_ensure. }
    rewrite cleanup_no_log by done.
    cbn [fst snd deletedEntries deletedBodies freedBytes].
    repeat split; try done.
    + unfold writeMeta at 1. cbn [requests set_meta].
      by rewrite requests_ensure.
    + unfold writeMeta. cbn [bodies set_meta]. rewrite !bodies_ensure.
      f_equal. unfold body_files. cbn [bodies set_meta].
      by rewrite bodies_ensure.
Qed.


(** *** Reading back what was stored *)

Lemma app_String (c : ascii) (s t : string) :
  String c s +:+ t = String c (s +:+ t).
Proof. reflexivity. Qed.

Lemma app_length (s t : string) :
  String.length (s +:+ t) = (String.length s + String.length t)%nat.
Proof.
  induction s as [|c s IH]; [done|]. rewrite app_String. cbn. by rewrite IH.
Qed.

(** Two strings with tails of the same length are equal part by part. *)
Lemma app_inj_length (s1 s2 t1 t2 : string) :
  String.length t1 = String.length t2 →
  s1 +:+ t1 = s2 +:+ t2 → s1 = s2 ∧ t1 = t2.
Proof.
  revert s2. induction s1 as [|c s1 IH]; intros [|c2 s2] Hlen Heq.
  - done.
  - exfalso. change ("" +:+ t1) with t1 in Heq. subst t1.
    rewrite app_String in Hlen. cbn in Hlen. rewrite app_length in Hlen. lia.
  - exfalso. change ("" +:+ t2) with t2 in Heq. subst t2.
    rewrite app_String in Hlen. cbn in Hlen. rewrite app_length in Hlen. lia.
  - rewrite !app_String in Heq. injection Heq as -> Heq.
    by destruct (IH _ Hlen Heq) as [-> ->].
Qed.

Lemma body_name_inj (h1 h2 : string) (r1 r2 : bool) :
  body_name h1 r1 = body_name h2 r2 → h1 = h2 ∧ r1 = r2.
Proof.
  unfold body_name. intros Heq.
  apply app_inj_length in Heq as [-> Heq]; [|by destruct r1, r2].
  split; [done|]. destruct r1, r2; vm_compute in Heq; congruence.
Qed.

(** A name without a path separator: [path.join] puts the file of that
    name in the directory, under that name. *)
Definition plain_name (hash : string) : Prop :=
  Decimal.all_chars
    (λ c, negb (Ascii.eqb c "/") && negb (Ascii.eqb c "\")) hash = true.

(** X1. [readBody] gives back what [storeBody] stored under the hash it
    returned, or the content that was already in the file of that name,
    which [storeBody] does not overwrite.  Every other body of the same
    kind, and every body of the other kind, reads as before (the hashes
    being names without a path separator). *)
Theorem storeBody_then_readBody (content : body_content) (isRequest : bool)
    (st : store Buffer) :
  let r := storeBody content isRequest st in
  readBody r.1 isRequest r.2
  = Some (default (to_buffer content) (readBody r.1 isRequest st))
  ∧ (∀ hash, plain_name r.1 → plain_name hash → hash ≠ r.1 →
       readBody hash isRequest r.2 = readBody hash isRequest st)
  ∧ (∀ hash, plain_name r.1 → plain_name hash →
       readBody hash (negb isRequest) r.2
       = readBody hash (negb isRequest) st).
Proof.
  intros r. unfold readBody.
  pose proof (storeBody_files content isRequest st) as Hfiles.
  cbv zeta in Hfiles. fold r in Hfiles. rewrite Hfiles.
  destruct (body_files st !! body_name r.1 isRequest) as [b|] eqn:Hb.
  - by rewrite Hb.
  - split; [by rewrite lookup_insert_eq|]. split.
    + intros hash _ _ Hne. rewrite lookup_insert_ne; [done|].
      intros Heq. apply body_name_inj in Heq as [Heq _]. congruence.
    + intros hash _ _. rewrite lookup_insert_ne; [done|].
      intros Heq. apply body_name_inj in Heq as [_ Heq]. by destruct isRequest.
Qed.

(** *** Properties of the append *)

(** The attempt to take the lock does not throw and touches no file but
    [.lock], whatever the other processes do to [.lock]. *)
Lemma acquire_lock_returns others now (st : store C) :
  ∃ lockFd l, acquire_lock others now st = (inr lockFd, set_lock l st).
Proof.
  unfold acquire_lock, try_catch, openSync_wx, statSync_mtimeMs,
    unlinkSync_lock, meanwhile, mbind, io_bind, bind, mret, io_ret, ret.
  destruct st as [r b m [mtime|]]; cbn; [|by eexists _, _].
  destruct (others 1%nat (Some mtime)) as [m1|]; cbn; [|by eexists _, _].
  destruct (5000 <? now - m1); cbn; [|by eexists _, _].
  destruct (others 2%nat (Some m1)) as [m2|]; cbn; [|by eexists _, _].
  destruct (others 3%nat None) as [m3|]; cbn; by eexists _, _.
Qed.


(** What [appendEntrySync] returns and what it leaves in the log, in the
    terms of the source. *)
Lemma appendEntrySync_run (others : nat → option Z → option Z) (now : Z)
    (random_hex : string) (e : entry_arg) (st : store C) :
  let r := appendEntrySync others now random_hex e st in
  r.1 = inr (fullEntry now random_hex e)
  ∧ requests r.2
    = Some (default [] (requests st)
            ++ [entry_line (fullEntry now random_hex e)])
  ∧ body_files r.2 = body_files st
  ∧ meta r.2 = meta st.
Proof.
  cbv zeta. unfold appendEntrySync, mbind, io_bind, bind, files.
  destruct (acquire_lock_returns others now (ensureDirectories st))
    as (lockFd & l & ->).
  destruct lockFd as [[]|].
  - unfold try_finally, try_catch, meanwhile, closeSync, unlinkSync_lock,
      files, mbind, io_bind, bind, mret, io_ret, ret.
    cbn. destruct (others 4%nat l); cbn;
      fold (body_files (ensureDirectories st));
      rewrite ?requests_ensure, ?body_files_ensure, ?meta_ensure; done.
  - unfold mret, io_ret, ret. cbn.
    fold (body_files (ensureDirectories st)).
    rewrite ?requests_ensure, ?body_files_ensure, ?meta_ensure. done.
Qed.


(** *** Appending and reading *)

Lemma appendEntrySync_requests (others : nat → option Z → option Z)
    (now : Z) (random_hex : string) (e : entry_arg) (st : store C) :
  requests (appendEntrySync others now random_hex e st).2
  = Some (default [] (requests st) ++ [entry_line (fullEntry now random_hex e)]).
Proof. apply appendEntrySync_run. Qed.

Lemma appendEntrySync_full (others : nat → option Z → option Z)
    (now : Z) (random_hex : string) (e : entry_arg) (st : store C) :
  (appendEntrySync others now random_hex e st).1
  = inr (fullEntry now random_hex e).
Proof. apply appendEntrySync_run. Qed.

(** The entries read from a log with one more line. *)
Lemma readEntriesSync_snoc (f : Filters.t) (st st' : store C) (e : entry) :
  requests st' = Some (default [] (requests st) ++ [entry_line e]) →
  readEntriesSync (without_last f) st'
  = readEntriesSync (without_last f) st
    ++ (if bool_decide (matchesFilters e (Some f) = Some true)
        then [e] else []).
Proof.
  intros Hreq. unfold readEntriesSync. rewrite Hreq.
  replace (Filters.last (without_last f)) with (@None Z) by by destruct f.
  rewrite omap_app. f_equal.
  - by destruct (requests st).
  - change (omap (read_line (without_last f)) [entry_line e])
      with (from_option (λ x, [x]) [] (read_line (without_last f) (entry_line e))).
    rewrite read_line_without_last. unfold read_line, entry_line.
    destruct (matchesFilters e (Some f)) as [[]|]; done.
Qed.

(** X2. After an append, synchronous or not and whatever other processes
    do to the lock file, a query without a tail count returns what it
    returned before, followed by the full entry when the filters let it
    through; without filters the full entry is always the last one
    returned.  Both forms of append return the same full entry, the
    synchronous one without throwing, and leave the same log. *)
Theorem append_then_read (others : nat → option Z → option Z) (now : Z)
    (random_hex : string) (e : entry_arg) (f : Filters.t) (st : store C) :
  let r := appendEntrySync others now random_hex e st in
  let a := appendEntry now random_hex e st in
  r.1 = inr a.1
  ∧ requests a.2 = requests r.2
  ∧ readEntriesSync (without_last f) r.2
    = readEntriesSync (without_last f) st
      ++ (if bool_decide (matchesFilters a.1 (Some f) = Some true)
          then [a.1] else [])
  ∧ readEntriesSync Filters.empty r.2
    = readEntriesSync Filters.empty st ++ [a.1].
Proof.
  intros r a. unfold r.
  rewrite appendEntrySync_full, appendEntrySync_requests.
  split; [done|]. split.
  { unfold a, appendEntry, appendFileSync. cbn. by rewrite requests_ensure. }
  split.
  - apply readEntriesSync_snoc, appendEntrySync_requests.
  - apply (readEntriesSync_snoc Filters.empty), appendEntrySync_requests.
Qed.

(** *** Single entries *)

Lemma find_app_Some {A} (p : A → bool) (l1 l2 : list A) (x : A) :
  List.find p l1 = Some x → List.find p (l1 ++ l2) = Some x.
Proof.
  induction l1 as [|y l1 IH]; cbn; [done|]. destruct (p y); [done|apply IH].
Qed.

Lemma find_app_None {A} (p : A → bool) (l1 l2 : list A) :
  List.find p l1 = None → List.find p (l1 ++ l2) = List.find p l2.
Proof.
  induction l1 as [|y l1 IH]; cbn; [done|]. destruct (p y); [done|apply IH].
Qed.

(** X3. [getEntrySync] returns the first entry of the log, in file order,
    whose id is the one asked for, and [null] exactly when no entry has
    it. *)
Theorem getEntrySync_first (id : string) (st : store C) :
  let entries := readEntriesSync Filters.empty st in
  (∀ e, getEntrySync id st = Some e
        ↔ ∃ earlier later,
            entries = earlier ++ e :: later ∧ NetworkStore.id e = id
            ∧ ∀ x, x ∈ earlier → NetworkStore.id x ≠ id)
  ∧ (getEntrySync id st = None
     ↔ ∀ x, x ∈ entries → NetworkStore.id x ≠ id).
Proof.
  cbv zeta. unfold getEntrySync.
  induction (readEntriesSync Filters.empty st) as [|x l [IH1 IH2]]; cbn.
  - split.
    + intros e. split; [done|]. by intros ([|??] & ? & ? & _).
    + split; [|done]. by intros _ x ?%elem_of_nil.
  - destruct (String.eqb_spec (NetworkStore.id x) id) as [Hx|Hx]; split.
    + intros e. split.
      * intros [= <-]. exists [], l. split; [done|]. split; [done|].
        by intros ? ?%elem_of_nil.
      * intros ([|y earlier] & later & Heq & He & Hearlier).
        -- by injection Heq as ->.
        -- injection Heq as <- _. exfalso. apply (Hearlier x); [left|done].
    + split; [done|]. intros Hall. exfalso. apply (Hall x); [left|done].
    + intros e. rewrite IH1. split.
      * intros (earlier & later & -> & He & Hearlier).
        exists (x :: earlier), later. split; [done|]. split; [done|].
        intros y [->|Hy]%elem_of_cons; [done|by apply Hearlier].
      * intros ([|y earlier] & later & Heq & He & Hearlier).
        -- injection Heq as -> _. done.
        -- injection Heq as <- ->. exists earlier, later. split; [done|].
           split; [done|]. intros z Hz. apply Hearlier. by right.
    + rewrite IH2. split.
      * intros Hall y [->|Hy]%elem_of_cons; [done|by apply Hall].
      * intros Hall y Hy. apply Hall. by right.
Qed.

(** X4. An append never changes the entry found under an id that was
    found before; the entry appended is the one found under its id when
    no entry had that id; and every other id is looked up as before. *)
Theorem getEntrySync_after_append (others : nat → option Z → option Z)
    (now : Z) (random_hex : string) (e : entry_arg) (st : store C) :
  let r := appendEntrySync others now random_hex e st in
  ∃ appended,
    r.1 = inr appended
    ∧ (∀ id found, getEntrySync id st = Some found →
         getEntrySync id r.2 = Some found)
    ∧ (∀ id, getEntrySync id st = None →
         getEntrySync id r.2
         = if String.eqb (NetworkStore.id appended) id
           then Some appended else None).
Proof.
  intros r. exists (fullEntry now random_hex e).
  split; [apply appendEntrySync_full|]. unfold getEntrySync.
  assert (Hread : readEntriesSync Filters.empty r.2
                  = readEntriesSync Filters.empty st
                    ++ [fullEntry now random_hex e]).
  { apply (readEntriesSync_snoc Filters.empty), appendEntrySync_requests. }
  rewrite Hread. split.
  - intros id found. apply find_app_Some.
  - intros id Hnone. by rewrite find_app_None.
Qed.

(** *** Aggregations *)

Lemma count_origin_lookup (acc : gmap string Z) (e : entry) (origin : string) :
  origin ≠ "" →
  count_origin acc e !! origin
  = if bool_decide (getOriginFromUrl (url e) = Some origin)
    then Some (default 0 (acc !! origin) + 1)
    else acc !! origin.
Proof.
  intros Hne. unfold count_origin.
  destruct (Js.truthy_str (getOriginFromUrl (url e))) eqn:Ht.
  - apply truthy_str_true in Ht as (s & -> & Hs). cbn [default].
    destruct (decide (s = origin)) as [->|Hso].
    + by rewrite bool_decide_eq_true_2, lookup_insert_eq.
    + rewrite bool_decide_eq_false_2 by congruence.
      by rewrite lookup_insert_ne.
  - rewrite truthy_str_false in Ht. rewrite bool_decide_eq_false_2; [done|].
    intros Heq. by apply Hne, Ht.
Qed.

Lemma count_origin_empty_name (acc : gmap string Z) (e : entry) :
  count_origin acc e !! "" = acc !! "".
Proof.
  unfold count_origin.
  destruct (Js.truthy_str (getOriginFromUrl (url e))) eqn:Ht; [|done].
  apply truthy_str_true in Ht as (s & -> & Hs). cbn [default].
  by rewrite lookup_insert_ne.
Qed.

Lemma foldl_count_origin (entries : list entry) (acc : gmap string Z)
    (origin : string) :
  let n := length (base.filter (λ e : entry, getOriginFromUrl (url e) = Some origin)
                     entries) in
  foldl count_origin acc entries !! origin
  = if bool_decide (origin = "") || (n =? 0)%nat then acc !! origin
    else Some (default 0 (acc !! origin) + Z.of_nat n).
Proof.
  cbv zeta. revert acc. induction entries as [|e entries IH]; intros acc.
  { cbn. by rewrite orb_true_r. }
  cbn [foldl]. rewrite IH. rewrite filter_cons.
  destruct (decide (origin = "")) as [Hnil|Hne].
  { rewrite !bool_decide_eq_true_2 by done. cbn [orb]. rewrite Hnil.
    apply count_origin_empty_name. }
  rewrite !bool_decide_eq_false_2 by done. cbn [orb].
  rewrite count_origin_lookup by done.
  destruct (decide (getOriginFromUrl (url e) = Some origin)) as [He|He].
  - rewrite bool_decide_eq_true_2 by done. cbn [length default].
    destruct (Nat.eqb_spec
                (length (base.filter
                           (λ e : entry, getOriginFromUrl (url e) = Some origin)
                           entries)) 0) as [->|Hn]; cbn [Nat.eqb].
    + done.
    + unfold Datatypes.id. f_equal. lia.
  - by rewrite bool_decide_eq_false_2.
Qed.

(** X5. [getOriginsSync] maps an origin to the number of entries of the
    log whose URL has that origin; an origin of no entry, and the empty
    origin, are not in the map.  (An origin is not the name of a property
    of [Object.prototype].) *)
Theorem getOriginsSync_counts (st : store C) (origin : string) :
  origin ∉ Js.Object_prototype_names →
  let n := length (base.filter
                     (λ e : entry, getOriginFromUrl (url e) = Some origin)
                     (readEntriesSync Filters.empty st)) in
  getOriginsSync st !! origin
  = if bool_decide (origin = "") || (n =? 0)%nat then None
    else Some (Z.of_nat n).
Proof.
  intros _. cbv zeta. unfold getOriginsSync. rewrite foldl_count_origin.
  rewrite lookup_empty. cbn [default]. by destruct (_ || _).
Qed.

Lemma stats_fold_origins (entries : list entry)
    (acc : gmap string Z * option Z * Z) :
  (foldl stats_step acc entries).1.1 = foldl count_origin acc.1.1 entries.
Proof.
  revert acc. induction entries as [|e entries IH]; intros [[o old] new];
    [done|].
  cbn [foldl]. by rewrite IH.
Qed.

(** The [oldestEntry] of the loop: [Infinity] as long as no entry has been
    seen, then the least timestamp seen. *)
Lemma stats_fold_oldest (entries : list entry)
    (acc : gmap string Z * option Z * Z) :
  match (foldl stats_step acc entries).1.2 with
  | None => entries = [] ∧ acc.1.2 = None
  | Some t =>
      (acc.1.2 = Some t ∨ ∃ e, e ∈ entries ∧ timestamp e = t)
      ∧ (∀ a, acc.1.2 = Some a → t ≤ a)
      ∧ ∀ e, e ∈ entries → t ≤ timestamp e
  end.
Proof.
  revert acc. induction entries as [|e entries IH]; intros [[o old] new].
  { cbn. destruct old as [t|]; [|done]. split; [by left|]. split.
    - by intros a [= ->].
    - by intros e ?%elem_of_nil. }
  cbn [foldl]. specialize (IH (stats_step (o, old, new) e)).
  destruct (foldl stats_step _ entries).1.2 as [t|]; cbn in IH.
  - destruct IH as (Hfrom & Hacc & Hall).
    destruct old as [a|]; [destruct (Z.ltb_spec (timestamp e) a) as [Hlt|Hge]|].
    + pose proof (Hacc _ eq_refl) as Hte. split; [|split].
      * right. destruct Hfrom as [[= <-]|(x & Hx & Ht)].
        -- exists e. split; [left|done].
        -- exists x. split; [by right|done].
      * cbn. intros ? [= <-]. lia.
      * intros x [->|Hx]%elem_of_cons; [done|by apply Hall].
    + pose proof (Hacc _ eq_refl) as Hta. split; [|split].
      * destruct Hfrom as [[= <-]|(x & Hx & Ht)]; [by left|].
        right. exists x. split; [by right|done].
      * cbn. by intros ? [= <-].
      * intros x [->|Hx]%elem_of_cons; [lia|by apply Hall].
    + pose proof (Hacc _ eq_refl) as Hte. split; [|split].
      * right. destruct Hfrom as [[= <-]|(x & Hx & Ht)].
        -- exists e. split; [left|done].
        -- exists x. split; [by right|done].
      * done.
      * intros x [->|Hx]%elem_of_cons; [done|by apply Hall].
  - destruct IH as [_ Hnone].
    by destruct old as [a|]; [destruct (timestamp e <? a)|].
Qed.

(** The [newestEntry] of the loop: its initial value, or the greatest
    timestamp seen when that is more. *)
Lemma stats_fold_newest (entries : list entry)
    (acc : gmap string Z * option Z * Z) :
  let newest := (foldl stats_step acc entries).2 in
  (newest = acc.2 ∨ ∃ e, e ∈ entries ∧ timestamp e = newest)
  ∧ acc.2 ≤ newest
  ∧ ∀ e, e ∈ entries → timestamp e ≤ newest.
Proof.
  cbv zeta. revert acc.
  induction entries as [|e entries IH]; intros [[o old] new].
  { cbn. split; [by left|]. split; [done|]. by intros e ?%elem_of_nil. }
  cbn [foldl]. set (acc := stats_step (o, old, new) e).
  assert (Hstep : acc.2 = if new <? timestamp e then timestamp e else new)
    by done.
  destruct (IH acc) as (Hfrom & Hacc & Hall). rewrite Hstep in Hfrom, Hacc.
  clearbody acc. cbn [snd].
  destruct (Z.ltb_spec new (timestamp e)) as [Hlt|Hge].
  - split; [|split].
    + right. destruct Hfrom as [->|(x & Hx & Ht)].
      * exists e. split; [left|done].
      * exists x. split; [by right|done].
    + lia.
    + intros x [->|Hx]%elem_of_cons; [done|by apply Hall].
  - split; [|split].
    + destruct Hfrom as [->|(x & Hx & Ht)]; [by left|].
      right. exists x. split; [by right|done].
    + done.
    + intros x [->|Hx]%elem_of_cons; [lia|by apply Hall].
Qed.

(** X6. [getStatsSync] counts the entries of the log and the bytes of the
    body files, and gives the origins as [getOriginsSync] does.
    [oldestEntry] is [null] exactly when the log has no entry and is
    otherwise the least timestamp of an entry.  [newestEntry] is the
    greatest timestamp of an entry when that is positive, and [null]
    exactly when no entry has a positive timestamp. *)
Theorem getStatsSync_summary (st : store C) :
  let entries := readEntriesSync Filters.empty st in
  let s := getStatsSync st in
  totalRequests s = Z.of_nat (length entries)
  ∧ totalBodySize s = files_size (body_files st)
  ∧ origins s = getOriginsSync st
  ∧ (oldestEntry s = None ↔ entries = [])
  ∧ (∀ t, oldestEntry s = Some t →
       (∃ e, e ∈ entries ∧ timestamp e = t)
       ∧ ∀ e, e ∈ entries → t ≤ timestamp e)
  ∧ (newestEntry s = None ↔ ∀ e, e ∈ entries → timestamp e ≤ 0)
  ∧ (∀ t, newestEntry s = Some t →
       0 < t ∧ (∃ e, e ∈ entries ∧ timestamp e = t)
       ∧ ∀ e, e ∈ entries → timestamp e ≤ t).
Proof.
  cbv zeta. unfold getStatsSync, getOriginsSync.
  pose proof (stats_fold_origins (readEntriesSync Filters.empty st)
                (∅, None, 0)) as Horigins.
  pose proof (stats_fold_oldest (readEntriesSync Filters.empty st)
                (∅, None, 0)) as Holdest.
  pose proof (stats_fold_newest (readEntriesSync Filters.empty st)
                (∅, None, 0)) as Hnewest.
  cbv zeta in Hnewest.
  destruct (foldl stats_step (∅, None, 0) (readEntriesSync Filters.empty st))
    as [[o old] new].
  cbn [fst snd] in *. cbn [totalRequests totalBodySize origins oldestEntry
                            newestEntry].
  destruct Hnewest as (Hfrom & Hpos & Hall).
  split; [done|]. split; [done|]. split; [done|]. split; [|split; [|split]].
  - destruct old as [t|].
    + destruct Holdest as ([?|(e & He & _)] & _ & _); [done|].
      split; [done|]. intros Hnil. rewrite Hnil in He.
      by apply elem_of_nil in He.
    + by destruct Holdest as [-> _].
  - intros t ->. destruct Holdest as ([?|Hex] & _ & Hleast); done.
  - destruct (Z.eqb_spec new 0) as [->|Hne]; [done|].
    split; [done|]. intros Hnone.
    destruct Hfrom as [->|(e & He & Ht)]; [done|].
    specialize (Hnone e He). lia.
  - intros t. destruct (Z.eqb_spec new 0) as [->|Hne]; [done|].
    intros [= <-]. split; [lia|].
    destruct Hfrom as [->|Hex]; done.
Qed.

(** *** Files kept and files deleted *)

Lemma files_size_empty : files_size (∅ : gmap string C) = 0.
Proof. apply map_fold_empty. Qed.

Lemma files_size_insert (m : gmap string C) (i : string) (x : C) :
  m !! i = None → files_size (<[i := x]> m) = byte_size x + files_size m.
Proof.
  intros Hi. unfold files_size.
  apply (map_fold_insert_L (λ (_ : string) (c : C) acc, byte_size c + acc));
    [|done].
  intros. lia.
Qed.

(** The files that pass a test and the ones that fail it share out the
    files of a directory, in number and in bytes. *)
Lemma files_split (P : string * C → Prop) `{!∀ x, Decision (P x)}
    (m : gmap string C) :
  size m = (size (base.filter P m) + size (base.filter (λ x, ¬ P x) m))%nat
  ∧ files_size m
    = files_size (base.filter P m) + files_size (base.filter (λ x, ¬ P x) m).
Proof.
  split.
  - rewrite <- map_size_disj_union by apply map_disjoint_filter_complement.
    by rewrite map_filter_union_complement.
  - induction m as [|i x m Hi IH] using map_ind.
    + by rewrite !map_filter_empty, files_size_empty.
    + rewrite files_size_insert by done.
      destruct (decide (P (i, x))) as [HP|HP].
      * rewrite map_filter_insert_True by done.
        rewrite (map_filter_insert_not' (λ x, ¬ P x)); [|by intros ?|].
        2:{ intros y Hy. by rewrite Hi in Hy. }
        rewrite files_size_insert; [lia|].
        apply map_lookup_filter_None_2. by left.
      * rewrite (map_filter_insert_True (λ x, ¬ P x)) by done.
        rewrite (map_filter_insert_not' P); [|done|].
        2:{ intros y Hy. by rewrite Hi in Hy. }
        rewrite (files_size_insert (base.filter (λ x, ¬ P x) m)); [lia|].
        apply map_lookup_filter_None_2. by left.
Qed.

Lemma filter_referenced_lookup (keep : list entry) (files : gmap string C)
    (name : string) :
  base.filter (λ f, f.1 ∈ referencedHashes keep) files !! name
  = if bool_decide (name ∈ referencedHashes keep) then files !! name
    else None.
Proof.
  destruct (bool_decide_reflect (name ∈ referencedHashes keep)) as [Hin|Hin].
  - destruct (files !! name) as [c|] eqn:Hc.
    + by apply map_lookup_filter_Some_2.
    + apply map_lookup_filter_None_2. by left.
  - apply map_lookup_filter_None_2. right. by intros c _.
Qed.

(** *** Properties of the clear *)

(** The entry matches the clear criteria: it is older than [before], when
    that is given, and its URL has the origin [origin], when that is
    given. *)
Definition cleared (options : Clear.options) (e : entry) : Prop :=
  (∀ before, Clear.before options = Some before → before ≠ 0 →
     timestamp e < before)
  ∧ (∀ origin, Clear.origin options = Some origin → origin ≠ "" →
       getOriginFromUrl (url e) = Some origin).

(** One criterion at least is given. *)
Definition selective (options : Clear.options) : Prop :=
  (∃ before, Clear.before options = Some before ∧ before ≠ 0)
  ∨ (∃ origin, Clear.origin options = Some origin ∧ origin ≠ "").

Lemma clear_keeps_spec (options : Clear.options) (e : entry) :
  clear_keeps options e = false ↔ cleared options e.
Proof.
  unfold clear_keeps, cleared. destruct options as [before origin]. cbn.
  assert (Horigin :
    (Js.truthy_str origin
     && negb (bool_decide (getOriginFromUrl (url e) = origin)) = false)
    ↔ ∀ o, origin = Some o → o ≠ "" → getOriginFromUrl (url e) = Some o).
  { destruct (Js.truthy_str origin) eqn:Ht; cbn [andb].
    - apply truthy_str_true in Ht as (o & -> & Ho).
      rewrite negb_false_iff, bool_decide_eq_true. split.
      + by intros -> ? [= <-].
      + intros Hall. by apply Hall.
    - rewrite truthy_str_false in Ht. split; [|done].
      intros _ o Ho Hne. exfalso. by apply Hne, (Ht o). }
  assert (Hbefore :
    (match before with
     | Some b => negb (b =? 0) && (b <=? timestamp e)
     | None => false
     end = false)
    ↔ ∀ b, before = Some b → b ≠ 0 → timestamp e < b).
  { destruct before as [b|]; [|done].
    destruct (Z.eqb_spec b 0) as [->|Hb]; cbn [negb andb].
    - split; [|done]. by intros _ ? [= <-].
    - destruct (Z.leb_spec b (timestamp e)) as [Hle|Hlt]; split; try done.
      + intros Hall. specialize (Hall b eq_refl Hb). lia.
      + by intros _ ? [= <-]. }
  rewrite <- Hbefore, <- Horigin.
  destruct (match before with Some _ => _ | None => _ end),
    (Js.truthy_str origin && _); cbn; split; try done; by intros [? ?].
Qed.

Lemma selective_spec (options : Clear.options) :
  selective options
  ↔ negb (match Clear.before options with
          | Some before => negb (before =? 0)
          | None => false
          end)
    && negb (Js.truthy_str (Clear.origin options)) = false.
Proof.
  unfold selective. destruct options as [before origin]. cbn.
  rewrite andb_false_iff, !negb_false_iff, truthy_str_true.
  assert (Hbefore :
    (∃ b, before = Some b ∧ b ≠ 0)
    ↔ match before with Some b => negb (b =? 0) | None => false end = true).
  { destruct before as [b|]; [destruct (Z.eqb_spec b 0) as [->|Hb]|]; cbn.
    - split; [|done]. by intros (? & [= <-] & ?).
    - split; [done|]. intros _. by exists b.
    - split; [|done]. by intros (? & ? & ?). }
  tauto.
Qed.

Section Cleared.
Variables (options : Clear.options) (st : store C).
Hypothesis Hselective : selective options.
Hypothesis Hlog : requests st ≠ None.

Let entries := readEntriesSync Filters.empty st.
Let remaining := base.filter (λ e, clear_keeps options e = true) entries.
Let run := clear options st.

Lemma clear_bodies :
  bodies run.2
  = (base.filter (λ f, f.1 ∈ referencedHashes remaining)) <$> bodies st.
Proof.
  unfold run, clear. apply selective_spec in Hselective as ->.
  destruct (requests st) as [lines|]; [|done]. cbn [snd].
  fold entries remaining.
  destruct (0 <? _), (bodies st) eqn:Hb; cbn; by rewrite ?Hb.
Qed.

Lemma clear_remaining : readEntriesSync Filters.empty run.2 = remaining.
Proof.
  rewrite readEntriesSync_empty. unfold run, clear, parsed_entries.
  apply selective_spec in Hselective as ->.
  destruct (requests st) as [lines|] eqn:Hlines; [|done]. cbn [snd].
  fold entries remaining.
  destruct (Z.ltb_spec 0 (Z.of_nat (length entries)
                          - Z.of_nat (length remaining))) as [Hlt|Hge].
  - cbn. rewrite parsed_entry_lines. by destruct (bodies st).
  - assert (remaining = entries) as ->.
    { apply filter_length_id. fold remaining. lia. }
    unfold entries. rewrite readEntriesSync_empty. unfold parsed_entries.
    rewrite Hlines. destruct (bodies st); cbn; by rewrite Hlines.
Qed.

Lemma clear_result :
  run.1
  = Clear.mkResult
      (Z.of_nat (length entries) - Z.of_nat (length remaining))
      (Z.of_nat (size (base.filter
                         (λ f, f.1 ∉ referencedHashes remaining)
                         (body_files st)))).
Proof.
  unfold run, clear. apply selective_spec in Hselective as ->.
  by destruct (requests st) as [lines|].
Qed.

Lemma clear_meta_lock : meta run.2 = meta st ∧ lock run.2 = lock st.
Proof.
  unfold run, clear. apply selective_spec in Hselective as ->.
  destruct (requests st) as [lines|] eqn:Hlines; [|done]. cbn [snd].
  destruct (0 <? _), (bodies st) eqn:Hb; cbn; by rewrite ?Hb.
Qed.

End Cleared.

(** X7. A [clear] with no criterion removes the log and every body file:
    every query then returns no entry and the statistics are those of an
    empty store.  It reports the number of entries and of body files there
    were, and leaves [.meta] and the lock file alone. *)
Theorem clear_everything (options : Clear.options) (st : store C) :
  Clear.before options = None ∨ Clear.before options = Some 0 →
  Clear.origin options = None ∨ Clear.origin options = Some "" →
  let r := clear options st in
  Clear.deletedEntries r.1
  = Z.of_nat (length (readEntriesSync Filters.empty st))
  ∧ Clear.deletedBodies r.1 = Z.of_nat (size (body_files st))
  ∧ requests r.2 = None
  ∧ body_files r.2 = ∅
  ∧ meta r.2 = meta st
  ∧ lock r.2 = lock st
  ∧ (∀ f, readEntriesSync f r.2 = [])
  ∧ getStatsSync r.2
    = mkStats 0 0 None None
        (if readMeta st =? 0 then None else Some (readMeta st)) ∅.
Proof.
  intros Hbefore Horigin r.
  assert (Hrun : r = (Clear.mkResult
                        (Z.of_nat (length (readEntriesSync Filters.empty st)))
                        (Z.of_nat (size (body_files st))),
                      mkStore None ((λ _, ∅) <$> bodies st) (meta st)
                        (lock st))).
  { unfold r, clear.
    destruct options as [before origin]. cbn in *.
    destruct Hbefore as [-> | ->], Horigin as [-> | ->]; cbn;
      unfold readEntriesSync; by destruct (requests st). }
  rewrite Hrun. cbn [fst snd]. repeat split.
  - unfold body_files. cbn. by destruct (bodies st).
  - unfold getStatsSync, readEntriesSync, readMeta, body_files. cbn.
    destruct (bodies st); cbn; by rewrite files_size_empty.
Qed.

(** X8. A [clear] with a criterion, on a store whose log exists, removes
    from the log exactly the entries that match every criterion given
    (older than [before], of origin [origin]) and keeps the others in
    order.  It then leaves no body file that no entry left refers to,
    leaves the body files the entries left refer to as they were, reports
    the numbers of entries and files removed, and does not touch [.meta] or
    the lock file. *)
Theorem clear_selective (options : Clear.options) (st : store C) :
  selective options → requests st ≠ None →
  let r := clear options st in
  let entries := readEntriesSync Filters.empty st in
  let remaining := readEntriesSync Filters.empty r.2 in
  (∀ e, clear_keeps options e = false ↔ cleared options e)
  ∧ remaining = base.filter (λ e, clear_keeps options e = true) entries
  ∧ Clear.deletedEntries r.1
    = Z.of_nat (length (base.filter (λ e, clear_keeps options e ≠ true)
                          entries))
  ∧ (∀ name, is_Some (body_files r.2 !! name) →
       ∃ e, e ∈ remaining ∧ refers_to e name)
  ∧ (∀ e name, e ∈ remaining → refers_to e name →
       body_files r.2 !! name = body_files st !! name)
  ∧ Clear.deletedBodies r.1
    = Z.of_nat (size (body_files st)) - Z.of_nat (size (body_files r.2))
  ∧ meta r.2 = meta st
  ∧ lock r.2 = lock st.
Proof.
  intros Hsel Hlog r entries remaining.
  assert (Hrem := clear_remaining options st Hsel Hlog).
  fold r remaining in Hrem.
  assert (Hbodies := clear_bodies options st Hsel Hlog). fold r in Hbodies.
  assert (Hres := clear_result options st Hsel Hlog). fold r in Hres.
  destruct (clear_meta_lock options st Hsel Hlog) as [Hmeta Hlock].
  fold entries in Hrem, Hbodies, Hres. rewrite <- Hrem in Hbodies, Hres.
  assert (Hfiles : body_files r.2
                   = base.filter (λ f, f.1 ∈ referencedHashes remaining)
                       (body_files st)).
  { unfold body_files. rewrite Hbodies. destruct (bodies st); cbn; [done|].
    by rewrite map_filter_empty. }
  split; [apply clear_keeps_spec|]. split; [done|]. split; [|split; [|split]].
  - rewrite Hres. cbn. rewrite Hrem.
    pose proof (length_filter_split (λ e, clear_keeps options e = true)
                  entries). lia.
  - intros name [c Hc]. rewrite Hfiles, filter_referenced_lookup in Hc.
    destruct (bool_decide_reflect (name ∈ referencedHashes remaining))
      as [Hin|]; [|done].
    by apply elem_of_referencedHashes.
  - intros e name He Href. rewrite Hfiles, filter_referenced_lookup.
    rewrite bool_decide_eq_true_2; [done|].
    apply elem_of_referencedHashes. by exists e.
  - split; [|done]. rewrite Hres, Hfiles. cbn.
    pose proof (files_split (λ f, f.1 ∈ referencedHashes remaining)
                  (body_files st)) as [Hsize _]. lia.
Qed.

(** X9. [clear] run again with the same options, on the store the first
    run left, removes nothing and changes nothing. *)
Theorem clear_twice (options : Clear.options) (st : store C) :
  clear options (clear options st).2
  = (Clear.mkResult 0 0, (clear options st).2).
Proof.
  destruct (negb (match Clear.before options with
                  | Some before => negb (before =? 0)
                  | None => false
                  end)
            && negb (Js.truthy_str (Clear.origin options))) eqn:Hnot.
  2:{ assert (Hsel : selective options) by by apply selective_spec.
    clear Hnot.
    destruct (requests st) as [lines|] eqn:Hlines.
    + assert (Hlog : requests st ≠ None) by by rewrite Hlines.
      set (st' := (clear options st).2).
      assert (Hrem := clear_remaining options st Hsel Hlog).
      fold st' in Hrem.
      assert (Hbodies := clear_bodies options st Hsel Hlog).
      fold st' in Hbodies.
      set (remaining := base.filter (λ e, clear_keeps options e = true)
                          (readEntriesSync Filters.empty st)) in *.
      assert (Hlog' : requests st' ≠ None).
      { unfold st', clear. apply selective_spec in Hsel as ->.
        rewrite Hlines. cbn [snd]. by destruct (0 <? _), (bodies st). }
      unfold clear at 1. apply selective_spec in Hsel as ->.
      destruct (requests st') as [lines'|] eqn:Hlines'; [|done].
      rewrite Hrem.
      assert (Hsame : base.filter (λ e, clear_keeps options e = true)
                        remaining = remaining).
      { unfold remaining. by apply list_filter_filter_r. }
      rewrite Hsame, Z.sub_diag. cbn [Z.ltb Z.compare].
      assert (Hfiles : body_files st'
                       = base.filter (λ f, f.1 ∈ referencedHashes remaining)
                           (body_files st)).
      { unfold body_files. rewrite Hbodies. destruct (bodies st); cbn; [done|].
        by rewrite map_filter_empty. }
      f_equal.
      * f_equal. rewrite Hfiles.
        replace (base.filter (λ f, f.1 ∉ referencedHashes remaining)
                   (base.filter (λ f, f.1 ∈ referencedHashes remaining)
                      (body_files st))) with (∅ : gmap string C); [done|].
        symmetry. apply map_eq. intros name. rewrite lookup_empty.
        apply map_lookup_filter_None_2. right. intros c Hc.
        apply map_lookup_filter_Some_1_2 in Hc. intros Hn. by apply Hn.
      * assert (Hkeep : ∀ files',
                  bodies st' = Some files' →
                  base.filter (λ f, f.1 ∈ referencedHashes remaining) files'
                  = files').
        { intros files' Hb'. rewrite Hbodies in Hb'.
          destruct (bodies st) as [files|]; [|done]. injection Hb' as <-.
          apply map_filter_filter_r. by intros i x _. }
        clearbody st'. destruct st' as [r [files'|] m l]; [|done].
        unfold set_bodies. cbn. by rewrite (Hkeep files').
    + unfold clear. apply selective_spec in Hsel. rewrite Hsel, Hlines.
      cbn [snd]. by rewrite Hlines. }
  unfold clear. rewrite Hnot. cbn. f_equal.
  - f_equal. unfold body_files. cbn. by destruct (bodies st).
  - f_equal. by destruct (bodies st).
Qed.

(** *** More on the cleanup *)

Lemma insert_by_timestamp_sorted (e : entry) (l : list entry) :
  StronglySorted (λ a b, timestamp a ≤ timestamp b) l →
  StronglySorted (λ a b, timestamp a ≤ timestamp b) (insert_by_timestamp e l).
Proof.
  induction l as [|x l IH]; cbn; intros Hl.
  - by repeat constructor.
  - apply StronglySorted_inv in Hl as [Hl Hx].
    destruct (Z.leb_spec (timestamp e) (timestamp x)) as [Hle|Hlt].
    + constructor; [by constructor|]. constructor; [done|].
      eapply Forall_impl; [done|]. cbn. intros y Hy. lia.
    + constructor; [by apply IH|].
      rewrite insert_by_timestamp_perm. constructor; [lia|done].
Qed.

Lemma sort_by_timestamp_sorted (l : list entry) :
  StronglySorted (λ a b, timestamp a ≤ timestamp b) (sort_by_timestamp l).
Proof.
  induction l as [|x l IH]; cbn; [constructor|].
  by apply insert_by_timestamp_sorted.
Qed.

(** X10. Whatever the options, [cleanup] keeps only entries that were in
    the log and are not older than the TTL, never more of them than there
    were, and leaves every body file that an entry kept refers to as it
    was.  It records the time of the run in [.meta] and does not touch the
    lock file. *)
Theorem cleanup_keeps_what_is_referred_to (options : cleanup_options)
    (now : Z) (st : store C) :
  let r := cleanup options now st in
  let before := readEntriesSync Filters.empty st in
  let after := readEntriesSync Filters.empty r.2 in
  (∀ e, e ∈ after →
     e ∈ before ∧ now - default DEFAULT_TTL (ttl options) ≤ timestamp e)
  ∧ (length after ≤ length before)%nat
  ∧ (∀ e name, e ∈ after → refers_to e name →
       body_files r.2 !! name = body_files st !! name)
  ∧ meta r.2 = Some now
  ∧ lock r.2 = lock st.
Proof.
  intros r before after.
  assert (Hmeta := cleanup_meta options now st).
  assert (Hlock := cleanup_lock options now st).
  destruct (requests st) as [lines|] eqn:Hlines.
  - assert (Hlog : requests st ≠ None) by by rewrite Hlines.
    assert (Hafter := cleanup_survivors options now st Hlog).
    assert (Hbodies := cleanup_bodies options now st Hlog).
    fold r in Hafter, Hbodies. fold after in Hafter.
    set (keep := (cleanup_keep (default DEFAULT_TTL (ttl options))
                    (default DEFAULT_MAX_SIZE (maxSize options)) now st).1)
      in *.
    split; [|split; [|split]].
    + intros e He. rewrite Hafter in He. apply cleanup_keep_young in He.
      apply list_elem_of_filter in He as [Hyoung He].
      unfold before. by rewrite readEntriesSync_empty.
    + rewrite Hafter. unfold before. rewrite readEntriesSync_empty.
      apply cleanup_keep_length.
    + intros e name He Href.
      assert (Hfiles : body_files r.2
                       = base.filter (λ f, f.1 ∈ referencedHashes keep)
                           (body_files st)).
      { unfold body_files at 1. by rewrite Hbodies. }
      rewrite Hfiles, filter_referenced_lookup.
      rewrite bool_decide_eq_true_2; [done|].
      apply elem_of_referencedHashes. exists e. by rewrite <- Hafter.
    + done.
  - assert (Hafter : after = []).
    { unfold after, r. rewrite cleanup_no_log by done.
      unfold readEntriesSync, writeMeta. cbn.
      by rewrite requests_ensure, Hlines. }
    rewrite Hafter. split; [|split; [|split]]; try done.
    + by intros e ?%elem_of_nil.
    + cbn. lia.
    + by intros e name ?%elem_of_nil.
Qed.

(** X11. The report of [cleanup] is exact.  On a store whose log exists,
    [deletedEntries] and [remainingEntries] are the numbers of entries
    removed from the log and left in it, and [deletedBodies] and
    [freedBytes] are the number and the total size of the body files
    removed.  Without a log the report is all zeros, has no
    [remainingEntries], and the body files are left as they were. *)
Theorem cleanup_report (options : cleanup_options) (now : Z) (st : store C) :
  let r := cleanup options now st in
  let before := readEntriesSync Filters.empty st in
  let after := readEntriesSync Filters.empty r.2 in
  match requests st with
  | None =>
      r.1 = mkResult 0 0 0 None
      ∧ requests r.2 = None
      ∧ body_files r.2 = body_files st
  | Some _ =>
      deletedEntries r.1
      = Z.of_nat (length before) - Z.of_nat (length after)
      ∧ remainingEntries r.1 = Some (Z.of_nat (length after))
      ∧ deletedBodies r.1
        = Z.of_nat (size (body_files st)) - Z.of_nat (size (body_files r.2))
      ∧ freedBytes r.1
        = files_size (body_files st) - files_size (body_files r.2)
  end.
Proof.
  intros r before after.
  destruct (requests st) as [lines|] eqn:Hlines.
  - assert (Hlog : requests st ≠ None) by by rewrite Hlines.
    assert (Hafter := cleanup_survivors options now st Hlog).
    assert (Hbodies := cleanup_bodies options now st Hlog).
    assert (Hdeleted := cleanup_deletedEntries options now st Hlog).
    destruct (cleanup_orphans options now st Hlog) as [Hcount Hbytes].
    fold r in Hafter, Hbodies, Hdeleted, Hcount, Hbytes.
    fold after in Hafter.
    set (keep := (cleanup_keep (default DEFAULT_TTL (ttl options))
                    (default DEFAULT_MAX_SIZE (maxSize options)) now st).1)
      in *.
    assert (Hfiles : body_files r.2
                     = base.filter (λ f, f.1 ∈ referencedHashes keep)
                         (body_files st)).
    { unfold body_files at 1. by rewrite Hbodies. }
    destruct (files_split (λ f, f.1 ∈ referencedHashes keep) (body_files st))
      as [Hsize Hsum].
    split; [|split; [|split]].
    + rewrite Hdeleted, Hafter. unfold before.
      by rewrite readEntriesSync_empty.
    + rewrite Hafter. unfold r, cleanup. by rewrite Hlines.
    + rewrite Hcount, Hfiles. lia.
    + rewrite Hbytes, Hfiles. lia.
  - unfold r. rewrite cleanup_no_log by done. cbn [fst snd].
    split; [done|]. unfold writeMeta. cbn.
    by rewrite requests_ensure, bodies_ensure.
Qed.

(** X12. When [cleanup] removes entries to get under the size cap, it
    removes the oldest first: the entries that the TTL keeps are the ones
    left together with the ones dropped, and no entry dropped is newer
    than an entry left.  When none is dropped, the entries left are the
    ones the TTL keeps, in the order of the log. *)
Theorem cleanup_evicts_oldest_first (options : cleanup_options) (now : Z)
    (st : store C) :
  requests st ≠ None →
  let cutoffTime := now - default DEFAULT_TTL (ttl options) in
  let young :=
    base.filter (λ e, cutoffTime ≤ timestamp e)
      (readEntriesSync Filters.empty st) in
  let after := readEntriesSync Filters.empty (cleanup options now st).2 in
  ∃ dropped,
    dropped ++ after ≡ₚ young
    ∧ (∀ d s, d ∈ dropped → s ∈ after → timestamp d ≤ timestamp s)
    ∧ (dropped = [] → after = young).
Proof.
  intros Hlog cutoffTime young after.
  assert (Hafter := cleanup_survivors options now st Hlog).
  fold after in Hafter. rewrite Hafter. unfold cleanup_keep.
  fold cutoffTime young.
  destruct (_ && _) eqn:Hover; cbn [fst].
  - apply andb_true_iff in Hover as [Hlt Hne].
    apply negb_true_iff, bool_decide_eq_false in Hne.
    destruct (evict_suffix (Double.of_Z (default DEFAULT_MAX_SIZE
                                           (maxSize options)))
                (sort_by_timestamp young) (Double.of_Z (disk_size st)))
      as [dropped Hdropped].
    exists dropped. split; [|split].
    + by rewrite <- Hdropped, sort_by_timestamp_perm.
    + intros d s Hd Hs.
      eapply (StronglySorted_app_1_elem_of
                (λ a b : entry, timestamp a ≤ timestamp b));
        [|exact Hd|exact Hs].
      rewrite <- Hdropped. apply sort_by_timestamp_sorted.
    + intros ->. exfalso. cbn [app] in Hdropped.
      pose proof (evict_shrinks (Double.of_Z (default DEFAULT_MAX_SIZE
                                                (maxSize options)))
                    (sort_by_timestamp young) (Double.of_Z (disk_size st)))
        as Hshrink.
      rewrite <- Hdropped in Hshrink.
      assert (sort_by_timestamp young ≠ []) as Hsort.
      { intros Hs. apply Hne, length_zero_iff_nil.
        by rewrite <- sort_by_timestamp_length, Hs. }
      specialize (Hshrink Hsort Hlt). lia.
  - exists []. split; [done|]. split; [|done]. by intros d s ?%elem_of_nil.
Qed.

(** X13. [maybeAutoCleanup] does nothing when the last cleanup recorded in
    [.meta] is an hour old or less.  When it is older, or none is
    recorded, it runs [cleanup] with the default options, and a check made
    within the hour that follows that run does nothing. *)
Theorem maybeAutoCleanup_hourly (now later : Z) (st : store C) :
  let st1 := maybeAutoCleanup now later st in
  (now - readMeta st ≤ AUTO_CLEANUP_INTERVAL → st1 = st)
  ∧ (AUTO_CLEANUP_INTERVAL < now - readMeta st →
     st1 = (cleanup (mkOptions None None) later st).2
     ∧ readMeta st1 = later
     ∧ ∀ now2 later2,
         now2 - later ≤ AUTO_CLEANUP_INTERVAL →
         maybeAutoCleanup now2 later2 st1 = st1).
Proof.
  intros st1. unfold st1, maybeAutoCleanup.
  destruct (Z.ltb_spec AUTO_CLEANUP_INTERVAL (now - readMeta st)) as [Hlt|Hge].
  - split; [lia|]. intros _. split; [done|].
    assert (Hmeta : readMeta (cleanup (mkOptions None None) later st).2
                    = later).
    { unfold readMeta. by rewrite cleanup_meta. }
    split; [done|]. intros now2 later2 Hsoon. rewrite Hmeta.
    destruct (Z.ltb_spec AUTO_CLEANUP_INTERVAL (now2 - later)); [lia|done].
  - split; [done|lia].
Qed.

(** *** The status filter as text *)

(** X14. A [status] filter given as the decimal text of an integer selects
    the entries that the integer itself selects: the two queries return
    the same entries, whatever the other filters. *)
Theorem status_filter_decimal_string (n : Z)
    (origin method type : option string) (since : option Z) (hasBody : option bool) (excludeStatic : bool)
    (urlPattern : option string) (last : option Z) (st : store C) :
  readEntriesSync
    (Filters.mk origin method (Some (StatusString (Js.String_of_Z n))) type
       since hasBody excludeStatic urlPattern last) st
  = readEntriesSync
      (Filters.mk origin method (Some (StatusNumber n)) type since hasBody
         excludeStatic urlPattern last) st.
Proof.
  assert (Hstatus : ∀ entry_status,
            status_passes entry_status
              (Some (StatusString (Js.String_of_Z n)))
            = status_passes entry_status (Some (StatusNumber n))).
  { intros entry_status. unfold status_passes.
    rewrite (Decimal.endsWith_other_char
               (λ c, Js.is_digit c || Ascii.eqb c "-"));
      [|apply Decimal.String_of_Z_chars|done].
    by rewrite Decimal.parseInt_String_of_Z. }
  unfold readEntriesSync. destruct (requests st) as [lines|]; [|done].
  cbn [Filters.last].
  replace (omap (read_line (Filters.mk origin method
                              (Some (StatusString (Js.String_of_Z n))) type
                              since hasBody excludeStatic urlPattern last))
             lines)
    with (omap (read_line (Filters.mk origin method (Some (StatusNumber n))
                             type since hasBody excludeStatic urlPattern
                             last)) lines); [done|].
  apply list_omap_ext, Forall2_same_length_lookup_2; [done|].
  intros i x y Hx Hy. simplify_eq. destruct x as [b|b|e b]; try done.
  unfold read_line, matchesFilters. cbn [Filters.origin Filters.method
    Filters.status Filters.type Filters.since Filters.hasBody
    Filters.excludeStatic Filters.urlPattern]. by rewrite Hstatus.
Qed.
End Runtime.

(** *** Runs on concrete stores *)

(** Stand-ins for the runtime in the runs below: the digest is SHA-256 on
    the two buffers used, a line of JSON has 200 bytes, and the runs filter
    neither by origin nor by URL pattern. *)
Definition sample_sha256 (b : Buffer) : string :=
  if String.eqb (string_of_list_byte b) "test"
  then "9f86d081884c7d659a2feaa0c55ad015a3bf4f1b2b0b822cd15d6c15b0f00a08"
  else "e3b0c44298fc1c149afbf4c8996fb92427ae41e4649b934ca495991b7852b855".
Definition sample_length (e : entry) : Z := 200.
Definition sample_origin (url : string) : option string := None.
Definition sample_test (source s : string) : option bool := None.

(** 2025-11-03T00:00:00Z in milliseconds. *)
Definition t0 : Z := 1762128000000.

Definition api_call (ts : Z) : entry :=
  mkEntry "1762127000000-0a1b2c3d" ts
    (mkInfo "https://example.com/api/items" "GET" 200
       (Some "application/json") ∅ None None).

Definition download (ts : Z) (hash : string) : entry :=
  mkEntry "1762127500000-4e5f6a7b" ts
    (mkInfo "https://example.com/media/talk" "GET" 200
       (Some "video/mp4") ∅ None (Some hash)).

(** Two entries of the last hour; the second has a response body of
    300,000,000 bytes. *)
Definition big_store : store Z :=
  mkStore
    (Some [Parsed (api_call (t0 - 1000000)) 201;
           Parsed (download (t0 - 500000) "9f86d081884c7d65") 201])
    (Some {[ "9f86d081884c7d65.res" := 300000000 ]})
    None None.

(** An entry of 25 hours ago with its body, an orphaned body, and two
    entries of the last hour, one with a body. *)
Definition small_store : store Z :=
  mkStore
    (Some [Parsed (download (t0 - 90000000) "e3b0c44298fc1c14") 201;
           Malformed 17;
           Parsed (api_call (t0 - 1000000)) 201;
           Parsed (download (t0 - 500000) "9f86d081884c7d65") 201])
    (Some {[ "9f86d081884c7d65.res" := 1024;
             "e3b0c44298fc1c14.res" := 1024;
             "0000000000000000.req" := 512 ]})
    (Some (t0 - 7200000)) None.

Definition sample_cleanup {C} `{ByteSize C} :=
  @cleanup C _ sample_length sample_origin sample_test.
Definition sample_read {C} :=
  @readEntriesSync C sample_origin sample_test.

(** C1 does not hold as the specification states it.  [cleanup] with the
    default cap on
    [big_store] removes the older entry, halves its estimate to 150,000,201
    and stops: one entry is left and the log and the body file it refers
    to take 300,000,201 bytes, more than the cap of 209,715,200. *)
Lemma cleanup_leaves_store_over_cap :
  sample_read Filters.empty (sample_cleanup (mkOptions None None) t0 big_store).2
  = [download (t0 - 500000) "9f86d081884c7d65"]
  ∧ disk_size (sample_cleanup (mkOptions None None) t0 big_store).2
    = 300000201
  ∧ ¬ (disk_size (sample_cleanup (mkOptions None None) t0 big_store).2
       ≤ DEFAULT_MAX_SIZE
       ∨ sample_read Filters.empty
           (sample_cleanup (mkOptions None None) t0 big_store).2 = []).
Proof.
  split; [vm_compute; reflexivity|]. split; [vm_compute; reflexivity|].
  intros [Hle|Hnil].
  - vm_compute in Hle. by apply Hle.
  - vm_compute in Hnil. discriminate Hnil.
Qed.

(** Without [requests.jsonl] the body files stay, referred to or not. *)
Lemma cleanup_without_log_keeps_bodies :
  body_files
    (sample_cleanup (mkOptions None None) t0
       (mkStore None (Some {[ "9f86d081884c7d65.res" := 1024 ]}) None None)).2
  !! "9f86d081884c7d65.res" = Some 1024.
Proof. vm_compute. reflexivity. Qed.

(** C1 (as amended) on [big_store]. *)
Lemma cleanup_no_orphan_bodies_witness :
  requests big_store ≠ None
  ∧ let st' := (sample_cleanup (mkOptions None None) t0 big_store).2 in
    let cap := default DEFAULT_MAX_SIZE (maxSize (mkOptions None None)) in
    let estimate :=
      (cleanup_keep sample_origin sample_test
         (default DEFAULT_TTL (ttl (mkOptions None None))) cap t0
         big_store).2 in
    (∀ name, is_Some (body_files st' !! name) →
       ∃ e, e ∈ sample_read Filters.empty st' ∧ refers_to e name)
    ∧ (PrimFloat.ltb (Double.of_Z cap) estimate = false
       ∨ sample_read Filters.empty st' = []).
Proof.
  split; [done|].
  apply (cleanup_no_orphan_bodies sample_length sample_origin sample_test).
  done.
Defined.

(** C2 does not hold as the specification states it.  A second [cleanup]
    of [big_store], at the same instant, finds 300,000,201 bytes on disk,
    over the cap, removes the entry the first run left, and with it the
    body file. *)
Lemma cleanup_second_run_deletes :
  deletedEntries
    (sample_cleanup (mkOptions None None) t0
       (sample_cleanup (mkOptions None None) t0 big_store).2).1 = 1
  ∧ deletedBodies
      (sample_cleanup (mkOptions None None) t0
         (sample_cleanup (mkOptions None None) t0 big_store).2).1 = 1
  ∧ requests
      (sample_cleanup (mkOptions None None) t0
         (sample_cleanup (mkOptions None None) t0 big_store).2).2
    ≠ requests (sample_cleanup (mkOptions None None) t0 big_store).2
  ∧ bodies
      (sample_cleanup (mkOptions None None) t0
         (sample_cleanup (mkOptions None None) t0 big_store).2).2
    ≠ bodies (sample_cleanup (mkOptions None None) t0 big_store).2.
Proof.
  repeat split; vm_compute; congruence.
Qed.

(** C2 (as amended) on [small_store], the second run a minute after the
    first. *)
Lemma cleanup_twice_witness :
  (∀ e, e ∈ sample_read Filters.empty
              (sample_cleanup (mkOptions None None) t0 small_store).2 →
     (t0 + 60000) - default DEFAULT_TTL (ttl (mkOptions None None))
     ≤ timestamp e)
  ∧ 0 ≤ disk_size (sample_cleanup (mkOptions None None) t0 small_store).2
    ≤ default DEFAULT_MAX_SIZE (maxSize (mkOptions None None))
  ∧ default DEFAULT_MAX_SIZE (maxSize (mkOptions None None)) < 2 ^ 53
  ∧ let r1 := sample_cleanup (mkOptions None None) t0 small_store in
    let r2 := sample_cleanup (mkOptions None None) (t0 + 60000) r1.2 in
    deletedEntries r2.1 = 0 ∧ deletedBodies r2.1 = 0 ∧ freedBytes r2.1 = 0
    ∧ requests r2.2 = requests r1.2 ∧ bodies r2.2 = bodies r1.2.
Proof.
  assert (Hyoung : ∀ e, e ∈ sample_read Filters.empty
              (sample_cleanup (mkOptions None None) t0 small_store).2 →
     (t0 + 60000) - default DEFAULT_TTL (ttl (mkOptions None None))
     ≤ timestamp e).
  { intros e He. vm_compute in He.
    apply elem_of_cons in He as [->|He]; [by vm_compute|].
    apply list_elem_of_singleton in He as ->. by vm_compute. }
  assert (Hsize : 0 ≤ disk_size
                        (sample_cleanup (mkOptions None None) t0
                           small_store).2
                  ≤ default DEFAULT_MAX_SIZE (maxSize (mkOptions None None))).
  { split; vm_compute; discriminate. }
  assert (Hmax : default DEFAULT_MAX_SIZE (maxSize (mkOptions None None))
                 < 2 ^ 53) by reflexivity.
  split; [exact Hyoung|]. split; [exact Hsize|]. split; [exact Hmax|].
  exact (cleanup_twice sample_length sample_origin sample_test
           (mkOptions None None) t0 (t0 + 60000) small_store Hyoung Hsize
           Hmax).
Defined.

(** C4 on [small_store]: the entry of 25 hours ago goes, the two of the last
    hour stay. *)
Lemma cleanup_default_ttl_witness :
  0 ≤ disk_size small_store ≤ DEFAULT_MAX_SIZE
  ∧ sample_read Filters.empty
      (sample_cleanup (mkOptions None None) t0 small_store).2
    = [api_call (t0 - 1000000); download (t0 - 500000) "9f86d081884c7d65"]
  ∧ meta (sample_cleanup (mkOptions None None) t0 small_store).2 = Some t0.
Proof.
  assert (Hsize : 0 ≤ disk_size small_store ≤ DEFAULT_MAX_SIZE).
  { split; vm_compute; discriminate. }
  split; [exact Hsize|].
  destruct (cleanup_default_ttl sample_length sample_origin sample_test
              t0 small_store Hsize) as (Hafter & _ & _ & Hmeta).
  split; [|exact Hmeta].
  etrans; [exact Hafter|]. vm_compute. reflexivity.
Defined.

(** Another process takes the lock between the removal of a stale lock and
    the second attempt to take it: the entry is appended without the lock,
    and the lock of the other process stays. *)
Example append_loses_race_for_lock :
  let others := λ (k : nat) (l : option Z),
                  if (k =? 3)%nat then Some t0 else l in
  let run := appendEntrySync sample_length others t0 "0a1b2c3d"
               (mkArg None None (info (api_call 0)))
               (mkStore (Some []) (Some ∅) None (Some (t0 - 10000))
                : store Z) in
  run.1 = inr (mkEntry "1762128000000-0a1b2c3d" t0 (info (api_call 0)))
  ∧ requests run.2
    = Some [Parsed (mkEntry "1762128000000-0a1b2c3d" t0 (info (api_call 0)))
              201]
  ∧ lock run.2 = Some t0.
Proof. repeat split; vm_compute; reflexivity. Qed.

(** The size check is at the cap: a store of exactly 200 MB is not over it,
    one byte more is. *)
Example over_cap_boundary :
  over_cap DEFAULT_MAX_SIZE
    (mkStore None (Some {[ "9f86d081884c7d65.res" := 209715200 ]}) None None)
  = false
  ∧ over_cap DEFAULT_MAX_SIZE
      (mkStore None (Some {[ "9f86d081884c7d65.res" := 209715201 ]}) None
         None)
    = true.
Proof. split; vm_compute; reflexivity. Qed.

(** A second run 24 hours later removes the entries the first run kept:
    they have aged past the TTL. *)
Example cleanup_second_run_later_expires :
  deletedEntries
    (sample_cleanup (mkOptions None None) (t0 + DEFAULT_TTL)
       (sample_cleanup (mkOptions None None) t0 small_store).2).1 = 2.
Proof. vm_compute. reflexivity. Qed.

(** The run of the specification's scenario in small: the old entry and
    the two bodies nothing refers to any more are gone. *)
Example cleanup_small_store :
  (sample_cleanup (mkOptions None None) t0 small_store).1
  = mkResult 1 2 1536 (Some 2)
  ∧ dom (body_files (sample_cleanup (mkOptions None None) t0 small_store).2)
    = {[ "9f86d081884c7d65.res" ]}.
Proof. split; vm_compute; reflexivity. Qed.


(** A script fetched with a query string. *)
Definition script_call : entry :=
  mkEntry "1762127900000-8c9d0e1f" (t0 - 100000)
    (mkInfo "https://cdn.example.com/app.js?v=3" "GET" 200
       (Some "text/javascript") ∅ None None).

Definition exclude_static : Filters.t :=
  Filters.mk None None None None None None true None None.

(** C3 does not hold as the specification states it.  With [excludeStatic]
    the query drops a script fetched with a query string, although its URL
    does not end in a static asset extension and so satisfies every filter
    given, in the reading of the specification. *)
Lemma query_drops_script_with_query_string :
  script_call ∈ parsed_entries
                  (mkStore (Some [Parsed script_call 201]) None None None
                   : store Z)
  ∧ satisfies_as_specified sample_origin sample_test script_call
      exclude_static
  ∧ sample_read exclude_static
      (mkStore (Some [Parsed script_call 201]) None None None : store Z)
    = [].
Proof.
  split; [|split].
  - vm_compute. by left.
  - unfold satisfies_as_specified, satisfies. repeat split; try done.
    intros _ (ext & Hext & Hends). revert Hends.
    unfold staticExts in Hext.
    repeat (apply elem_of_cons in Hext as [->|Hext]; [by vm_compute|]).
    by apply elem_of_nil in Hext.
  - vm_compute. reflexivity.
Qed.

(** A glob becomes a regular expression: the special characters are
    escaped, the question mark is not, and each star is [.*]. *)
Example glob_to_regexp :
  replace_stars (escape_specials "https://*.example.com/api?q=*")
  = "https://.*\.example\.com/api?q=.*".
Proof. reflexivity. Qed.

(** The status filter [2xx] lets a status of 20 through: its decimal
    rendering starts with 2. *)
Example status_class_by_prefix :
  status_passes 20 (Some (StatusString "2xx")) = true
  ∧ status_passes 204 (Some (StatusString "2xx")) = true
  ∧ status_passes 404 (Some (StatusString "2xx")) = false
  ∧ status_passes 404 (Some (StatusString "404")) = true.
Proof. repeat split; vm_compute; reflexivity. Qed.


(** [clear] on [small_store]. *)
Definition sample_clear {C} := @clear C sample_length sample_origin sample_test.

(** With no criterion the three entries and the three body files go. *)
Lemma clear_everything_witness :
  (Clear.before (Clear.mkOptions None None) = None
   ∨ Clear.before (Clear.mkOptions None None) = Some 0)
  ∧ (Clear.origin (Clear.mkOptions None None) = None
     ∨ Clear.origin (Clear.mkOptions None None) = Some "")
  ∧ sample_clear (Clear.mkOptions None None) small_store
    = (Clear.mkResult 3 3, mkStore None (Some ∅) (Some (t0 - 7200000)) None).
Proof.
  split; [left; reflexivity|]. split; [left; reflexivity|].
  destruct (clear_everything sample_length sample_origin sample_test
              (Clear.mkOptions None None) small_store
              (or_introl eq_refl) (or_introl eq_refl))
    as (_ & _ & Hlog & _).
  vm_compute in Hlog. vm_compute. reflexivity.
Defined.

(** With [before] an hour ago, the entry of 25 hours ago goes, with its
    body and the orphaned body. *)
Lemma clear_selective_witness :
  selective (Clear.mkOptions (Some (t0 - 3600000)) None)
  ∧ requests small_store ≠ None
  ∧ sample_read Filters.empty
      (sample_clear (Clear.mkOptions (Some (t0 - 3600000)) None)
         small_store).2
    = [api_call (t0 - 1000000); download (t0 - 500000) "9f86d081884c7d65"]
  ∧ (sample_clear (Clear.mkOptions (Some (t0 - 3600000)) None)
       small_store).1
    = Clear.mkResult 1 2.
Proof.
  assert (Hsel : selective
                   (Clear.mkOptions (Some (t0 - 3600000)) None)).
  { left. exists (t0 - 3600000). split; [reflexivity|].
    vm_compute. discriminate. }
  assert (Hlog : requests small_store ≠ None) by discriminate.
  split; [exact Hsel|]. split; [exact Hlog|].
  destruct (clear_selective sample_length sample_origin sample_test
              (Clear.mkOptions (Some (t0 - 3600000)) None) small_store
              Hsel Hlog) as (_ & Hremaining & _).
  split.
  - etrans; [exact Hremaining|]. vm_compute. reflexivity.
  - vm_compute. reflexivity.
Defined.

(** On [big_store], over the cap, the older of the two entries is
    dropped. *)
Lemma cleanup_evicts_oldest_first_witness :
  requests big_store ≠ None
  ∧ ∃ dropped,
      dropped
      ++ sample_read Filters.empty
           (sample_cleanup (mkOptions None None) t0 big_store).2
      ≡ₚ base.filter (λ e, t0 - DEFAULT_TTL ≤ timestamp e)
           (sample_read Filters.empty big_store)
      ∧ (∀ d s, d ∈ dropped →
           s ∈ sample_read Filters.empty
                 (sample_cleanup (mkOptions None None) t0 big_store).2 →
           timestamp d ≤ timestamp s)
      ∧ (dropped = [] →
         sample_read Filters.empty
           (sample_cleanup (mkOptions None None) t0 big_store).2
         = base.filter (λ e, t0 - DEFAULT_TTL ≤ timestamp e)
             (sample_read Filters.empty big_store)).
Proof.
  assert (Hlog : requests big_store ≠ None) by discriminate.
  split; [exact Hlog|].
  exact (cleanup_evicts_oldest_first sample_length sample_origin sample_test
           (mkOptions None None) t0 big_store Hlog).
Defined.

(** The origin of the two URLs of the runs below. *)
Definition example_origin (url : string) : option string :=
  if Js.startsWith url "https://example.com/" then Some "https://example.com"
  else None.

(** The three entries of [small_store] are of one origin. *)
Lemma getOriginsSync_counts_witness :
  ("https://example.com" ∉ Js.Object_prototype_names)
  ∧ getOriginsSync example_origin sample_test small_store
      !! "https://example.com" = Some 3.
Proof.
  assert (Hname : "https://example.com" ∉ Js.Object_prototype_names).
  { intros Hin. unfold Js.Object_prototype_names in Hin.
    repeat (apply elem_of_cons in Hin as [Hin|Hin]; [discriminate|]).
    by apply elem_of_nil in Hin. }
  split; [exact Hname|].
  etrans;
    [exact (getOriginsSync_counts example_origin sample_test small_store
              "https://example.com" Hname)|].
  vm_compute. reflexivity.
Defined.

(** The three entries of [small_store] are of one origin; the statistics
    give the oldest and the newest of them and the bytes of the three body
    files. *)
Example stats_of_small_store :
  getStatsSync example_origin sample_test small_store
  = mkStats 3 2560 (Some (t0 - 90000000)) (Some (t0 - 500000))
      (Some (t0 - 7200000)) {[ "https://example.com" := 3 ]}.
Proof. vm_compute. reflexivity. Qed.

(** An entry with the timestamp 0 is not seen by [newestEntry]. *)
Example stats_of_epoch_entry :
  let st := mkStore (Some [Parsed (api_call 0) 201]) None None None
            : store Z in
  oldestEntry (getStatsSync example_origin sample_test st) = Some 0
  ∧ newestEntry (getStatsSync example_origin sample_test st) = None.
Proof. vm_compute. done. Qed.

(** The hourly check on [small_store], cleaned two hours before [t0]. *)
Example auto_cleanup_of_small_store :
  let st1 := maybeAutoCleanup sample_length sample_origin sample_test
               t0 (t0 + 5) small_store in
  meta st1 = Some (t0 + 5)
  ∧ maybeAutoCleanup sample_length sample_origin sample_test
      (t0 + 3600000) (t0 + 3600005) st1 = st1.
Proof. vm_compute. done. Qed.

(** *** A body from capture to cleanup *)

Section Capture.

Variable sha256_hex : Buffer → string.
Variable JSON_length : entry → Z.
Variable URL_origin : string → option string.
Variable RegExp_test : string → string → option bool.

(** X15. A response body that is stored, then referred to by an entry
    that is appended, is still read back after a [cleanup] that keeps
    the entry: [readBody] gives the bytes stored, or the bytes that were
    already in the file of that hash. *)
Theorem body_of_kept_entry_survives_cleanup (content : body_content)
    (e : entry_arg) (now later : Z) (random_hex : string)
    (options : cleanup_options) (st : store Buffer) :
  let stored := storeBody sha256_hex content false st in
  let appended := appendEntry JSON_length now random_hex e stored.2 in
  let cleaned :=
    cleanup JSON_length URL_origin RegExp_test options later appended.2 in
  stored.1 ≠ "" →
  responseBodyHash (arg_info e) = Some stored.1 →
  appended.1 ∈ readEntriesSync URL_origin RegExp_test Filters.empty cleaned.2 →
  readBody stored.1 false cleaned.2
  = Some (default (to_buffer content) (readBody stored.1 false st)).
Proof.
  intros stored appended cleaned Hhash Hrefers Hkept.
  assert (Hlog : requests appended.2 ≠ None) by done.
  assert (Hbodies := cleanup_bodies JSON_length URL_origin RegExp_test
                       options later appended.2 Hlog).
  assert (Hafter := cleanup_survivors JSON_length URL_origin RegExp_test
                      options later appended.2 Hlog).
  fold cleaned in Hbodies, Hafter. rewrite <- Hafter in Hbodies.
  assert (Hleft : body_files cleaned.2
                  = base.filter
                      (λ f, f.1 ∈ referencedHashes
                                    (readEntriesSync URL_origin RegExp_test
                                       Filters.empty cleaned.2))
                      (body_files appended.2)).
  { unfold body_files at 1. by rewrite Hbodies. }
  unfold readBody at 1. rewrite Hleft, filter_referenced_lookup.
  rewrite bool_decide_eq_true_2.
  - assert (Hfiles : body_files appended.2 = body_files stored.2).
    { unfold appended, appendEntry, appendFileSync, body_files. cbn.
      by rewrite bodies_ensure. }
    rewrite Hfiles.
    pose proof (storeBody_files sha256_hex content false st) as Hstored.
    cbv zeta in Hstored. fold stored in Hstored. rewrite Hstored.
    unfold readBody.
    destruct (body_files st !! body_name stored.1 false) as [b|] eqn:Hb.
    + by rewrite Hb.
    + by rewrite lookup_insert_eq.
  - apply elem_of_referencedHashes. exists appended.1. split; [done|].
    right. exists stored.1. by split; [|split].
Qed.

End Capture.

(** A store with an empty log and no [bodies] directory, and a call whose
    response body is the one [sample_sha256] knows. *)
Definition empty_store : store Buffer := mkStore (Some []) None None None.
Definition call_with_body : entry_arg :=
  mkArg None None
    (mkInfo "https://example.com/api/items" "GET" 200 None ∅ None
       (Some "9f86d081884c7d65")).

(** The body of the entry appended to [empty_store] is read back after the
    cleanup of a second later. *)
Lemma body_of_kept_entry_survives_cleanup_witness :
  let stored := storeBody sample_sha256 (StringContent "test") false
                  empty_store in
  let appended :=
    appendEntry sample_length t0 "0a1b2c3d" call_with_body stored.2 in
  let cleaned :=
    sample_cleanup (mkOptions None None) (t0 + 1000) appended.2 in
  stored.1 ≠ ""
  ∧ responseBodyHash (arg_info call_with_body) = Some stored.1
  ∧ appended.1 ∈ sample_read Filters.empty cleaned.2
  ∧ readBody stored.1 false cleaned.2 = Some (list_byte_of_string "test").
Proof.
  cbv zeta.
  assert (Hhash : (storeBody sample_sha256 (StringContent "test") false
                     empty_store).1 ≠ "")
    by (vm_compute; discriminate).
  assert (Hkept :
    (appendEntry sample_length t0 "0a1b2c3d" call_with_body
       (storeBody sample_sha256 (StringContent "test") false empty_store).2).1
    ∈ sample_read Filters.empty
        (sample_cleanup (mkOptions None None) (t0 + 1000)
           (appendEntry sample_length t0 "0a1b2c3d" call_with_body
              (storeBody sample_sha256 (StringContent "test") false
                 empty_store).2).2).2).
  { vm_compute. left. }
  split; [exact Hhash|]. split; [reflexivity|]. split; [exact Hkept|].
  exact (body_of_kept_entry_survives_cleanup sample_sha256 sample_length
           sample_origin sample_test (StringContent "test") call_with_body
           t0 (t0 + 1000) "0a1b2c3d" (mkOptions None None) empty_store
           Hhash eq_refl Hkept).
Defined.
End NetworkStore.

(** ** The executor of [surf do] workflows *)

Module DoExecutor.

Local Open Scope Z_scope.

(** Maximum iterations for loops (safety cap) *)
Definition MAX_LOOP_ITERATIONS : Z := 100.

(** Commands that trigger auto-wait after execution *)
Definition AUTO_WAIT_COMMANDS : list string :=
  ["go"; "navigate"; "click"; "key"; "form.fill"; "submit";
   "tab.switch"; "tab.new"; "back"; "forward"].

(** Auto-wait strategies per command type, in the order of the object's
    properties. *)
Definition AUTO_WAIT_MAP : list (string * string) :=
  [("navigate", "wait.load"); ("go", "wait.load"); ("click", "wait.dom");
   ("key", "wait.dom"); ("form.fill", "wait.dom"); ("submit", "wait.load");
   ("tab.switch", "wait.load"); ("tab.new", "wait.load");
   ("back", "wait.load"); ("forward", "wait.load")].

Definition shouldAutoWait (cmd : string) : bool :=
  existsb (λ c, String.eqb cmd c || Js.startsWith cmd (c +:+ "."))
    AUTO_WAIT_COMMANDS.

(** [obj[key]] on an object kept as the list of its properties. *)
Fixpoint property {A} (key : string) (props : list (string * A)) : option A :=
  match props with
  | [] => None
  | (k, v) :: rest => if String.eqb k key then Some v else property key rest
  end.

(** The properties [AUTO_WAIT_MAP] inherits from [Object.prototype] are not
    modelled: no command is called [constructor] or [toString]. *)
Definition getAutoWaitCommand (cmd : string) : option string :=
  (* Check exact match first *)
  match property cmd AUTO_WAIT_MAP with
  | Some waitCmd => Some waitCmd
  | None =>
      (* Check prefix match *)
      snd <$> List.find (λ entry, Js.startsWith cmd (entry.1 +:+ "."))
                AUTO_WAIT_MAP
  end.

(** *** Values *)

(** The values of the workflow: what [JSON.parse] returns, [undefined],
    and the functions that every object inherits from [Object.prototype],
    known by the name of the property.  Numbers are integers; [NaN] only
    comes out of [parseInt] and is the [None] of its result. *)
Inductive value :=
| VUndefined
| VNull
| VBool (b : bool)
| VNumber (n : Z)
| VString (s : string)
| VArray (items : list value)
| VObject (props : list (string * value))
| VFunction (name : string).

(** [!!v] *)
Definition truthy (v : value) : bool :=
  match v with
  | VUndefined | VNull => false
  | VBool b => b
  | VNumber n => negb (n =? 0)
  | VString s => negb (String.eqb s "")
  | VArray _ | VObject _ | VFunction _ => true
  end.

(** [v.key] and [v?.key]; a value without the property gives [undefined]. *)
Definition prop (key : string) (v : value) : value :=
  match v with
  | VObject props => default VUndefined (property key props)
  | _ => VUndefined
  end.

(** [v[0]] and [v?.[0]] *)
Definition index0 (v : value) : value :=
  match v with
  | VArray (x :: _) => x
  | VString (String c _) => VString (String c EmptyString)
  | VObject props => default VUndefined (property "0" props)
  | _ => VUndefined
  end.

(** [typeof v] *)
Definition typeof (v : value) : string :=
  match v with
  | VUndefined => "undefined"
  | VNull | VArray _ | VObject _ => "object"
  | VBool _ => "boolean"
  | VNumber _ => "number"
  | VString _ => "string"
  | VFunction _ => "function"
  end.

(** [String(v)]: an array is its elements joined by commas, [null] and
    [undefined] among them as the empty string; a built-in function is
    printed without its code, [Object.prototype.constructor] under its
    name [Object]. *)
Fixpoint String_of (v : value) : string :=
  match v with
  | VUndefined => "undefined"
  | VNull => "null"
  | VBool true => "true"
  | VBool false => "false"
  | VNumber n => Js.String_of_Z n
  | VString s => s
  | VArray items =>
      (fix join (l : list value) : string :=
         match l with
         | [] => ""
         | x :: rest =>
             match x with
             | VUndefined | VNull => ""
             | _ => String_of x
             end +:+
             match rest with
             | [] => ""
             | _ => "," +:+ join rest
             end
         end) items
  | VObject _ => "[object Object]"
  | VFunction name =>
      "function " +:+ (if String.eqb name "constructor" then "Object" else name)
      +:+ "() { [native code] }"
  end.

(** A workflow step: a leaf [{ cmd, args, as }], a loop with [repeat], or
    a loop with [each].  A step object with a [repeat] property is a
    [Repeat] whatever else it has, and one with [each] and no [repeat] is
    an [Each]; [steps] is [None] when the property is not an array. *)
Record leaf := mkLeaf {
  cmd : string;
  args : option value;
  as_ : option string
}.

Inductive step :=
| Leaf (l : leaf)
| Repeat (repeat : value) (steps : option (list step)) (until : option leaf)
| Each (each : value) (steps : option (list step)) (as_ : option string).

Record options := mkOptions {
  onError : string;
  autoWait : bool;
  stepDelay : Z
}.

(** [{ onError = 'stop', autoWait = true, stepDelay = 100 }] *)
Definition default_options : options := mkOptions "stop" true 100.

(** The request [sendDoRequest] writes on the socket, without its id. *)
Record request := mkRequest {
  tool : string;
  tool_args : value
}.

(** What the promise of [sendDoRequest] settles to. *)
Inductive outcome :=
| Resolved (resp : value)
| Rejected (message : string).

(** The result of [executeSingleStep]. *)
Record single_result := mkSingle {
  success : bool;
  error : value;
  output : value
}.

(** The result of [executeStep]. *)
Record step_result := mkStepResult {
  step_success : bool;
  step_error : value;
  stepsExecuted : Z
}.

(** An element of [results] and the result of [executeDoSteps], without
    the timings. *)
Record step_report := mkReport {
  report_step : Z;
  report_ok : bool;
  report_error : value
}.

(** [failed_steps] is the property [failed] and [workflow_error] the
    property [error]; [None] is a property that the object does not
    have. *)
Record do_result := mkDoResult {
  status : string;
  completedSteps : Z;
  totalSteps : Z;
  results : list step_report;
  failed_steps : option Z;
  workflow_error : option value
}.

(** The variables: a flat object, kept as the map of its own properties. *)
Abbreviation vars_map := (gmap string value).

(** What an object literal inherits under [name]: [Object.prototype] itself
    under [__proto__], which no operation of the executor tells from an
    empty object, and a built-in function under the other names of
    [Object.prototype]. *)
Definition inherited (name : string) : value :=
  if String.eqb name "__proto__" then VObject []
  else if existsb (String.eqb name) Js.Object_prototype_names
  then VFunction name
  else VUndefined.

(** [vars[name]]: the own property, or else the inherited one. *)
Definition get_var (name : string) (vars : vars_map) : value :=
  match vars !! name with
  | Some val => val
  | None => inherited name
  end.

Section Engine.

(** [JSON.parse(text)], [None] when it throws, and [JSON.stringify(v)]. *)
Variable JSON_parse : string → option value.
Variable JSON_stringify : value → string.

(** The daemon behind the socket: [sendDoRequest] sends a request and the
    promise settles; the daemon and the browser move on. *)
Variable World : Type.
Variable sendDoRequest : request → World → outcome * World.

(** *** Variable substitution *)

(** [\w] *)
Definition is_word (c : ascii) : bool :=
  Js.is_upper c || Js.is_lower c || Js.is_digit c || Ascii.eqb c "_".

(** The longest run of word characters at the head of [s], and the rest. *)
Fixpoint take_word (s : string) : string * string :=
  match s with
  | String c rest =>
      if is_word c then
        let '(w, r) := take_word rest in (String c w, r)
      else (EmptyString, s)
  | EmptyString => (EmptyString, EmptyString)
  end.

(** A match of [%\{(\w+)\}] at the head of [s]: the name and the rest. *)
Definition take_ref (s : string) : option (string * string) :=
  match s with
  | String "%" (String "{" rest) =>
      match take_word rest with
      | (String c name, String "}" rest') => Some (String c name, rest')
      | _ => None
      end
  | _ => None
  end.

(** [template.match(/^%\{(\w+)\}$/)]: the name when the whole string is one
    reference. *)
Definition whole_ref (template : string) : option string :=
  match take_ref template with
  | Some (name, EmptyString) => Some name
  | _ => None
  end.

(** What [replace] puts for the reference to [name]. *)
Definition interpolate (vars : vars_map) (name : string) : string :=
  match get_var name vars with
  | VUndefined => "%{" +:+ name +:+ "}"
  | (VNull | VArray _ | VObject _) as val => JSON_stringify val
  | val => String_of val
  end.

(** [template.replace(/%\{(\w+)\}/g, ...)], with the length of the
    template as fuel. *)
Fixpoint replace_refs (fuel : nat) (vars : vars_map) (s : string) : string :=
  match fuel with
  | O => s
  | S fuel =>
      match take_ref s with
      | Some (name, rest) => interpolate vars name +:+ replace_refs fuel vars rest
      | None =>
          match s with
          | String c rest => String c (replace_refs fuel vars rest)
          | EmptyString => EmptyString
          end
      end
  end.

Definition resolveVar (template : value) (vars : vars_map) : value :=
  match template with
  | VString t =>
      (* Check if it's a simple variable reference like %{urls} *)
      match whole_ref t with
      | Some name =>
          match get_var name vars with
          | VUndefined => template
          | val => val
          end
      | None =>
          (* Otherwise do string substitution *)
          VString (replace_refs (String.length t) vars t)
      end
  | _ => template
  end.

Fixpoint substituteVars (args : value) (vars : vars_map) : value :=
  match args with
  | VArray items =>
      VArray
        ((fix go (l : list value) : list value :=
            match l with
            | [] => []
            | item :: rest =>
                match item with
                | VString _ => resolveVar item vars
                | VArray _ | VObject _ => substituteVars item vars
                | _ => item
                end :: go rest
            end) items)
  | VObject props =>
      VObject
        ((fix go (l : list (string * value)) : list (string * value) :=
            match l with
            | [] => []
            | (key, val) :: rest =>
                (key,
                 match val with
                 | VString _ => resolveVar val vars
                 | VArray _ | VObject _ => substituteVars val vars
                 | _ => val
                 end) :: go rest
            end) props)
  | _ => args
  end.

(** *** Step output *)

Definition extractStepOutput (resp : value) : value :=
  (* MCP format: resp.result.content[0].text *)
  let text := prop "text" (index0 (prop "content" (prop "result" resp))) in
  if truthy text then
    (* Try to parse as JSON, otherwise return raw text *)
    match JSON_parse (String_of text) with
    | Some parsed => parsed
    | None => text
    end
  else
    (* Direct value (some tools return this) *)
    match prop "value" resp with
    | VUndefined =>
        (* Direct result object *)
        match prop "result" resp with
        | VUndefined =>
            (* Fallback to the whole response *)
            resp
        | result => result
        end
    | value => value
    end.

(** *** A single step *)

Definition wait_args (waitCmd : string) : value :=
  if String.eqb waitCmd "wait.load"
  then VObject [("timeout", VNumber 10000)]
  else VObject [("stable", VNumber 100); ("timeout", VNumber 5000)].

(** [step.args || {}] *)
Definition args_or_empty (l : leaf) : value :=
  match args l with
  | Some a => if truthy a then a else VObject []
  | None => VObject []
  end.

(** [resp.error] throws a [TypeError] when the reply is [null] (or
    [undefined]); this is its message, as V8 words it. *)
Definition TypeError_message (resp : value) : string :=
  "Cannot read properties of " +:+ String_of resp +:+ " (reading 'error')".

(** The delay between steps is time only and is left out.  A capture under
    the name [__proto__] would change the prototype of [vars] and is not
    modelled: the statements below leave that name out. *)
Definition executeSingleStep (o : options) (l : leaf) (vars : vars_map)
    (w : World) : single_result * vars_map * World :=
  (* Substitute variables in args *)
  let resolvedArgs := substituteVars (args_or_empty l) vars in
  match sendDoRequest (mkRequest (cmd l) resolvedArgs) w with
  | (Rejected message, w) =>
      (* catch (err) *)
      (mkSingle false (VString message) VUndefined, vars, w)
  | (Resolved ((VNull | VUndefined) as resp), w) =>
      (* [resp.error] throws; catch (err) *)
      (mkSingle false (VString (TypeError_message resp)) VUndefined, vars, w)
  | (Resolved resp, w) =>
      if truthy (prop "error" resp) then
        let text :=
          prop "text" (index0 (prop "content" (prop "error" resp))) in
        let errText :=
          if truthy text then text
          else VString (JSON_stringify (prop "error" resp)) in
        (mkSingle false errText VUndefined, vars, w)
      else
        (* Capture output if step has `as` field *)
        let vars :=
          if Js.truthy_str (as_ l)
          then <[default "" (as_ l) := extractStepOutput resp]> vars
          else vars in
        (* Command-specific auto-wait; its failures are ignored *)
        let w :=
          if autoWait o then
            match getAutoWaitCommand (cmd l) with
            | Some waitCmd =>
                (sendDoRequest (mkRequest waitCmd (wait_args waitCmd)) w).2
            | None => w
            end
          else w in
        (mkSingle true VUndefined
           (if Js.truthy_str (as_ l)
            then get_var (default "" (as_ l)) vars else VUndefined),
         vars, w)
  end.

(** *** Loops *)

Definition ok (stepsExecuted : Z) : step_result :=
  mkStepResult true VUndefined stepsExecuted.
Definition failed (error : value) (stepsExecuted : Z) : step_result :=
  mkStepResult false error stepsExecuted.

(** The iteration bound of a [repeat] loop:
    [let max = resolveVar(step.repeat, vars);
     if (typeof max === 'string') max = parseInt(max, 10);
     if (typeof max !== 'number' || isNaN(max)) max = 1;
     max = Math.min(max, MAX_LOOP_ITERATIONS);] *)
Definition repeat_count (repeat : value) (vars : vars_map) : Z :=
  match resolveVar repeat vars with
  | VNumber n => n
  | VString s => default 1 (Js.parseInt s)
  | _ => 1
  end.

Definition repeat_max (repeat : value) (vars : vars_map) : Z :=
  Z.min (repeat_count repeat vars) MAX_LOOP_ITERATIONS.

(** [{ ...vars, _index: i, _iteration: i + 1 }] *)
Definition repeat_vars (vars : vars_map) (i : Z) : vars_map :=
  <["_iteration" := VNumber (i + 1)]> (<["_index" := VNumber i]> vars).

(** [{ ...vars, [itemVar]: items[i], _index: i, _iteration: i + 1 }] *)
Definition each_vars (vars : vars_map) (itemVar : string) (item : value)
    (i : Z) : vars_map :=
  <["_iteration" := VNumber (i + 1)]>
    (<["_index" := VNumber i]> (<[itemVar := item]> vars)).

(** Copy captured variables back to parent scope (only from regular steps,
    not loops). *)
Definition copy_back (steps : list step) (loopVars vars : vars_map)
    : vars_map :=
  foldl
    (λ vars nestedStep,
       match nestedStep with
       | Leaf l =>
           if Js.truthy_str (as_ l) then
             match get_var (default "" (as_ l)) loopVars with
             | VUndefined => vars
             | val => <[default "" (as_ l) := val]> vars
             end
           else vars
       | _ => vars
       end)
    vars steps.

Section Loop.

Variable o : options.

(** [executeStep] on the nested steps. *)
Variable exec : step → vars_map → World → step_result * vars_map * World.

(** [for (const nestedStep of step.steps) { ... }]: the error of the nested
    step at which the loop returns, if it does, then the loop variables,
    the world and [totalExecuted]. *)
Fixpoint run_nested (steps : list step) (loopVars : vars_map) (w : World)
    (totalExecuted : Z) : option value * vars_map * World * Z :=
  match steps with
  | [] => (None, loopVars, w, totalExecuted)
  | nestedStep :: rest =>
      let '(result, loopVars, w) := exec nestedStep loopVars w in
      let totalExecuted :=
        totalExecuted
        + (if stepsExecuted result =? 0 then 1 else stepsExecuted result) in
      if negb (step_success result) && String.eqb (onError o) "stop"
      then (Some (step_error result), loopVars, w, totalExecuted)
      else run_nested rest loopVars w totalExecuted
  end.

Section Body.

Variable body : list step.

(** [for (let i = 0; i < max; i++) { ... }] of the [repeat] loop, from [i]
    with [n] iterations to go. *)
Fixpoint repeat_loop (until : option leaf) (n : nat) (i : Z)
    (vars : vars_map) (w : World) (totalExecuted : Z)
    : step_result * vars_map * World :=
  match n with
  | O => (ok totalExecuted, vars, w)
  | S n =>
      (* Create loop-scoped variables *)
      let loopVars := repeat_vars vars i in
      (* Execute nested steps *)
      match run_nested body loopVars w totalExecuted with
      | (Some error, _, w, totalExecuted) =>
          (failed error totalExecuted, vars, w)
      | (None, loopVars, w, totalExecuted) =>
          let vars := copy_back body loopVars vars in
          (* Check `until` condition *)
          match until with
          | Some u =>
              let '(untilResult, _, w) := executeSingleStep o u loopVars w in
              let totalExecuted := totalExecuted + 1 in
              (* Exit loop if until condition is truthy *)
              if truthy (output untilResult)
              then (ok totalExecuted, vars, w)
              else repeat_loop until n (i + 1) vars w totalExecuted
          | None => repeat_loop until n (i + 1) vars w totalExecuted
          end
      end
  end.

(** [for (let i = 0; i < maxItems; i++) { ... }] of the [each] loop, from
    [i] with [n] iterations to go. *)
Fixpoint each_loop (items : list value) (itemVar : string) (n : nat)
    (i : nat) (vars : vars_map) (w : World) (totalExecuted : Z)
    : step_result * vars_map * World :=
  match n with
  | O => (ok totalExecuted, vars, w)
  | S n =>
      (* Create loop-scoped variables *)
      let loopVars :=
        each_vars vars itemVar (default VUndefined (items !! i))
          (Z.of_nat i) in
      (* Execute nested steps *)
      match run_nested body loopVars w totalExecuted with
      | (Some error, _, w, totalExecuted) =>
          (failed error totalExecuted, vars, w)
      | (None, loopVars, w, totalExecuted) =>
          let vars := copy_back body loopVars vars in
          each_loop items itemVar n (S i) vars w totalExecuted
      end
  end.

End Body.
End Loop.

Definition each_error (items : value) : string :=
  "each: expected array, got " +:+ typeof items
  +:+ (match items with VUndefined => " (undefined)" | _ => "" end).

(** [step.as || 'item'] *)
Definition item_var (as_ : option string) : string :=
  if Js.truthy_str as_ then default "" as_ else "item".

Fixpoint executeStep (o : options) (s : step) (vars : vars_map) (w : World)
    {struct s} : step_result * vars_map * World :=
  match s with
  | Repeat repeat steps until =>
      (* Resolve repeat count (may be a variable), with the safety cap *)
      let max := repeat_max repeat vars in
      match steps with
      | Some ((_ :: _) as body) =>
          repeat_loop o (executeStep o) body until (Z.to_nat max) 0 vars w 0
      | _ =>
          (failed (VString "repeat: steps array required") 0, vars, w)
      end
  | Each each steps as_ =>
      match resolveVar each vars with
      | VArray items =>
          match steps with
          | Some ((_ :: _) as body) =>
              (* Safety cap *)
              let maxItems :=
                Z.min (Z.of_nat (length items)) MAX_LOOP_ITERATIONS in
              each_loop o (executeStep o) body items (item_var as_)
                (Z.to_nat maxItems) 0 vars w 0
          | _ => (failed (VString "each: steps array required") 0, vars, w)
          end
      | items => (failed (VString (each_error items)) 0, vars, w)
      end
  | Leaf l =>
      (* Regular step (non-loop) *)
      let '(result, vars, w) := executeSingleStep o l vars w in
      (mkStepResult (success result) (error result) 1, vars, w)
  end.

(** *** The workflow *)

(** [for (let i = 0; i < total; i++) { ... }] of [executeDoSteps], at step
    [i] with the steps [steps] to go; [completed] is the [stepsExecuted] of
    the source. *)
Fixpoint do_loop (o : options) (total : Z) (steps : list step) (i : Z)
    (results : list step_report) (failed completed : Z)
    (vars : vars_map) (w : World) : do_result * vars_map * World :=
  match steps with
  | [] =>
      (mkDoResult (if 0 <? failed then "partial" else "completed")
         completed total results (Some failed) None, vars, w)
  | step :: rest =>
      match step with
      | Leaf l =>
          (* Regular step *)
          let '(result, vars, w) := executeSingleStep o l vars w in
          let completed := completed + 1 in
          if success result then
            do_loop o total rest (i + 1)
              (results ++ [mkReport (i + 1) true VUndefined])
              failed completed vars w
          else
            let results := results ++ [mkReport (i + 1) false (error result)] in
            let failed := failed + 1 in
            if String.eqb (onError o) "stop" then
              (mkDoResult "failed" (completed - 1) total results None
                 (Some (error result)),
               vars, w)
            else do_loop o total rest (i + 1) results failed completed vars w
      | _ =>
          (* Loops handle their own progress output *)
          let '(result, vars, w) := executeStep o step vars w in
          let completed := completed + stepsExecuted result in
          if step_success result then
            do_loop o total rest (i + 1)
              (results ++ [mkReport (i + 1) true VUndefined])
              failed completed vars w
          else
            let results :=
              results ++ [mkReport (i + 1) false (step_error result)] in
            let failed := failed + 1 in
            if String.eqb (onError o) "stop" then
              (mkDoResult "failed" completed total results None
                 (Some (step_error result)),
               vars, w)
            else do_loop o total rest (i + 1) results failed completed vars w
      end
  end.

Definition executeDoSteps (steps : list step) (o : options)
    (initialVars : vars_map) (w : World) : do_result * vars_map * World :=
  do_loop o (Z.of_nat (length steps)) steps 0 [] 0 0 initialVars w.

(** *** The loops as a specification *)

(** The commands of the navigation class and of the mutation class, and a
    command of a class: one of its commands or a dot-suffixed form of it. *)
Definition navigation_commands : list string :=
  ["go"; "navigate"; "submit"; "tab.switch"; "tab.new"; "back"; "forward"].
Definition mutation_commands : list string := ["click"; "key"; "form.fill"].

Definition in_class (cmd : string) (class : list string) : Prop :=
  ∃ base, base ∈ class
          ∧ (cmd = base ∨ ∃ suffix, cmd = base +:+ "." +:+ suffix).





(** The names the leaf steps of a loop body capture their output under. *)
Definition captures (body : list step) : list string :=
  omap (λ s, match s with
             | Leaf l => if Js.truthy_str (as_ l) then as_ l else None
             | _ => None
             end) body.












(** *** Properties of the auto-wait *)

Lemma getAutoWaitCommand_navigation (cmd : string) :
  in_class cmd navigation_commands → getAutoWaitCommand cmd = Some "wait.load".
Proof.
  intros (base & Hbase & Hcmd). unfold navigation_commands in Hbase.
  repeat (apply elem_of_cons in Hbase as [->|Hbase];
          [destruct Hcmd as [->|[[|c suffix] ->]]; vm_compute; reflexivity|]).
  by apply elem_of_nil in Hbase.
Qed.

Lemma getAutoWaitCommand_mutation (cmd : string) :
  in_class cmd mutation_commands → getAutoWaitCommand cmd = Some "wait.dom".
Proof.
  intros (base & Hbase & Hcmd). unfold mutation_commands in Hbase.
  repeat (apply elem_of_cons in Hbase as [->|Hbase];
          [destruct Hcmd as [->|[[|c suffix] ->]]; vm_compute; reflexivity|]).
  by apply elem_of_nil in Hbase.
Qed.

(** A leaf step whose request is answered without an error succeeds, and
    what it does to the world is the request and the auto-wait. *)
Lemma executeSingleStep_success (o : options) (l : leaf) (vars : vars_map)
    (w w1 : World) (resp : value) :
  sendDoRequest (mkRequest (cmd l) (substituteVars (args_or_empty l) vars)) w
  = (Resolved resp, w1) →
  resp ≠ VNull → resp ≠ VUndefined →
  truthy (prop "error" resp) = false →
  success (executeSingleStep o l vars w).1.1 = true
  ∧ (executeSingleStep o l vars w).2
    = if autoWait o then
        match getAutoWaitCommand (cmd l) with
        | Some waitCmd =>
            (sendDoRequest (mkRequest waitCmd (wait_args waitCmd)) w1).2
        | None => w1
        end
      else w1.
Proof.
  intros Hsend Hnull Hundef Herr. unfold executeSingleStep. rewrite Hsend.
  destruct resp; try done; by rewrite Herr.
Qed.

(** A failed leaf step under [onError = 'stop'] ends the workflow where it
    is; under another policy the workflow goes on with the next step. *)
Lemma do_loop_leaf_failure (o : options) (total : Z) (l : leaf)
    (rest : list step) (i : Z) (results : list step_report)
    (failed completed : Z) (vars : vars_map) (w : World) :
  success (executeSingleStep o l vars w).1.1 = false →
  let run := executeSingleStep o l vars w in
  let results' := results ++ [mkReport (i + 1) false (error run.1.1)] in
  do_loop o total (Leaf l :: rest) i results failed completed vars w
  = if String.eqb (onError o) "stop" then
      (mkDoResult "failed" completed total results' None
         (Some (error run.1.1)),
       run.1.2, run.2)
    else
      do_loop o total rest (i + 1) results' (failed + 1) (completed + 1)
        run.1.2 run.2.
Proof.
  intros Hfail. cbn [do_loop].
  destruct (executeSingleStep o l vars w) as [[result vars'] w'].
  cbn in *. rewrite Hfail.
  destruct (String.eqb (onError o) "stop"); [|done].
  do 3 f_equal. lia.
Qed.

(** *** Properties of the loops *)







Section Turns.
Variables (o : options) (body : list step).




End Turns.



Lemma append_cons (c : ascii) (s t : string) :
  String c s +:+ t = String c (s +:+ t).
Proof. reflexivity. Qed.







(** *** Properties of the substitution and of the output *)



(** C9 (as amended). When the first content part of the reply's result has
    a text that is not empty, the value captured is the text parsed as
    JSON, or the raw text when it does not parse.  Otherwise it is the
    [value] of the reply when it has one, otherwise the [result] of the
    reply when it has one, and the whole reply only when it has
    neither. *)
Theorem extractStepOutput_cases (resp : value) :
  let text := prop "text" (index0 (prop "content" (prop "result" resp))) in
  (truthy text = true →
     (∀ parsed, JSON_parse (String_of text) = Some parsed →
        extractStepOutput resp = parsed)
     ∧ (JSON_parse (String_of text) = None → extractStepOutput resp = text))
  ∧ (truthy text = false →
     (prop "value" resp ≠ VUndefined →
        extractStepOutput resp = prop "value" resp)
     ∧ (prop "value" resp = VUndefined → prop "result" resp ≠ VUndefined →
          extractStepOutput resp = prop "result" resp)
     ∧ (prop "value" resp = VUndefined → prop "result" resp = VUndefined →
          extractStepOutput resp = resp)).
Proof.
  cbv zeta. unfold extractStepOutput. split.
  - intros ->. split.
    + by intros parsed ->.
    + by intros ->.
  - intros ->. repeat split.
    + intros Hval. by destruct (prop "value" resp).
    + intros -> Hres. by destruct (prop "result" resp).
    + by intros -> ->.
Qed.

(** C8 (as amended). With the auto-wait on (the default), a leaf step
    that succeeds, its request answered by a reply that is not [null] and
    has no truthy [error], and whose command is of the navigation class or
    of the mutation class is followed by exactly one wait request: after
    the request of the step the world moves by the one request
    [wait.load] with a timeout of 10 s (navigation) or [wait.dom] with a
    stable time of 100 ms and a timeout of 5 s (mutation), and the step
    succeeds whatever that request settles to.  A leaf step that fails
    ends the workflow at that step under [onError = 'stop'], with status
    [failed] and the error of the step, and under another policy the
    workflow goes on with the next step. *)
Theorem leaf_auto_wait_and_failure_policy (o : options) :
  (∀ l vars w w1 resp,
     autoWait o = true →
     in_class (cmd l) navigation_commands
     ∨ in_class (cmd l) mutation_commands →
     sendDoRequest
       (mkRequest (cmd l) (substituteVars (args_or_empty l) vars)) w
     = (Resolved resp, w1) →
     resp ≠ VNull → resp ≠ VUndefined →
     truthy (prop "error" resp) = false →
     ∃ wait,
       (in_class (cmd l) navigation_commands →
        wait = mkRequest "wait.load" (VObject [("timeout", VNumber 10000)]))
       ∧ (in_class (cmd l) mutation_commands →
          wait = mkRequest "wait.dom"
                   (VObject [("stable", VNumber 100);
                             ("timeout", VNumber 5000)]))
       ∧ success (executeSingleStep o l vars w).1.1 = true
       ∧ (executeSingleStep o l vars w).2 = (sendDoRequest wait w1).2)
  ∧ (∀ l vars w total rest i results failed completed,
       success (executeSingleStep o l vars w).1.1 = false →
       let run := executeSingleStep o l vars w in
       let results' := results ++ [mkReport (i + 1) false (error run.1.1)] in
       do_loop o total (Leaf l :: rest) i results failed completed vars w
       = if String.eqb (onError o) "stop" then
           (mkDoResult "failed" completed total results' None
              (Some (error run.1.1)),
            run.1.2, run.2)
         else
           do_loop o total rest (i + 1) results' (failed + 1)
             (completed + 1) run.1.2 run.2).
Proof.
  split.
  - intros l vars w w1 resp Hauto Hclass Hsend Hnull Hundef Herr.
    destruct (executeSingleStep_success o l vars w w1 resp Hsend Hnull
                Hundef Herr) as [Hok Hworld].
    rewrite Hauto in Hworld.
    assert (∃ waitCmd, getAutoWaitCommand (cmd l) = Some waitCmd
              ∧ (in_class (cmd l) navigation_commands → waitCmd = "wait.load")
              ∧ (in_class (cmd l) mutation_commands → waitCmd = "wait.dom"))
      as (waitCmd & Hwait & Hnav & Hmut).
    { destruct Hclass as [Hc|Hc].
      - exists "wait.load". split; [by apply getAutoWaitCommand_navigation|].
        split; [done|]. intros Hm.
        apply getAutoWaitCommand_navigation in Hc.
        apply getAutoWaitCommand_mutation in Hm. congruence.
      - exists "wait.dom". split; [by apply getAutoWaitCommand_mutation|].
        split; [|done]. intros Hn.
        apply getAutoWaitCommand_navigation in Hn.
        apply getAutoWaitCommand_mutation in Hc. congruence. }
    exists (mkRequest waitCmd (wait_args waitCmd)).
    rewrite Hwait in Hworld. split; [by intros ->%Hnav|].
    split; [by intros ->%Hmut|]. done.
  - intros l vars w total rest i results failed completed Hfail.
    by apply do_loop_leaf_failure.
Qed.

(** *** The two tables of the auto-wait *)

Lemma property_is_Some {A} (key : string) (props : list (string * A)) :
  is_Some (property key props) ↔ key ∈ props.*1.
Proof.
  induction props as [|[k v] props IH]; cbn.
  - split; [by intros [? ?]|by intros ?%elem_of_nil].
  - rewrite elem_of_cons. destruct (String.eqb_spec k key) as [->|Hk].
    + split; [by left|by eexists].
    + rewrite IH. split; [by right|]. by intros [?|?].
Qed.

Lemma property_elem_of {A} (key : string) (props : list (string * A))
    (v : A) :
  property key props = Some v → ∃ k, (k, v) ∈ props.
Proof.
  induction props as [|[k x] props IH]; cbn; [done|].
  destruct (String.eqb k key).
  - intros [= ->]. exists k. left.
  - intros [k' Hk']%IH. exists k'. by right.
Qed.

Lemma find_is_Some {A} (p : A → bool) (l : list A) :
  is_Some (List.find p l) ↔ ∃ x, x ∈ l ∧ p x = true.
Proof.
  induction l as [|y l IH]; cbn.
  - split; [by intros [? ?]|]. by intros (x & ?%elem_of_nil & _).
  - destruct (p y) eqn:Hy.
    + split; [|by eexists]. intros _. exists y. split; [left|done].
    + rewrite IH. split.
      * intros (x & Hx & Hp). exists x. split; [by right|done].
      * intros (x & [->|Hx]%elem_of_cons & Hp); [congruence|by exists x].
Qed.

(** X16. The two tables of the auto-wait agree: for a command that is not
    the name of a property of [Object.prototype], [shouldAutoWait] holds
    exactly when [getAutoWaitCommand] gives a wait command, and that
    command is [wait.load] or [wait.dom]. *)
Theorem shouldAutoWait_getAutoWaitCommand (cmd : string) :
  cmd ∉ Js.Object_prototype_names →
  (shouldAutoWait cmd = true ↔ is_Some (getAutoWaitCommand cmd))
  ∧ ∀ waitCmd, getAutoWaitCommand cmd = Some waitCmd →
      waitCmd = "wait.load" ∨ waitCmd = "wait.dom".
Proof using Type.
  intros _. split.
  - assert (Hkeys : AUTO_WAIT_MAP.*1 ≡ₚ AUTO_WAIT_COMMANDS)
      by apply Permutation_swap.
    assert (Hwait : is_Some (getAutoWaitCommand cmd)
                    ↔ ∃ c, c ∈ AUTO_WAIT_COMMANDS
                           ∧ (cmd = c ∨ Js.startsWith cmd (c +:+ ".") = true)).
    { unfold getAutoWaitCommand.
      transitivity (is_Some (property cmd AUTO_WAIT_MAP)
                    ∨ is_Some (List.find
                                 (λ entry : string * string,
                                    Js.startsWith cmd (entry.1 +:+ "."))
                                 AUTO_WAIT_MAP)).
      { destruct (property cmd AUTO_WAIT_MAP) as [w|].
        - split; [by left|by eexists].
        - rewrite fmap_is_Some. split; [by right|]. by intros [[? ?]|?]. }
      rewrite property_is_Some, find_is_Some. split.
      - intros [Hin|([k v] & Hin & Hp)].
        + exists cmd. rewrite <- Hkeys. split; [done|by left].
        + exists k. rewrite <- Hkeys. split; [|by right].
          apply list_elem_of_fmap. by exists (k, v).
      - intros (c & Hc & [->|Hp]); rewrite <- Hkeys in Hc; [by left|].
        right. apply list_elem_of_fmap in Hc as ([k v] & -> & Hin).
        by exists (k, v). }
    rewrite Hwait. unfold shouldAutoWait. rewrite existsb_exists. split.
    + intros (c & Hc%list_elem_of_In & Hor). exists c. split; [done|].
      apply orb_true_iff in Hor as [Heq%String.eqb_eq|Hp]; [by left|by right].
    + intros (c & Hc & Hor). exists c. split; [by apply list_elem_of_In|].
      apply orb_true_iff.
      destruct Hor as [->|Hp]; [left; apply String.eqb_refl|by right].
  - intros waitCmd. unfold getAutoWaitCommand.
    assert (Hwaits : ∀ k v, (k, v) ∈ AUTO_WAIT_MAP →
                            v = "wait.load" ∨ v = "wait.dom").
    { intros k v Hin. unfold AUTO_WAIT_MAP in Hin.
      repeat (apply elem_of_cons in Hin as [[= _ <-]|Hin];
              [(by left) || (by right)|]).
      by apply elem_of_nil in Hin. }
    destruct (property cmd AUTO_WAIT_MAP) as [w|] eqn:Hprop.
    + intros [= <-]. apply property_elem_of in Hprop as [k Hin].
      by apply (Hwaits k).
    + destruct (List.find _ AUTO_WAIT_MAP) as [[k v]|] eqn:Hfind; [|done].
      intros [= <-]. apply find_some in Hfind as [Hin%list_elem_of_In _].
      by apply (Hwaits k).
Qed.

(** *** Substitution that changes nothing *)

Lemma append_assoc (s t u : string) : (s +:+ t) +:+ u = s +:+ t +:+ u.
Proof.
  induction s as [|c s IH]; [done|]. by rewrite !append_cons, IH.
Qed.

Lemma take_word_app (s : string) :
  (take_word s).1 +:+ (take_word s).2 = s.
Proof.
  induction s as [|c s IH]; [done|]. cbn [take_word].
  destruct (is_word c); [|done].
  destruct (take_word s) as [w r]. cbn in *. by rewrite append_cons, IH.
Qed.

Lemma take_ref_app (s name rest : string) :
  take_ref s = Some (name, rest) → s = "%{" +:+ name +:+ "}" +:+ rest.
Proof.
  unfold take_ref.
  destruct s as [|c1 s]; [done|].
  destruct (Ascii.eqb_spec c1 "%") as [->|H1].
  2:{ destruct c1 as [[] [] [] [] [] [] [] []]; done. }
  destruct s as [|c2 s]; [done|].
  destruct (Ascii.eqb_spec c2 "{") as [->|H2].
  2:{ destruct c2 as [[] [] [] [] [] [] [] []]; done. }
  pose proof (take_word_app s) as Happ.
  destruct (take_word s) as [[|c w] [|c' r]]; try done.
  destruct (Ascii.eqb_spec c' "}") as [->|H3].
  2:{ destruct c' as [[] [] [] [] [] [] [] []]; done. }
  intros [= <- <-]. cbn in Happ. by rewrite <- Happ.
Qed.

(** The names of the references of a template, in the order in which
    [replace] meets them. *)
Fixpoint references (fuel : nat) (s : string) : list string :=
  match fuel with
  | O => []
  | S fuel =>
      match take_ref s with
      | Some (name, rest) => name :: references fuel rest
      | None =>
          match s with
          | String _ rest => references fuel rest
          | EmptyString => []
          end
      end
  end.

(** [vars[name]] is [undefined]: the variable is not defined and the name
    is not the name of a property that the object inherits. *)
Definition unbound (vars : vars_map) (name : string) : Prop :=
  get_var name vars = VUndefined ∧ name ∉ Js.Object_prototype_names.

Lemma replace_refs_unbound (vars : vars_map) (fuel : nat) (s : string) :
  (∀ name, name ∈ references fuel s → unbound vars name) →
  replace_refs fuel vars s = s.
Proof.
  revert s. induction fuel as [|fuel IH]; intros s Hrefs; [done|].
  cbn [replace_refs references] in *.
  destruct (take_ref s) as [[name rest]|] eqn:Href.
  - apply take_ref_app in Href as ->. unfold interpolate.
    destruct (Hrefs name) as [-> _]; [left|].
    rewrite IH, !append_assoc; [done|].
    intros name' Hname'. apply Hrefs. by right.
  - destruct s as [|c s]; [done|]. by rewrite IH.
Qed.

(** X17. A reference to a variable that is not defined is left as it is
    written: when [vars[name]] is [undefined] for every [%{name}] of a
    template, [resolveVar] gives the template back. *)
Theorem undefined_references_stay (vars : vars_map) (t : string) :
  (∀ name, name ∈ references (String.length t) t → unbound vars name) →
  resolveVar (VString t) vars = VString t.
Proof.
  intros Hrefs. cbn [resolveVar].
  destruct (whole_ref t) as [name|] eqn:Hwhole.
  - destruct (Hrefs name) as [-> _]; [|done].
    unfold whole_ref in Hwhole.
    destruct (take_ref t) as [[name' [|c rest]]|] eqn:Href; try done.
    injection Hwhole as ->. destruct t as [|c t]; [done|].
    cbn [String.length references]. rewrite Href. left.
  - by rewrite replace_refs_unbound.
Qed.

(** X18. [substituteVars] keeps the shape of its argument: an object
    with no key [__proto__] keeps its keys in order, an array keeps its
    length, and a value that is not an object or an array, a string among
    them, is given back as it is even when it is a reference; inside an
    object or an array a number, a boolean or [null] is left as it is. *)
Theorem substituteVars_shape (vars : vars_map) :
  (∀ props, "__proto__" ∉ props.*1 → ∃ props',
     substituteVars (VObject props) vars = VObject props'
     ∧ props'.*1 = props.*1
     ∧ ∀ i k v, props !! i = Some (k, v) →
         typeof v ≠ "string" → typeof v ≠ "object" ∨ v = VNull →
         props' !! i = Some (k, v))
  ∧ (∀ items, ∃ items',
       substituteVars (VArray items) vars = VArray items'
       ∧ length items' = length items
       ∧ ∀ i v, items !! i = Some v →
           typeof v ≠ "string" → typeof v ≠ "object" ∨ v = VNull →
           items' !! i = Some v)
  ∧ (∀ args, typeof args ≠ "object" → substituteVars args vars = args).
Proof.
  assert (Hscalar : ∀ v : value,
            typeof v ≠ "string" → typeof v ≠ "object" ∨ v = VNull →
            match v with
            | VString _ => resolveVar v vars
            | VArray _ | VObject _ => substituteVars v vars
            | _ => v
            end = v).
  { intros v Hs [Ho| ->]; [|done]. by destruct v. }
  split; [|split].
  - intros props _. eexists. split; [reflexivity|].
    induction props as [|[k x] props [IH1 IH2]]; [done|]. split.
    + cbn [fmap list_fmap fst]. by f_equal.
    + intros [|i] k' v Hi Hs Ho.
      * injection Hi as -> ->. cbn [lookup list_lookup]. f_equal. f_equal.
        by apply Hscalar.
      * by apply IH2.
  - intros items. eexists. split; [reflexivity|].
    induction items as [|x items [IH1 IH2]]; [done|]. split.
    + cbn [length]. by f_equal.
    + intros [|i] v Hi Hs Ho.
      * injection Hi as ->. cbn [lookup list_lookup]. f_equal.
        by apply Hscalar.
      * by apply IH2.
  - by intros [].
Qed.

(** *** What a step leaves untouched *)

Lemma executeSingleStep_lookup (o : options) (l : leaf) (vars : vars_map)
    (w : World) (name : string) :
  name ∉ captures [Leaf l] →
  (executeSingleStep o l vars w).1.2 !! name = vars !! name.
Proof.
  unfold captures, executeSingleStep. cbn [omap list_omap].
  destruct (sendDoRequest _ w) as [[resp|message] w1]; [|done].
  assert (Hcapture :
            name ∉ (if Js.truthy_str (as_ l)
                    then from_option (λ a, [a]) [] (as_ l) else []) →
            (if Js.truthy_str (as_ l)
             then <[default "" (as_ l) := extractStepOutput resp]> vars
             else vars) !! name = vars !! name).
  { destruct (as_ l) as [a|]; cbn [Js.truthy_str]; [|done].
    destruct (negb (String.eqb a "")); [|done]. cbn.
    intros [Hname _]%not_elem_of_cons. by rewrite lookup_insert_ne. }
  intros Hname.
  assert (Hname' : name ∉ (if Js.truthy_str (as_ l)
                           then from_option (λ a, [a]) [] (as_ l) else [])).
  { destruct (as_ l) as [a|]; cbn [Js.truthy_str] in *; [|done].
    by destruct (negb (String.eqb a "")). }
  destruct resp; try done;
    (destruct (truthy (prop "error" _)); [done|]); cbn [fst snd];
    by apply Hcapture.
Qed.

(** X19. A leaf step succeeds exactly when the daemon answers and the
    answer is not [null] (nor [undefined]) and has no truthy [error]; it
    fails when the request is rejected.  A step that fails changes no
    variable, has no output and is not followed by an auto-wait: the one
    request of the step is all the daemon sees.  Whether it fails or not,
    a step whose [as] is not [__proto__] changes no variable but the one
    named by its [as]. *)
Theorem failed_step_leaves_no_trace (o : options) (l : leaf)
    (vars : vars_map) (w : World) :
  let run := executeSingleStep o l vars w in
  let sent :=
    sendDoRequest
      (mkRequest (cmd l) (substituteVars (args_or_empty l) vars)) w in
  match sent.1 with
  | Resolved resp =>
      success run.1.1 = true
      ↔ resp ≠ VNull ∧ resp ≠ VUndefined
        ∧ truthy (prop "error" resp) = false
  | Rejected _ => success run.1.1 = false
  end
  ∧ (success run.1.1 = false →
     run.1.2 = vars ∧ run.2 = sent.2 ∧ output run.1.1 = VUndefined)
  ∧ (as_ l ≠ Some "__proto__" →
     ∀ name, as_ l ≠ Some name → run.1.2 !! name = vars !! name).
Proof.
  cbv zeta. split; [|split].
  - unfold executeSingleStep.
    destruct (sendDoRequest _ w) as [[resp|message] w1]; cbn [fst snd];
      [|done].
    destruct resp; cbn [fst success];
      try (split; [done|by intros (? & ? & ?)]);
      (destruct (truthy (prop "error" _)); cbn [fst success];
       [split; [done|by intros (? & ? & ?)]|done]).
  - unfold executeSingleStep.
    destruct (sendDoRequest _ w) as [[resp|message] w1]; cbn [fst snd];
      [|done].
    destruct resp; try done;
      (destruct (truthy (prop "error" _)); by cbn).
  - intros _ name Hname. apply executeSingleStep_lookup.
    unfold captures. cbn [omap list_omap].
    destruct (as_ l) as [a|]; cbn [Js.truthy_str]; [|by apply not_elem_of_nil].
    destruct (negb (String.eqb a "")); [|by apply not_elem_of_nil]. cbn.
    apply not_elem_of_cons. split; [congruence|apply not_elem_of_nil].
Qed.

Lemma copy_back_lookup (body : list step) (loopVars vars : vars_map)
    (name : string) :
  name ∉ captures body →
  copy_back body loopVars vars !! name = vars !! name.
Proof.
  unfold copy_back. revert vars.
  induction body as [|s body IH]; intros vars Hname; [done|].
  cbn [foldl]. unfold captures in Hname. cbn [omap list_omap] in Hname.
  destruct s as [l| |].
  - destruct (as_ l) as [a|]; cbn [Js.truthy_str] in *; [|by apply IH].
    destruct (negb (String.eqb a "")); [|by apply IH].
    change (default "" (Some a)) with a in *.
    apply not_elem_of_cons in Hname as [Hne Hname].
    rewrite IH by done.
    destruct (get_var a loopVars); try done; by rewrite lookup_insert_ne.
  - by apply IH.
  - by apply IH.
Qed.

Section Parent.
Variables (o : options)
  (exec : step → vars_map → World → step_result * vars_map * World)
  (body : list step) (name : string).
Hypothesis Hname : name ∉ captures body.

Lemma repeat_loop_lookup (until : option leaf) (n : nat) (i : Z)
    (vars : vars_map) (w : World) (totalExecuted : Z) :
  (repeat_loop o exec body until n i vars w totalExecuted).1.2 !! name
  = vars !! name.
Proof.
  revert i vars w totalExecuted.
  induction n as [|n IH]; intros i vars w totalExecuted; [done|].
  cbn [repeat_loop].
  destruct (run_nested o exec body (repeat_vars vars i) w totalExecuted)
    as [[[[error|] loopVars] w1] total1]; [done|].
  destruct until as [u|].
  - destruct (executeSingleStep o u loopVars w1) as [[untilResult ?] w2].
    destruct (truthy (output untilResult)).
    + by apply copy_back_lookup.
    + rewrite IH. by apply copy_back_lookup.
  - rewrite IH. by apply copy_back_lookup.
Qed.

Lemma each_loop_lookup (items : list value) (itemVar : string) (n i : nat)
    (vars : vars_map) (w : World) (totalExecuted : Z) :
  (each_loop o exec body items itemVar n i vars w totalExecuted).1.2 !! name
  = vars !! name.
Proof.
  revert i vars w totalExecuted.
  induction n as [|n IH]; intros i vars w totalExecuted; [done|].
  cbn [each_loop].
  destruct (run_nested o exec body _ w totalExecuted)
    as [[[[error|] loopVars] w1] total1]; [done|].
  rewrite IH. by apply copy_back_lookup.
Qed.

End Parent.

(** X20. The variables of a loop stay in the loop.  After a [repeat] or
    an [each] step, every variable of the workflow is as it was before,
    [_index], [_iteration] and the item variable among them, but the ones
    that a leaf step standing directly in the body captures with [as];
    what the [until] step or a nested loop captures is not copied out.
    (No step captures under the name [__proto__].) *)
Theorem loop_variables_stay_in_the_loop (o : options) (s : step)
    (vars : vars_map) (w : World) (name : string) :
  let captured :=
    match s with
    | Leaf _ => captures [s]
    | Repeat _ steps _ | Each _ steps _ => captures (default [] steps)
    end in
  "__proto__" ∉ captured → name ∉ captured →
  (executeStep o s vars w).1.2 !! name = vars !! name.
Proof.
  destruct s as [l|repeat steps until|each steps as_]; intros captured _ Hname.
  - cbn [executeStep].
    pose proof (executeSingleStep_lookup o l vars w name Hname) as Hl.
    by destruct (executeSingleStep o l vars w) as [[result vars1] w1].
  - cbn [executeStep]. destruct steps as [[|s body]|]; try done.
    by apply repeat_loop_lookup.
  - cbn [executeStep]. destruct (resolveVar each vars); try done.
    destruct steps as [[|s body]|]; try done.
    by apply each_loop_lookup.
Qed.

(** *** Loops that do not run *)

(** X21. A loop that cannot run sends no request and changes no
    variable.  A [repeat] without steps fails with [repeat: steps array
    required] whatever its count; with steps and a count of zero or less
    it succeeds with no step executed.  An [each] over a value that is not
    an array fails and names the type of the value; over an array but
    without steps it fails with [each: steps array required]; over the
    empty array it succeeds with no step executed. *)
Theorem loop_without_a_turn (o : options) (vars : vars_map) (w : World) :
  (∀ repeat steps until,
     steps = None ∨ steps = Some [] →
     executeStep o (Repeat repeat steps until) vars w
     = (failed (VString "repeat: steps array required") 0, vars, w))
  ∧ (∀ repeat body until,
       body ≠ [] → repeat_count repeat vars ≤ 0 →
       executeStep o (Repeat repeat (Some body) until) vars w
       = (ok 0, vars, w))
  ∧ (∀ each steps as_,
       (∀ items, resolveVar each vars ≠ VArray items) →
       executeStep o (Each each steps as_) vars w
       = (failed (VString (each_error (resolveVar each vars))) 0, vars, w))
  ∧ (∀ each steps as_ items,
       resolveVar each vars = VArray items →
       steps = None ∨ steps = Some [] →
       executeStep o (Each each steps as_) vars w
       = (failed (VString "each: steps array required") 0, vars, w))
  ∧ (∀ each body as_,
       body ≠ [] → resolveVar each vars = VArray [] →
       executeStep o (Each each (Some body) as_) vars w = (ok 0, vars, w)).
Proof.
  split; [|split; [|split; [|split]]].
  - by intros repeat steps until [-> | ->].
  - intros repeat [|s body] until Hbody Hcount; [done|]. cbn [executeStep].
    unfold repeat_max.
    replace (Z.to_nat (Z.min (repeat_count repeat vars) MAX_LOOP_ITERATIONS))
      with 0%nat; [done|].
    unfold MAX_LOOP_ITERATIONS. lia.
  - intros each steps as_ Hitems. cbn [executeStep].
    destruct (resolveVar each vars) as [| |b|n|s|items|props|f]; try done.
    by destruct (Hitems items).
  - intros each steps as_ items Hitems [-> | ->]; cbn [executeStep];
      by rewrite Hitems.
  - intros each [|s body] as_ Hbody Hitems; [done|]. cbn [executeStep].
    by rewrite Hitems.
Qed.

(** *** The report of a workflow *)

(** The number of failed steps among the reports, and reports numbered
    from 1. *)
Definition failures (reports : list step_report) : nat :=
  length (base.filter (λ x, report_ok x = false) reports).

Definition numbered (reports : list step_report) : Prop :=
  report_step <$> reports = (λ k, Z.of_nat (S k)) <$> seq 0 (length reports).

Lemma failures_snoc (reports : list step_report) (x : step_report) :
  failures (reports ++ [x])
  = (failures reports + if report_ok x then 0 else 1)%nat.
Proof.
  unfold failures. rewrite filter_app, length_app, filter_cons, filter_nil.
  by destruct x as [n [] e].
Qed.

Lemma numbered_snoc (reports : list step_report) (ok : bool) (e : value) :
  numbered reports →
  numbered (reports ++ [mkReport (Z.of_nat (length reports) + 1) ok e]).
Proof.
  unfold numbered. intros Hn.
  rewrite fmap_app, length_app, Hn. cbn [length fmap list_fmap report_step].
  rewrite Nat.add_1_r, seq_S, fmap_app. cbn. do 2 f_equal. lia.
Qed.

(** The three shapes of the object that [executeDoSteps] returns, for a
    workflow that has [n] reports to give. *)
Definition report_shape (o : options) (n : nat) (r : do_result) : Prop :=
  status r = "completed" ∧ failures (results r) = 0%nat
  ∧ length (results r) = n
  ∧ failed_steps r = Some 0 ∧ workflow_error r = None
  ∨ status r = "partial" ∧ (0 < failures (results r))%nat
    ∧ length (results r) = n ∧ onError o ≠ "stop"
    ∧ failed_steps r = Some (Z.of_nat (failures (results r)))
    ∧ workflow_error r = None
  ∨ status r = "failed" ∧ failures (results r) = 1%nat
    ∧ onError o = "stop" ∧ (length (results r) ≤ n)%nat
    ∧ failed_steps r = None
    ∧ ∃ earlier last,
        results r = earlier ++ [last] ∧ report_ok last = false
        ∧ workflow_error r = Some (report_error last).

(** What [do_loop] returns, from any point of the workflow at which the
    reports are numbered, [failed] counts the failed ones, and no step has
    failed yet if failures stop the workflow. *)
Lemma do_loop_report (o : options) (total : Z) (steps : list step) :
  ∀ (reports : list step_report) (failed completed : Z) (vars : vars_map)
    (w : World),
    numbered reports → failed = Z.of_nat (failures reports) →
    (onError o = "stop" → failures reports = 0%nat) →
    let r := (do_loop o total steps (Z.of_nat (length reports)) reports
                failed completed vars w).1.1 in
    totalSteps r = total
    ∧ numbered (results r)
    ∧ report_shape o (length reports + length steps) r.
Proof.
  induction steps as [|s rest IH];
    intros reports failed completed vars w Hnum Hfailed Hstop.
  { cbn -[failures]. split; [done|]. split; [done|].
    unfold report_shape. cbn -[failures].
    destruct (Z.ltb_spec 0 failed) as [Hlt|Hge].
    - right. left. split; [done|]. split; [lia|]. split; [lia|].
      split; [|by rewrite Hfailed].
      intros Hs. specialize (Hstop Hs). lia.
    - left. split; [done|]. split; [lia|]. split; [lia|].
      split; [|done]. f_equal. lia. }
  assert (Hok : ∀ completed' vars' w',
            let r := (do_loop o total rest (Z.of_nat (length reports) + 1)
                        (reports ++ [mkReport (Z.of_nat (length reports) + 1)
                                       true VUndefined])
                        failed completed' vars' w').1.1 in
            totalSteps r = total
            ∧ numbered (results r)
            ∧ report_shape o (length reports + length (s :: rest)) r).
  { intros completed' vars' w'.
    specialize (IH (reports ++ [mkReport (Z.of_nat (length reports) + 1)
                                  true VUndefined])
                  failed completed' vars' w').
    rewrite length_app in IH. cbn [length] in IH.
    replace (Z.of_nat (length reports + 1)) with (Z.of_nat (length reports) + 1)
      in IH by lia.
    rewrite failures_snoc in IH. cbn [report_ok] in IH.
    rewrite Nat.add_0_r in IH.
    destruct (IH (numbered_snoc _ _ _ Hnum) Hfailed Hstop)
      as (H1 & H2 & H3).
    split; [done|]. split; [done|]. cbn [length].
    by replace (length reports + S (length rest))%nat
      with (length reports + 1 + length rest)%nat by lia. }
  assert (Hfail : ∀ error completed' completed'' vars' w',
            let reports' := reports ++ [mkReport (Z.of_nat (length reports) + 1)
                                          false error] in
            let r := (if String.eqb (onError o) "stop"
                      then (mkDoResult "failed" completed' total reports'
                              None (Some error), vars', w')
                      else do_loop o total rest
                             (Z.of_nat (length reports) + 1) reports'
                             (failed + 1) completed'' vars' w').1.1 in
            totalSteps r = total
            ∧ numbered (results r)
            ∧ report_shape o (length reports + length (s :: rest)) r).
  { intros error completed' completed'' vars' w' reports'.
    assert (Hnum' : numbered reports') by by apply numbered_snoc.
    assert (Hfailures : failures reports' = S (failures reports)).
    { unfold reports'. rewrite failures_snoc. cbn. lia. }
    assert (Hlen : length reports' = S (length reports))
      by (unfold reports'; rewrite length_app; cbn; lia).
    destruct (String.eqb_spec (onError o) "stop") as [Hs|Hs]; cbn zeta.
    - cbn [fst totalSteps results failed_steps status].
      pose proof (Hstop Hs) as Hzero.
      split; [done|]. split; [done|].
      right. right. cbn [fst totalSteps results failed_steps status
                         workflow_error].
      split; [done|]. split; [lia|]. split; [done|].
      split; [cbn [length]; lia|]. split; [done|].
      by exists reports, (mkReport (Z.of_nat (length reports) + 1)
                            false error).
    - specialize (IH reports' (failed + 1) completed'' vars' w').
      replace (Z.of_nat (length reports')) with (Z.of_nat (length reports) + 1)
        in IH by lia.
      destruct IH as (H1 & H2 & H3); [done|lia|done|].
      cbv zeta in H1, H2, H3.
      split; [done|]. split; [done|]. cbn [length].
      by replace (length reports + S (length rest))%nat
        with (length reports' + length rest)%nat by lia. }
  cbv zeta. cbn [do_loop]. destruct s as [l|repeat steps until|each steps as_].
  - destruct (executeSingleStep o l vars w) as [[result vars'] w'].
    destruct (success result); [apply Hok|apply Hfail].
  - destruct (executeStep o _ vars w) as [[result vars'] w'].
    destruct (step_success result); [apply Hok|apply Hfail].
  - destruct (executeStep o _ vars w) as [[result vars'] w'].
    destruct (step_success result); [apply Hok|apply Hfail].
Qed.

(** X22. The report of [executeDoSteps].  [totalSteps] is the number of
    steps of the workflow, and the reports are numbered from 1 in the
    order of the steps.  The status is [completed] when every step has a
    report and none failed, and [partial] when every step has a report,
    some failed and failures do not stop the workflow; in both cases
    [failed] counts the failed reports and there is no [error].  The
    status is [failed] when failures stop the workflow: the last report is
    the one failure, the steps after it were not run, [error] is the error
    of that report and the object has no [failed] count. *)
Theorem executeDoSteps_report (steps : list step) (o : options)
    (initialVars : vars_map) (w : World) :
  let r := (executeDoSteps steps o initialVars w).1.1 in
  totalSteps r = Z.of_nat (length steps)
  ∧ report_step <$> results r
    = (λ k, Z.of_nat (S k)) <$> seq 0 (length (results r))
  ∧ (status r = "completed" ∧ failures (results r) = 0%nat
     ∧ length (results r) = length steps
     ∧ failed_steps r = Some 0 ∧ workflow_error r = None
     ∨ status r = "partial" ∧ (0 < failures (results r))%nat
       ∧ length (results r) = length steps ∧ onError o ≠ "stop"
       ∧ failed_steps r = Some (Z.of_nat (failures (results r)))
       ∧ workflow_error r = None
     ∨ status r = "failed" ∧ failures (results r) = 1%nat
       ∧ onError o = "stop" ∧ (length (results r) ≤ length steps)%nat
       ∧ failed_steps r = None
       ∧ ∃ earlier last,
           results r = earlier ++ [last] ∧ report_ok last = false
           ∧ workflow_error r = Some (report_error last)).
Proof.
  unfold executeDoSteps.
  by apply (do_loop_report o (Z.of_nat (length steps)) steps [] 0 0
              initialVars w).
Qed.

(** *** Text without references *)

Lemma replace_refs_plain (fuel : nat) (vars : vars_map) (s : string) :
  Decimal.all_chars (λ c, negb (Ascii.eqb c "%")) s = true →
  replace_refs fuel vars s = s.
Proof.
  revert s. induction fuel as [|fuel IH]; intros s Hs; [done|].
  destruct s as [|c s]; [done|]. cbn [Decimal.all_chars] in Hs.
  apply andb_prop in Hs as [Hc Hs]. cbn [replace_refs].
  replace (take_ref (String c s)) with (@None (string * string)).
  - by rewrite IH.
  - unfold take_ref. destruct c as [[] [] [] [] [] [] [] []]; done.
Qed.

(** X23. A string that holds no percent sign is not changed by
    [resolveVar], whatever the variables are. *)
Theorem resolveVar_plain_text (t : string) (vars : vars_map) :
  Decimal.all_chars (λ c, negb (Ascii.eqb c "%")) t = true →
  resolveVar (VString t) vars = VString t.
Proof.
  intros Ht. unfold resolveVar.
  replace (whole_ref t) with (@None string).
  - by rewrite replace_refs_plain.
  - unfold whole_ref, take_ref. destruct t as [|c t]; [done|].
    cbn [Decimal.all_chars] in Ht. apply andb_prop in Ht as [Hc _].
    destruct c as [[] [] [] [] [] [] [] []]; done.
Qed.

Lemma all_chars_impl (p q : ascii → bool) (s : string) :
  (∀ c, p c = true → q c = true) →
  Decimal.all_chars p s = true → Decimal.all_chars q s = true.
Proof.
  intros Hpq. induction s as [|c s IH]; [done|]. cbn.
  intros [Hc Hs]%andb_prop. by rewrite (Hpq c Hc), IH.
Qed.

Lemma repeat_count_decimal (n : Z) (vars : vars_map) :
  repeat_count (VString (Js.String_of_Z n)) vars = n.
Proof.
  unfold repeat_count.
  assert (Hplain : resolveVar (VString (Js.String_of_Z n)) vars
                   = VString (Js.String_of_Z n)).
  { unfold resolveVar.
    assert (Hchars := Decimal.String_of_Z_chars n).
    apply (all_chars_impl _ (λ c, negb (Ascii.eqb c "%"))) in Hchars.
    2:{ intros c. destruct c as [[] [] [] [] [] [] [] []]; done. }
    replace (whole_ref (Js.String_of_Z n)) with (@None string).
    - by rewrite replace_refs_plain.
    - unfold whole_ref, take_ref.
      destruct (Js.String_of_Z n) as [|c t]; [done|].
      cbn [Decimal.all_chars] in Hchars.
      apply andb_prop in Hchars as [Hc _].
      destruct c as [[] [] [] [] [] [] [] []]; done. }
  rewrite Hplain. by rewrite Decimal.parseInt_String_of_Z.
Qed.

(** X24. A [repeat] count given as the decimal text of an integer is that
    integer: the loop runs as the loop with the number itself does. *)
Theorem repeat_count_as_text (o : options) (n : Z)
    (steps : option (list step)) (until : option leaf) (vars : vars_map)
    (w : World) :
  repeat_count (VString (Js.String_of_Z n)) vars = n
  ∧ executeStep o (Repeat (VString (Js.String_of_Z n)) steps until) vars w
    = executeStep o (Repeat (VNumber n) steps until) vars w.
Proof.
  split; [apply repeat_count_decimal|].
  cbn [executeStep]. unfold repeat_max. by rewrite repeat_count_decimal.
Qed.

(** *** Steps counted as completed *)

(** X25. In a workflow of leaf steps, [completedSteps] is the number of
    steps that were run when failures do not stop the workflow, the failed
    ones among them; when a failure stops it, [completedSteps] leaves
    the failed step out. *)
Theorem completedSteps_of_leaves (steps : list step) (o : options)
    (initialVars : vars_map) (w : World) :
  Forall (λ s, ∃ l, s = Leaf l) steps →
  let r := (executeDoSteps steps o initialVars w).1.1 in
  completedSteps r
  = Z.of_nat (length (results r))
    - (if String.eqb (status r) "failed" then 1 else 0).
Proof.
  intros Hleaves. unfold executeDoSteps.
  assert (Hloop : ∀ reports failed completed vars w0,
            completed = Z.of_nat (length reports) →
            let r := (do_loop o (Z.of_nat (length steps)) steps
                        (Z.of_nat (length reports)) reports failed completed
                        vars w0).1.1 in
            completedSteps r
            = Z.of_nat (length (results r))
              - (if String.eqb (status r) "failed" then 1 else 0)).
  { generalize (Z.of_nat (length steps)) as total. intros total.
    induction Hleaves as [|s rest [l ->] _ IH];
      intros reports failed completed vars w0 Hcompleted.
    - cbn. destruct (0 <? failed); cbn; lia.
    - cbv zeta. cbn [do_loop].
      destruct (executeSingleStep o l vars w0) as [[result vars'] w'].
      assert (Hnext : ∀ x, Z.of_nat (length (reports ++ [x]))
                           = Z.of_nat (length reports) + 1).
      { intros x. rewrite length_app. cbn. lia. }
      destruct (success result).
      + set (x := mkReport _ true _). rewrite <- (Hnext x).
        apply IH. rewrite Hnext. lia.
      + destruct (String.eqb (onError o) "stop").
        * cbn. rewrite length_app. cbn. lia.
        * set (x := mkReport _ false _). rewrite <- (Hnext x).
          apply IH. rewrite Hnext. lia. }
  by apply (Hloop [] 0 0 initialVars w).
Qed.
End Engine.

(** *** The reply on the socket *)

Section Socket.

Variable JSON_parse : string → option value.

(** [const lines = buf.split("\n"); buf = lines.pop();]: the lines that
    are complete, and what follows the last line feed. *)
Fixpoint lines_of (s : string) : list string * string :=
  match s with
  | EmptyString => ([], EmptyString)
  | String c rest =>
      let '(lines, buf) := lines_of rest in
      if Ascii.eqb c "010" then (EmptyString :: lines, buf)
      else
        match lines with
        | [] => ([], String c buf)
        | line :: lines => (String c line :: lines, buf)
        end
  end.

(** [!line.trim()] *)
Definition blank (line : string) : bool := Decimal.all_chars Js.is_space line.

(** The loop over the lines of a chunk: what the first line that is not
    blank settles the promise to. *)
Fixpoint first_reply (lines : list string) : option outcome :=
  match lines with
  | [] => None
  | line :: rest =>
      if blank line then first_reply rest
      else
        Some match JSON_parse line with
             | Some resp => Resolved resp
             | None => Rejected "Invalid JSON response"
             end
  end.

(** The handler of [data] in [sendDoRequest], on the buffer and on what
    the promise is settled to, if it is; a promise is settled once. *)
Definition on_data (state : string * option outcome) (d : string)
    : string * option outcome :=
  let '(buf, settled) := state in
  let '(lines, buf) := lines_of (buf +:+ d) in
  (buf, match settled with
        | Some o => Some o
        | None => first_reply lines
        end).

Lemma lines_of_app (a b : string) :
  lines_of (a +:+ b)
  = ((lines_of a).1 ++ (lines_of ((lines_of a).2 +:+ b)).1,
     (lines_of ((lines_of a).2 +:+ b)).2).
Proof.
  induction a as [|c a IH].
  - change ("" +:+ b) with b. cbn [lines_of fst snd app].
    change ("" +:+ b) with b. by destruct (lines_of b).
  - rewrite append_cons. cbn [lines_of]. rewrite IH.
    destruct (lines_of a) as [[|l la] ra]; cbn [fst snd app].
    + destruct (Ascii.eqb c "010") eqn:Hc; cbn [fst snd app].
      * by destruct (lines_of (ra +:+ b)).
      * rewrite append_cons. cbn [lines_of]. rewrite Hc.
        by destruct (lines_of (ra +:+ b)) as [[|l lb] rb].
    + by destruct (Ascii.eqb c "010").
Qed.

Lemma lines_of_buffer (s : string) :
  lines_of (lines_of s).2 = ([], (lines_of s).2).
Proof.
  induction s as [|c s IH]; [done|]. cbn [lines_of].
  destruct (lines_of s) as [[|l ls] r]; cbn [snd] in *.
  - destruct (Ascii.eqb c "010") eqn:Hc; cbn [snd lines_of]; [done|].
    by rewrite IH, Hc.
  - by destruct (Ascii.eqb c "010").
Qed.

Lemma first_reply_app (l1 l2 : list string) :
  first_reply (l1 ++ l2)
  = match first_reply l1 with
    | Some o => Some o
    | None => first_reply l2
    end.
Proof.
  induction l1 as [|l l1 IH]; [done|]. cbn. by destruct (blank l).
Qed.

(** The chunks of a reply, joined. *)
Definition joined (chunks : list string) : string :=
  foldr String.append EmptyString chunks.

Lemma on_data_chunks (chunks : list string) (buf : string)
    (settled : option outcome) :
  lines_of buf = ([], buf) →
  foldl on_data (buf, settled) chunks
  = ((lines_of (buf +:+ joined chunks)).2,
     match settled with
     | Some o => Some o
     | None => first_reply (lines_of (buf +:+ joined chunks)).1
     end).
Proof.
  revert buf settled.
  induction chunks as [|d chunks IH]; intros buf settled Hbuf.
  - cbn [foldl joined foldr].
    assert (Hnil : buf +:+ "" = buf).
    { clear. induction buf as [|c b IHb]; [done|].
      by rewrite append_cons, IHb. }
    rewrite Hnil, Hbuf. by destruct settled.
  - cbn [foldl joined foldr]. unfold on_data at 2.
    rewrite <- append_assoc, (lines_of_app (buf +:+ d)).
    destruct (lines_of (buf +:+ d)) as [l1 r1] eqn:H1. cbn [fst snd].
    rewrite IH.
    + f_equal. rewrite first_reply_app.
      by destruct settled, (first_reply l1).
    + pose proof (lines_of_buffer (buf +:+ d)) as Hrest.
      by rewrite H1 in Hrest.
Qed.

(** X26. The reply that [sendDoRequest] settles to does not depend on how
    the socket cuts the bytes of the daemon into chunks (of ASCII text):
    after any sequence of chunks, the buffer and the outcome are the ones
    that the same bytes give when they come as one chunk, and the outcome
    is decided by the first complete line that is not blank. *)
Theorem reply_does_not_depend_on_chunks (chunks : list string) :
  Forall (λ d, Decimal.all_chars
                 (λ c, (nat_of_ascii c <? 128)%nat) d = true) chunks →
  foldl on_data (EmptyString, None) chunks
  = on_data (EmptyString, None) (joined chunks)
  ∧ (foldl on_data (EmptyString, None) chunks).2
    = first_reply (lines_of (joined chunks)).1.
Proof.
  intros _. rewrite on_data_chunks by done. unfold on_data.
  change ("" +:+ joined chunks) with (joined chunks).
  by destruct (lines_of (joined chunks)).
Qed.

End Socket.

(** *** Runs against a recording daemon *)

(** Stand-ins for [JSON] in the runs below: the parser knows the literals
    and the unsigned integers, the printer does not escape and prints a
    function as it is printed inside an array. *)
Definition sample_parse (text : string) : option value :=
  if String.eqb text "true" then Some (VBool true)
  else if String.eqb text "false" then Some (VBool false)
  else if String.eqb text "null" then Some VNull
  else if negb (String.eqb text "")
          && String.eqb (Js.skip_spaces text) text
          && String.eqb (take_word text).1 text
          && Js.is_digit (default "0"%char (head (String.list_ascii_of_string text)))
  then VNumber <$> Js.read_digits text None
  else None.

Definition quote : string := String (ascii_of_nat 34) EmptyString.

Fixpoint sample_stringify (v : value) : string :=
  match v with
  | VUndefined => "undefined"
  | VNull => "null"
  | VBool true => "true"
  | VBool false => "false"
  | VNumber n => Js.String_of_Z n
  | VString s => quote +:+ s +:+ quote
  | VArray items =>
      "[" +:+
      (fix go (l : list value) : string :=
         match l with
         | [] => ""
         | [x] => sample_stringify x
         | x :: rest => sample_stringify x +:+ "," +:+ go rest
         end) items
      +:+ "]"
  | VObject props =>
      "{" +:+
      (fix go (l : list (string * value)) : string :=
         match l with
         | [] => ""
         | [(k, x)] => quote +:+ k +:+ quote +:+ ":" +:+ sample_stringify x
         | (k, x) :: rest =>
             quote +:+ k +:+ quote +:+ ":" +:+ sample_stringify x +:+ ","
             +:+ go rest
         end) props
      +:+ "}"
  | VFunction _ => "null"
  end.

Definition text_part (text : string) : value :=
  VObject [("type", VString "text"); ("text", VString text)].
Definition image_part : value :=
  VObject [("type", VString "image"); ("data", VString "iVBORw0KGgo=");
           ("mimeType", VString "image/png")].

Definition reply (content : list value) : value :=
  VObject [("type", VString "tool_response"); ("id", VString "do-1");
           ("result", VObject [("content", VArray content)])].
Definition error_reply (text : string) : value :=
  VObject [("type", VString "tool_response"); ("id", VString "do-1");
           ("error", VObject [("content", VArray [text_part text])])].

(** A daemon that records the requests it gets.  It answers [js] with the
    text [true], [snap] with an image, [urls] with an array of two names,
    [missing] with an error, and anything else with the text [ok]. *)
Definition recording_daemon (req : request) (log : list request)
    : outcome * list request :=
  (Resolved
     (if String.eqb (tool req) "js" then reply [text_part "true"]
      else if String.eqb (tool req) "snap" then reply [image_part]
      else if String.eqb (tool req) "missing" then error_reply "not found"
      else reply [text_part "ok"]),
   log ++ [req]).

Definition run_single :=
  executeSingleStep sample_parse sample_stringify (list request)
    recording_daemon.
Definition run_step :=
  executeStep sample_parse sample_stringify (list request) recording_daemon.
Definition run_steps :=
  executeDoSteps sample_parse sample_stringify (list request)
    recording_daemon.

Definition scroll : leaf :=
  mkLeaf "scroll" (Some (VObject [("direction", VString "down")])) None.
Definition is_done : leaf := mkLeaf "js" None (Some "done").
Definition go_to (url : string) : leaf :=
  mkLeaf "go" (Some (VObject [("url", VString url)])) None.

(** A [repeat] of 200 sends the request of its one nested step 100 times. *)
Example repeat_200_runs_100 :
  let run := run_step default_options
               (Repeat (VNumber 200) (Some [Leaf scroll]) None) ∅ [] in
  run.1.1 = ok 100
  ∧ run.2 = replicate 100 (mkRequest "scroll"
                             (VObject [("direction", VString "down")])).
Proof. split; vm_compute; reflexivity. Qed.

(** An [each] loop over three URLs navigates to them in order, each
    navigation followed by its auto-wait. *)
Example each_visits_in_order :
  (run_step default_options
     (Each (VString "%{urls}") (Some [Leaf (go_to "%{u}")]) (Some "u"))
     {[ "urls" := VArray [VString "a"; VString "b"; VString "c"] ]} []).2
  = [mkRequest "go" (VObject [("url", VString "a")]);
     mkRequest "wait.load" (VObject [("timeout", VNumber 10000)]);
     mkRequest "go" (VObject [("url", VString "b")]);
     mkRequest "wait.load" (VObject [("timeout", VNumber 10000)]);
     mkRequest "go" (VObject [("url", VString "c")]);
     mkRequest "wait.load" (VObject [("timeout", VNumber 10000)])].
Proof. vm_compute. reflexivity. Qed.


(** A nested step that fails under [onError = 'stop'] ends the loop in its
    first iteration. *)
Example repeat_stops_at_failure :
  (run_step default_options
     (Repeat (VNumber 3) (Some [Leaf (mkLeaf "missing" None None)]) None)
     ∅ []).1.1
  = failed (VString "not found") 1.
Proof. vm_compute. reflexivity. Qed.



(** C8 does not hold as the specification states it.  With [autoWait] set
    to [false] a [go] that succeeds is followed by no wait request. *)
Lemma go_without_auto_wait :
  in_class (cmd (go_to "https://example.org")) navigation_commands
  ∧ run_single (mkOptions "stop" false 100) (go_to "https://example.org") ∅ []
    = (mkSingle true VUndefined VUndefined, ∅,
       [mkRequest "go" (VObject [("url", VString "https://example.org")])]).
Proof.
  split.
  - exists "go". split; [by left|by left].
  - vm_compute. reflexivity.
Qed.

(** C8 (as amended) on a [go] with the default options: the daemon gets the
    [go] and one [wait.load]. *)
Lemma leaf_auto_wait_and_failure_policy_witness :
  autoWait default_options = true
  ∧ (in_class (cmd (go_to "https://example.org")) navigation_commands
     ∨ in_class (cmd (go_to "https://example.org")) mutation_commands)
  ∧ reply [text_part "ok"] ≠ VNull
  ∧ reply [text_part "ok"] ≠ VUndefined
  ∧ truthy (prop "error" (reply [text_part "ok"])) = false
  ∧ success (run_single default_options (go_to "https://example.org") ∅ []).1.1
    = true
  ∧ (run_single default_options (go_to "https://example.org") ∅ []).2
    = [mkRequest "go" (VObject [("url", VString "https://example.org")]);
       mkRequest "wait.load" (VObject [("timeout", VNumber 10000)])].
Proof.
  assert (Hclass : in_class (cmd (go_to "https://example.org"))
                     navigation_commands).
  { exists "go". split; [by left|by left]. }
  assert (Hnull : reply [text_part "ok"] ≠ VNull) by done.
  assert (Hundef : reply [text_part "ok"] ≠ VUndefined) by done.
  split; [reflexivity|]. split; [by left|].
  split; [exact Hnull|]. split; [exact Hundef|]. split; [reflexivity|].
  destruct (proj1 (leaf_auto_wait_and_failure_policy sample_parse
                     sample_stringify (list request) recording_daemon
                     default_options)
              (go_to "https://example.org") ∅ []
              [mkRequest "go"
                 (VObject [("url", VString "https://example.org")])]
              (reply [text_part "ok"]) eq_refl (or_introl Hclass)
              eq_refl Hnull Hundef eq_refl)
    as (wait & Hnav & _ & Hok & Hworld).
  split; [exact Hok|].
  etrans; [exact Hworld|]. rewrite (Hnav Hclass). reflexivity.
Defined.

(** A reply of [null] fails the step: nothing is captured and no wait
    request follows. *)
Example null_reply_fails_the_step :
  executeSingleStep sample_parse sample_stringify (list request)
    (λ req log, (Resolved VNull, log ++ [req]))
    default_options (mkLeaf "go" None (Some "page")) ∅ []
  = (mkSingle false
       (VString "Cannot read properties of null (reading 'error')")
       VUndefined,
     ∅, [mkRequest "go" (VObject [])]).
Proof. vm_compute. reflexivity. Qed.

(** A failed step does not stop a workflow that continues on errors. *)
Example workflow_continues_on_error :
  (run_steps [Leaf (mkLeaf "missing" None None); Leaf scroll]
     (mkOptions "continue" true 100) ∅ []).1.1
  = mkDoResult "partial" 2 2
      [mkReport 1 false (VString "not found"); mkReport 2 true VUndefined]
      (Some 1) None
  ∧ (run_steps [Leaf (mkLeaf "missing" None None); Leaf scroll]
       default_options ∅ []).1.1
    = mkDoResult "failed" 0 2 [mkReport 1 false (VString "not found")]
        None (Some (VString "not found")).
Proof. split; vm_compute; reflexivity. Qed.

(** C9 does not hold as the specification states it.  A reply that
    carries an image and no text is captured as its [result], not as the
    whole reply. *)
Lemma image_reply_captures_result :
  truthy (prop "text" (index0 (prop "content"
                                 (prop "result" (reply [image_part])))))
  = false
  ∧ extractStepOutput sample_parse (reply [image_part])
    = VObject [("content", VArray [image_part])]
  ∧ extractStepOutput sample_parse (reply [image_part]) ≠ reply [image_part].
Proof. repeat split; try (vm_compute; reflexivity). vm_compute. congruence. Qed.

(** C9 (as amended) on a reply whose text is [true]. *)
Lemma extractStepOutput_cases_witness :
  truthy (prop "text" (index0 (prop "content"
                                 (prop "result" (reply [text_part "true"])))))
  = true
  ∧ sample_parse "true" = Some (VBool true)
  ∧ extractStepOutput sample_parse (reply [text_part "true"]) = VBool true.
Proof.
  split; [reflexivity|]. split; [reflexivity|].
  exact (proj1 (proj1 (extractStepOutput_cases sample_parse
                         (reply [text_part "true"])) eq_refl)
           (VBool true) eq_refl).
Defined.



(** Substitution inside a string renders the values and does not encode
    them; an undefined variable and an unclosed reference stay as they
    are. *)
Example substitution_in_a_string :
  resolveVar sample_stringify (VString "https://example.org/search?q=%{t}&n=%{n}&x=%{x}&y=%{y")
    {[ "t" := VString "My Page"; "n" := VNumber 3;
       "y" := VBool true ]}
  = VString "https://example.org/search?q=My Page&n=3&x=%{x}&y=%{y".
Proof. vm_compute. reflexivity. Qed.

(** An [each] over something that is not an array fails and runs nothing. *)
Example each_needs_an_array :
  run_step default_options
    (Each (VString "%{urls}") (Some [Leaf (go_to "%{item}")]) None)
    {[ "urls" := VString "https://example.org" ]} []
  = (failed (VString "each: expected array, got string") 0,
     {[ "urls" := VString "https://example.org" ]}, []).
Proof. vm_compute. reflexivity. Qed.

(** A capture inside a loop reaches the variables of the workflow. *)
Example capture_in_loop_propagates :
  (run_step default_options
     (Repeat (VNumber 2) (Some [Leaf is_done]) None) ∅ []).1.2 !! "done"
  = Some (VBool true).
Proof. vm_compute. reflexivity. Qed.

(** An undefined repeat count runs the body once. *)
Example repeat_undefined_count_runs_once :
  (run_step default_options
     (Repeat (VString "%{count}") (Some [Leaf scroll]) None) ∅ [])
  = (ok 1, ∅, [mkRequest "scroll" (VObject [("direction", VString "down")])]).
Proof. vm_compute. reflexivity. Qed.


(** [click.left] is a command of both tables. *)
Lemma shouldAutoWait_getAutoWaitCommand_witness :
  ("click.left" ∉ Js.Object_prototype_names)
  ∧ shouldAutoWait "click.left" = true
  ∧ getAutoWaitCommand "click.left" = Some "wait.dom".
Proof.
  assert (Hname : "click.left" ∉ Js.Object_prototype_names).
  { intros Hin. unfold Js.Object_prototype_names in Hin.
    repeat (apply elem_of_cons in Hin as [Hin|Hin]; [discriminate|]).
    by apply elem_of_nil in Hin. }
  split; [exact Hname|].
  split; [|reflexivity].
  apply (proj1 (shouldAutoWait_getAutoWaitCommand "click.left" Hname)).
  by eexists.
Defined.

(** With no variable defined, the references of a template stay. *)
Lemma undefined_references_stay_witness :
  (∀ name,
     name ∈ references (String.length "%{base}/items/%{id}")
              "%{base}/items/%{id}" →
     unbound ∅ name)
  ∧ resolveVar sample_stringify (VString "%{base}/items/%{id}") ∅
    = VString "%{base}/items/%{id}".
Proof.
  assert (Hrefs : ∀ name,
            name ∈ references (String.length "%{base}/items/%{id}")
                     "%{base}/items/%{id}" →
            unbound ∅ name).
  { intros name Hin. vm_compute in Hin.
    repeat (apply elem_of_cons in Hin as [->|Hin];
            [split; [reflexivity|];
             intros Hproto; unfold Js.Object_prototype_names in Hproto;
             repeat (apply elem_of_cons in Hproto as [Hproto|Hproto];
                     [discriminate|]);
             by apply elem_of_nil in Hproto|]).
    by apply elem_of_nil in Hin. }
  split; [exact Hrefs|].
  exact (undefined_references_stay sample_stringify ∅ _ Hrefs).
Defined.

(** With [base] defined and [id] not, the reference to [id] stays. *)
Example undefined_reference_in_arguments :
  substituteVars sample_stringify
    (VObject [("url", VString "%{base}/items/%{id}"); ("n", VNumber 2)])
    {[ "base" := VString "https://example.com" ]}
  = VObject [("url", VString "https://example.com/items/%{id}");
             ("n", VNumber 2)].
Proof. vm_compute. reflexivity. Qed.

(** The item variable of an [each] loop is not a variable of the workflow
    afterwards. *)
Lemma loop_variables_stay_in_the_loop_witness :
  ("__proto__" ∉ captures [Leaf scroll])
  ∧ ("page" ∉ captures [Leaf scroll])
  ∧ (run_step default_options
       (Each (VArray [VString "a"; VString "b"]) (Some [Leaf scroll])
          (Some "page")) ∅ []).1.2 !! "page" = None.
Proof.
  assert (Hproto : "__proto__" ∉ captures [Leaf scroll])
    by apply not_elem_of_nil.
  assert (Hname : "page" ∉ captures [Leaf scroll]) by apply not_elem_of_nil.
  split; [exact Hproto|]. split; [exact Hname|].
  exact (loop_variables_stay_in_the_loop sample_parse sample_stringify
           (list request) recording_daemon default_options
           (Each (VArray [VString "a"; VString "b"]) (Some [Leaf scroll])
              (Some "page")) ∅ [] "page" Hproto Hname).
Defined.

Lemma resolveVar_plain_text_witness :
  Decimal.all_chars (λ c, negb (Ascii.eqb c "%")) "https://example.com" = true
  ∧ resolveVar sample_stringify (VString "https://example.com")
      {[ "base" := VString "https://example.org" ]}
    = VString "https://example.com".
Proof.
  split; [reflexivity|].
  exact (resolveVar_plain_text sample_stringify "https://example.com"
           {[ "base" := VString "https://example.org" ]} eq_refl).
Defined.

(** A capture of a leaf step of the body is copied out of the loop, the
    capture of the [until] step is not. *)
Example until_capture_stays_in_the_loop :
  let run := run_step default_options
               (Repeat (VNumber 3)
                  (Some [Leaf (mkLeaf "read" None (Some "page"))])
                  (Some is_done)) ∅ [] in
  run.1.1 = ok 2
  ∧ run.1.2 !! "page" = Some (VString "ok")
  ∧ run.1.2 !! "done" = None
  ∧ run.1.2 !! "_index" = None.
Proof. vm_compute. done. Qed.

(** A workflow that goes on after a failure reports every step and ends
    [partial]; one that stops reports the failure last and ends
    [failed]. *)
Example report_of_a_failing_workflow :
  let steps := [Leaf scroll; Leaf (mkLeaf "missing" None None); Leaf scroll] in
  let on := (run_steps steps (mkOptions "continue" true 100) ∅ []).1.1 in
  let off := (run_steps steps default_options ∅ []).1.1 in
  status on = "partial" ∧ report_ok <$> results on = [true; false; true]
  ∧ completedSteps on = 3
  ∧ status off = "failed" ∧ report_ok <$> results off = [true; false]
  ∧ completedSteps off = 1.
Proof. vm_compute. done. Qed.

(** The count ["3"] is the count 3. *)
Example repeat_count_of_text :
  run_step default_options (Repeat (VString "3") (Some [Leaf scroll]) None)
    ∅ []
  = run_step default_options (Repeat (VNumber 3) (Some [Leaf scroll]) None)
      ∅ [].
Proof. vm_compute. reflexivity. Qed.

Lemma completedSteps_of_leaves_witness :
  Forall (λ s, ∃ l, s = Leaf l)
    [Leaf scroll; Leaf (mkLeaf "missing" None None); Leaf scroll]
  ∧ completedSteps
      (run_steps [Leaf scroll; Leaf (mkLeaf "missing" None None); Leaf scroll]
         (mkOptions "continue" true 100) ∅ []).1.1 = 3.
Proof.
  assert (Hleaves : Forall (λ s, ∃ l, s = Leaf l)
                      [Leaf scroll; Leaf (mkLeaf "missing" None None);
                       Leaf scroll]).
  { repeat constructor; eexists; reflexivity. }
  split; [exact Hleaves|].
  etrans;
    [exact (completedSteps_of_leaves sample_parse sample_stringify
              (list request) recording_daemon _
              (mkOptions "continue" true 100) ∅ [] Hleaves)|].
  vm_compute. reflexivity.
Defined.
(** A reply that comes in four chunks, after a blank line and before the
    beginning of a further line. *)
Definition line_feed : string := String "010" EmptyString.
Definition sample_chunks : list string :=
  [" "; line_feed; "tr"; "ue" +:+ line_feed +:+ "fal"].

Lemma reply_does_not_depend_on_chunks_witness :
  Forall (λ d, Decimal.all_chars
                 (λ c, (nat_of_ascii c <? 128)%nat) d = true) sample_chunks
  ∧ foldl (on_data sample_parse) (EmptyString, None) sample_chunks
    = ("fal", Some (Resolved (VBool true)))
  ∧ on_data sample_parse (EmptyString, None) (joined sample_chunks)
    = ("fal", Some (Resolved (VBool true))).
Proof.
  assert (Hascii : Forall (λ d, Decimal.all_chars
                     (λ c, (nat_of_ascii c <? 128)%nat) d = true)
                     sample_chunks)
    by (repeat constructor).
  split; [exact Hascii|].
  destruct (reply_does_not_depend_on_chunks sample_parse sample_chunks Hascii)
    as [Hsame _].
  split; [rewrite Hsame|]; reflexivity.
Defined.

End DoExecutor.
